(** * memc_load_multithreading: a shallow embedding and its properties

    The loader reads gzip-compressed, tab-separated lines describing the
    applications installed on a device, parses each line, routes the
    record to a memcached endpoint chosen by device type, and keeps a
    per-file tally of processed and failed lines.

    The development follows the source file top-down:
    - [Py]       the Python built-ins the loader relies on (bytes and str
                 operations, [int], [float], IEEE double arithmetic);
    - [Pb]       the [UserApps] protocol-buffer message;
    - [Loader]   [parse_appsinstalled], [insert_appsinstalled],
                 [line_worker], [prototest], the verdict that ends
                 [process_file];
    - [Pool]     [process_file] as an interleaving semantics of its
                 producer and its worker threads;
    - [Samples]  the defaults of the option parser and sample lines.
    The properties come after the definitions: lemmas on the parser, the
    worker turn, the wire format, the rounding of integers to doubles
    and the invariant of the pool, then one theorem per claim. *)

From Stdlib Require Import ZArith NArith List Bool Lia.
From Stdlib Require Import Strings.Ascii Strings.String Strings.Byte.
From Stdlib Require Import Floats.SpecFloat.
From stdpp Require Import base option list gmap.
Import ListNotations.

Set Default Proof Using "Type".
Local Open Scope N_scope.

(** ** Python values and built-ins *)
Module Py.

(** Exceptions the loader can meet.  All of them derive from
    [Exception]; [StoreError] stands for whatever the memcached client
    raises (socket errors, timeouts, protocol errors, bad addresses). *)
Inductive exn :=
| ValueError
| UnicodeDecodeError
| ZeroDivisionError
| OverflowError
| AssertionError
| DecodeError
| StoreError (code : N).

Inductive result (A : Type) :=
| Ok (a : A)
| Raise (e : exn).
Arguments Ok {A} a.
Arguments Raise {A} e.

Definition rbind {A B} (r : result A) (k : A -> result B) : result B :=
  match r with
  | Ok a => k a
  | Raise e => Raise e
  end.

(** [bytes] are lists of bytes, [str] are lists of Unicode code points. *)
Abbreviation bytes := (list byte).
Abbreviation str := (list N).

(** Literals: an ASCII [string] read as [str] or as [bytes]. *)
Definition u (s : string) : str :=
  map (fun b => Byte.to_N b) (list_byte_of_string s).
Definition b (s : string) : bytes := list_byte_of_string s.

Definition TAB : N := 9.
Definition COMMA : N := 44.

(** What the interpreter brings besides the language: the Unicode
    character database above ASCII (decimal value of the code points
    of category Nd, and the further code points [str.isdigit] accepts)
    and [sys.get_int_max_str_digits()] (0 switches the limit off). *)
Record env := {
  unicode_decimal : N -> option N;
  unicode_digit : N -> bool;
  int_max_str_digits : nat
}.

(** The database restricted to code points below U+0100: no decimal
    digit there, and the superscripts one, two and three count as
    digits.  It is exact for text that stays in that range. *)
Definition latin1 : env := {|
  unicode_decimal := fun _ => None;
  unicode_digit := fun c => (c =? 0xB2) || (c =? 0xB3) || (c =? 0xB9);
  int_max_str_digits := 4300
|}.

(** *** bytes.decode('utf-8') *)

Definition is_cont (x : N) : bool := (0x80 <=? x) && (x <? 0xC0).
Definition low6 (x : N) : N := x mod 64.

Fixpoint utf8 (l : list N) : result str :=
  match l with
  | [] => Ok []
  | b0 :: t0 =>
    if b0 <? 0x80 then rbind (utf8 t0) (fun s => Ok (b0 :: s))
    else if b0 <? 0xC2 then Raise UnicodeDecodeError
    else if b0 <? 0xE0 then
      match t0 with
      | b1 :: t1 =>
        if is_cont b1
        then rbind (utf8 t1) (fun s => Ok ((b0 mod 32) * 64 + low6 b1 :: s))
        else Raise UnicodeDecodeError
      | _ => Raise UnicodeDecodeError
      end
    else if b0 <? 0xF0 then
      match t0 with
      | b1 :: b2 :: t2 =>
        let cp := (b0 mod 16) * 4096 + low6 b1 * 64 + low6 b2 in
        if is_cont b1 && is_cont b2 && (0x800 <=? cp)
           && negb ((0xD800 <=? cp) && (cp <=? 0xDFFF))
        then rbind (utf8 t2) (fun s => Ok (cp :: s))
        else Raise UnicodeDecodeError
      | _ => Raise UnicodeDecodeError
      end
    else if b0 <? 0xF5 then
      match t0 with
      | b1 :: b2 :: b3 :: t3 =>
        let cp := (b0 mod 8) * 262144 + low6 b1 * 4096
                  + low6 b2 * 64 + low6 b3 in
        if is_cont b1 && is_cont b2 && is_cont b3
           && (0x10000 <=? cp) && (cp <=? 0x10FFFF)
        then rbind (utf8 t3) (fun s => Ok (cp :: s))
        else Raise UnicodeDecodeError
      | _ => Raise UnicodeDecodeError
      end
    else Raise UnicodeDecodeError
  end.

Definition decode_utf8 (line : bytes) : result str :=
  utf8 (map Byte.to_N line).

(** *** strip and split *)

(** [str.isspace] for one code point. *)
Definition isspace (c : N) : bool :=
  ((0x09 <=? c) && (c <=? 0x0D)) || ((0x1C <=? c) && (c <=? 0x20))
  || (c =? 0x85) || (c =? 0xA0) || (c =? 0x1680)
  || ((0x2000 <=? c) && (c <=? 0x200A))
  || (c =? 0x2028) || (c =? 0x2029) || (c =? 0x202F)
  || (c =? 0x205F) || (c =? 0x3000).

(** The whitespace of [bytes.strip] and of C's [Py_ISSPACE]. *)
Definition isspace_ascii (c : N) : bool :=
  ((0x09 <=? c) && (c <=? 0x0D)) || (c =? 0x20).

Fixpoint lstrip {A} (p : A -> bool) (s : list A) : list A :=
  match s with
  | [] => []
  | c :: t => if p c then lstrip p t else s
  end.

Definition strip_with {A} (p : A -> bool) (s : list A) : list A :=
  rev (lstrip p (rev (lstrip p s))).

Definition str_strip (s : str) : str := strip_with isspace s.

Definition bytes_strip (l : bytes) : bytes :=
  strip_with (fun x => isspace_ascii (Byte.to_N x)) l.

(** [s.split(sep)] for a one-character separator: never empty. *)
Fixpoint split (sep : N) (s : str) : list str :=
  match s with
  | [] => [[]]
  | c :: t =>
    if c =? sep then [] :: split sep t
    else match split sep t with
         | f :: fs => (c :: f) :: fs
         | [] => [[c]]
         end
  end.

(** *** int(s) and str.isdigit *)

Definition is_digit09 (c : N) : bool := (48 <=? c) && (c <=? 57).

Definition isdigit_char (E : env) (c : N) : bool :=
  if c <? 128 then is_digit09 c
  else match unicode_decimal E c with
       | Some _ => true
       | None => unicode_digit E c
       end.

Definition isdigit (E : env) (s : str) : bool :=
  match s with
  | [] => false
  | _ => forallb (isdigit_char E) s
  end.

(** Before parsing a number CPython rewrites the text to ASCII:
    a space above ASCII becomes a blank, a decimal digit its ASCII
    digit, and any other character above ASCII a question mark. *)
Definition fold_char (E : env) (c : N) : N :=
  if c <? 127 then c
  else if isspace c then 32
  else match unicode_decimal E c with
       | Some d => if d <? 10 then 48 + d else 63
       | None => 63
       end.

Definition to_ascii (E : env) (s : str) : list N := map (fold_char E) s.

(** digit ("_"? digit)*, as the list of digit values. *)
Fixpoint digitpart (s : list N) : option (list N) :=
  match s with
  | [] => None
  | c :: t =>
    if is_digit09 c then
      match t with
      | [] => Some [c - 48]
      | c' :: t' =>
        if c' =? 95
        then match t' with
             | [] => None
             | _ => option_map (cons (c - 48)) (digitpart t')
             end
        else option_map (cons (c - 48)) (digitpart t)
      end
    else None
  end.

Definition of_digits (ds : list N) : N :=
  fold_left (fun acc d => 10 * acc + d) ds 0.

Definition split_sign (s : list N) : bool * list N :=
  match s with
  | 45 :: t => (true, t)
  | 43 :: t => (false, t)
  | _ => (false, s)
  end.

Definition over_limit (E : env) (ds : list N) : bool :=
  match int_max_str_digits E with
  | O => false
  | lim => (lim <? length ds)%nat
  end.

Definition py_int (E : env) (s : str) : result Z :=
  let '(neg, body) := split_sign (strip_with isspace_ascii (to_ascii E s)) in
  match digitpart body with
  | Some ds =>
    if over_limit E ds then Raise ValueError
    else Ok (if neg then - Z.of_N (of_digits ds) else Z.of_N (of_digits ds))%Z
  | None => Raise ValueError
  end.

(** *** float: IEEE binary64 *)

Abbreviation float := spec_float.
Definition prec : Z := 53.
Definition emax : Z := 1024.

(** The double nearest to an integer (ties to even). *)
Definition float_of_Z (z : Z) : float := binary_normalize prec emax z 0 false.

(** [float(n)] for an int, and the conversion of an int operand of a
    float operation: OverflowError when the nearest double is not
    finite. *)
Definition float_of_int (z : Z) : result float :=
  match float_of_Z z with
  | S754_infinity _ => Raise OverflowError
  | f => Ok f
  end.

Definition fzero : float := S754_zero false.

(** [a / c] on floats. *)
Definition float_truediv (a c : float) : result float :=
  if SFeqb c fzero then Raise ZeroDivisionError
  else Ok (SFdiv prec emax a c).

Definition float_lt (a c : float) : bool := SFltb a c.
Definition float_eq (a c : float) : bool := SFeqb a c.

Definition is_finite (f : float) : bool :=
  match f with
  | S754_zero _ | S754_finite _ _ _ => true
  | _ => false
  end.

(** The double nearest to [m * 10^e10], as a decimal literal denotes. *)
Definition float_of_decimal (neg : bool) (m : N) (e10 : Z) : float :=
  match m with
  | N0 => S754_zero neg
  | Npos p =>
    if (0 <=? e10)%Z
    then binary_normalize prec emax (cond_Zopp neg (Zpos p * 10 ^ e10)) 0 false
    else SFdiv prec emax (S754_finite neg p 0)
                         (S754_finite false (Z.to_pos (10 ^ (- e10))) 0)
  end.

(** Underscores are only allowed between two digits. *)
Fixpoint underscores_ok (prev : N) (s : list N) : bool :=
  match s with
  | [] => negb (prev =? 95)
  | c :: t =>
    (if c =? 95 then is_digit09 prev
     else implb (prev =? 95) (is_digit09 c))
    && underscores_ok c t
  end.

Fixpoint span_digits (s : list N) : list N * list N :=
  match s with
  | [] => ([], [])
  | c :: t =>
    if is_digit09 c
    then let '(ds, r) := span_digits t in (c - 48 :: ds, r)
    else ([], s)
  end.

Definition lower (c : N) : N :=
  if (65 <=? c) && (c <=? 90) then c + 32 else c.

(** An exponent part, when one is there with at least one digit. *)
Definition exponent (s : list N) : option (Z * list N) :=
  match s with
  | c :: t =>
    if lower c =? 101 then
      let '(neg, t') := split_sign t in
      match span_digits t' with
      | ([], _) => None
      | (ds, r) =>
        Some (cond_Zopp neg (Z.of_N (of_digits ds)), r)
      end
    else None
  | [] => None
  end.

Definition float_literal (s : list N) : option float :=
  let '(neg, t) := split_sign s in
  let name := map lower t in
  if bool_decide (name = u "inf") || bool_decide (name = u "infinity")
  then Some (S754_infinity neg)
  else if bool_decide (name = u "nan") then Some S754_nan
  else
    let '(ip, r1) := span_digits t in
    let '(fp, r2) := match r1 with
                     | 46 :: r => span_digits r
                     | _ => ([], r1)
                     end in
    match ip ++ fp with
    | [] => None
    | ds =>
      let '(e, r3) := match exponent r2 with
                      | Some x => x
                      | None => (0%Z, r2)
                      end in
      match r3 with
      | [] => Some (float_of_decimal neg (of_digits ds)
                                     (e - Z.of_nat (length fp)))
      | _ => None
      end
    end.

Definition py_float (E : env) (s : str) : result float :=
  let a := to_ascii E s in
  if underscores_ok 0 a then
    match float_literal
            (strip_with isspace_ascii (List.filter (fun c => negb (c =? 95)) a))
    with
    | Some f => Ok f
    | None => Raise ValueError
    end
  else Raise ValueError.

End Py.

(** ** The UserApps message of appsinstalled_pb2 *)
Module Pb.
Import Py.

(** Modelled from the spec: the generated module appsinstalled_pb2 is
    not part of the sources.  Section 6 gives the payload as a binary
    message with the fields lat: double, lon: double and apps: repeated
    integer; section 3 gives the application ids as int64. *)
Record UserApps := {
  ua_lat : float;
  ua_lon : float;
  ua_apps : list Z
}.

Definition empty : UserApps :=
  {| ua_lat := fzero; ua_lon := fzero; ua_apps := [] |}.

Definition in_int64 (z : Z) : bool :=
  ((- 2 ^ 63 <=? z) && (z <? 2 ^ 63))%Z.

Definition set_lat (m : UserApps) (x : float) : UserApps :=
  {| ua_lat := x; ua_lon := ua_lon m; ua_apps := ua_apps m |}.

Definition set_lon (m : UserApps) (x : float) : UserApps :=
  {| ua_lat := ua_lat m; ua_lon := x; ua_apps := ua_apps m |}.

(** Modelled from the spec: [ua.apps.extend(values)]; a value outside
    the field's integer type is refused with ValueError. *)
Definition apps_extend (m : UserApps) (vs : list Z) : result UserApps :=
  if forallb in_int64 vs
  then Ok {| ua_lat := ua_lat m; ua_lon := ua_lon m;
             ua_apps := ua_apps m ++ vs |}
  else Raise ValueError.

(** *** Wire format: octets as numbers below 256 *)

Fixpoint to_le (k : nat) (n : N) : list N :=
  match k with
  | O => []
  | S k' => n mod 256 :: to_le k' (n / 256)
  end.

Fixpoint of_le (l : list N) : N :=
  match l with
  | [] => 0
  | x :: t => x + 256 * of_le t
  end.

Fixpoint varint (fuel : nat) (n : N) : list N :=
  match fuel with
  | O => []
  | S k => if n <? 128 then [n] else 128 + n mod 128 :: varint k (n / 128)
  end.

Fixpoint unvarint (fuel : nat) (l : list N) : option (N * list N) :=
  match fuel, l with
  | S k, x :: t =>
    if x <? 128 then Some (x, t)
    else match unvarint k t with
         | Some (v, r) => Some (x - 128 + 128 * v, r)
         | None => None
         end
  | _, _ => None
  end.

Definition sign_bit (s : bool) : N := if s then 2 ^ 63 else 0.

(** The IEEE 754 binary64 interchange encoding. *)
Definition float_bits (f : float) : N :=
  match f with
  | S754_zero s => sign_bit s
  | S754_infinity s => sign_bit s + 2047 * 2 ^ 52
  | S754_nan => 2047 * 2 ^ 52 + 2 ^ 51
  | S754_finite s m e =>
    if Npos m <? 2 ^ 52 then sign_bit s + Npos m
    else sign_bit s + Z.to_N (e + 1075) * 2 ^ 52 + (Npos m - 2 ^ 52)
  end.

Definition bits_float (n : N) : float :=
  let s := 2 ^ 63 <=? n in
  let e := (n / 2 ^ 52) mod 2048 in
  let m := n mod 2 ^ 52 in
  if e =? 0 then
    match m with
    | N0 => S754_zero s
    | Npos p => S754_finite s p (-1074)
    end
  else if e =? 2047 then
    if m =? 0 then S754_infinity s else S754_nan
  else
    match m + 2 ^ 52 with
    | N0 => S754_nan
    | Npos p => S754_finite s p (Z.of_N e - 1075)
    end.

Definition u64 (z : Z) : N := Z.to_N (z mod 2 ^ 64).
Definition s64 (n : N) : Z :=
  if n <? 2 ^ 63 then Z.of_N n else (Z.of_N n - 2 ^ 64)%Z.

Definition TAG_LAT : N := 0x09.
Definition TAG_LON : N := 0x11.
Definition TAG_APPS : N := 0x18.

(** One element of the repeated field. *)
Definition app_field (a : Z) : list N := TAG_APPS :: varint 10 (u64 a).

(** Modelled from the spec: the encoder of the serializer (section
    4.2): lat and lon as 64-bit doubles, then one varint per
    application id, each field behind its tag. *)
Definition encode (m : UserApps) : list N :=
  TAG_LAT :: to_le 8 (float_bits (ua_lat m))
  ++ TAG_LON :: to_le 8 (float_bits (ua_lon m))
  ++ flat_map app_field (ua_apps m).

(** Modelled from the spec: the decoder of the same schema. *)
Fixpoint decode_fields (fuel : nat) (l : list N) (acc : UserApps)
  : option UserApps :=
  match l with
  | [] => Some acc
  | tag :: t =>
    match fuel with
    | O => None
    | S k =>
      if tag =? TAG_LAT then
        if (8 <=? length t)%nat
        then decode_fields k (skipn 8 t)
               (set_lat acc (bits_float (of_le (firstn 8 t))))
        else None
      else if tag =? TAG_LON then
        if (8 <=? length t)%nat
        then decode_fields k (skipn 8 t)
               (set_lon acc (bits_float (of_le (firstn 8 t))))
        else None
      else if tag =? TAG_APPS then
        match unvarint 10 t with
        | Some (v, r) =>
          decode_fields k r
            {| ua_lat := ua_lat acc; ua_lon := ua_lon acc;
               ua_apps := ua_apps acc ++ [s64 v] |}
        | None => None
        end
      else None
    end
  end.

Definition decode (l : list N) : option UserApps :=
  decode_fields (length l) l empty.

Definition octet (n : N) : byte :=
  match Byte.of_N (n mod 256) with
  | Some x => x
  | None => x00
  end.

Definition SerializeToString (m : UserApps) : bytes := map octet (encode m).

Definition ParseFromString (s : bytes) : option UserApps :=
  decode (map Byte.to_N s).

(** [m1 == m2] on messages: floats compare as numbers. *)
Definition message_eq (m1 m2 : UserApps) : bool :=
  float_eq (ua_lat m1) (ua_lat m2) && float_eq (ua_lon m1) (ua_lon m2)
  && bool_decide (ua_apps m1 = ua_apps m2).

End Pb.

(** ** The loader *)
Module Loader.
Import Py Pb.

Definition NORMAL_ERR_RATE : float := float_of_decimal false 1 (-2).

Record AppsInstalled := {
  dev_type : str;
  dev_id : str;
  lat : float;
  lon : float;
  apps : list Z
}.

(** Command-line options ([opts] of the main block). *)
Record options := {
  dry : bool;
  pattern : str;
  idfa : str;
  gaid : str;
  adid : str;
  dvid : str;
  workers : nat
}.

(** The per-file tally [stats]; its lock appears in [Pool]. *)
Record stats := {
  processed : nat;
  errors : nat
}.

Inductive level := DEBUG | INFO | ERROR.

(** One constructor per logging call of the source. *)
Inductive message :=
| DryRunWrite (memc_addr key : str) (ua : UserApps)
| CannotWrite (memc_addr : str) (e : exn)
| NotAllDigits (line : str)
| InvalidGeo (line : str)
| UnknownDeviceType (dev_type : str)
| ErrorReading (filename : str) (e : exn)
| AcceptableRate (err_rate : float)
| HighRate (err_rate : float).

(** A memcache.Client, known by the servers it was built for. *)
Record client := Client { servers : list str }.

(** What lies outside the loader: the class-level cache of
    MemcachedConnectionPool, the [set] calls issued to memcached, the
    logging calls and the renames, each in the order they happened. *)
Record world := {
  instances : gmap str client;
  sets : list (client * str * bytes);
  logs : list (level * message);
  renames : list (str * str)
}.

Definition world0 : world :=
  {| instances := ∅; sets := []; logs := []; renames := [] |}.

(** The memcache library as the loader sees it: building a client and
    [set] either return or raise; the value [set] returns is ignored
    by the loader.  [set_fault] is asked with the number of [set]
    calls issued before. *)
Record memcache := {
  init_fault : str -> option exn;
  set_fault : nat -> client -> str -> bytes -> option exn
}.

(** Computations over the world that may raise. *)
Definition M (A : Type) : Type := world -> result A * world.

Definition ret {A} (a : A) : M A := fun w => (Ok a, w).

Definition bind {A B} (m : M A) (k : A -> M B) : M B :=
  fun w => match m w with
           | (Ok a, w') => k a w'
           | (Raise e, w') => (Raise e, w')
           end.

Definition lift {A} (r : result A) : M A := fun w => (r, w).

(** try: [m] except [cls] as e: [h e] *)
Definition try_except {A} (m : M A) (cls : exn -> bool) (h : exn -> M A)
  : M A :=
  fun w => match m w with
           | (Raise e, w') => if cls e then h e w' else (Raise e, w')
           | r => r
           end.

Notation "'do' x <- m ; k" := (bind m (fun x => k))
  (at level 10, x name, m at level 100, k at level 200).
Notation "'run' m ; k" := (bind m (fun _ => k))
  (at level 10, m at level 100, k at level 200).

Definition is_Exception (e : exn) : bool := true.

Definition is_ValueError (e : exn) : bool :=
  match e with
  | ValueError | UnicodeDecodeError => true
  | _ => false
  end.

Definition add_log (w : world) (l : level) (m : message) : world :=
  {| instances := instances w; sets := sets w;
     logs := logs w ++ [(l, m)]; renames := renames w |}.

Definition add_rename (w : world) (src dst : str) : world :=
  {| instances := instances w; sets := sets w; logs := logs w;
     renames := renames w ++ [(src, dst)] |}.

(** [logging.debug], [logging.info], [logging.error] and
    [logging.exception] (which logs at level ERROR). *)
Definition logging (l : level) (m : message) : M unit :=
  fun w => (Ok tt, add_log w l m).

Fixpoint mapM {A B} (f : A -> result B) (l : list A) : result (list B) :=
  match l with
  | [] => Ok []
  | a :: t => rbind (f a) (fun x => rbind (mapM f t) (fun xs => Ok (x :: xs)))
  end.

(** *** os.path.split, os.path.join, os.rename *)

Definition SEP : N := 47.

(** [head] is the path up to and including its last separator; the
    separators that end it are dropped unless it has nothing else. *)
Definition path_split (p : str) : str * str :=
  let head := rev (lstrip (fun c => negb (c =? SEP)) (rev p)) in
  let tail := skipn (length head) p in
  if forallb (fun c => c =? SEP) head then (head, tail)
  else (rev (lstrip (fun c => c =? SEP) (rev head)), tail).

Definition path_join (a c : str) : str :=
  match c with
  | x :: _ => if x =? SEP then c
              else match last a with
                   | None => c
                   | Some y => if y =? SEP then a ++ c else a ++ SEP :: c
                   end
  | [] => match last a with
          | None => a
          | Some y => if y =? SEP then a else a ++ [SEP]
          end
  end.

Definition os_rename (src dst : str) : M unit :=
  fun w => (Ok tt, add_rename w src dst).

Definition dotted (path : str) : str :=
  let '(head, fn) := path_split path in
  path_join head (u "." ++ fn).

Definition dot_rename (path : str) : M unit :=
  os_rename path (dotted path).

(** The parts of the world that only the store and the renames touch. *)
Definition same_store (w w' : world) : Prop :=
  instances w' = instances w /\ sets w' = sets w /\ renames w' = renames w.

Section WithRuntime.
Variable E : env.
Variable MC : memcache.

(** *** MemcachedConnectionPool.get_client *)
Definition get_client (memc_addr : str) : M client :=
  fun w =>
    match instances w !! memc_addr with
    | Some c => (Ok c, w)
    | None =>
      match init_fault MC memc_addr with
      | Some e => (Raise e, w)
      | None =>
        let c := Client [memc_addr] in
        (Ok c, {| instances := <[memc_addr := c]> (instances w);
                  sets := sets w; logs := logs w;
                  renames := renames w |})
      end
    end.

(** [memc.set(key, packed)] *)
Definition memc_set (memc : client) (key : str) (packed : bytes)
  : M unit :=
  fun w =>
    let w' := {| instances := instances w;
                 sets := sets w ++ [(memc, key, packed)];
                 logs := logs w; renames := renames w |} in
    match set_fault MC (length (sets w)) memc key packed with
    | Some e => (Raise e, w')
    | None => (Ok tt, w')
    end.

Definition store_key (a : AppsInstalled) : str :=
  dev_type a ++ u ":" ++ dev_id a.

Definition user_apps (a : AppsInstalled) : result UserApps :=
  apps_extend (set_lon (set_lat Pb.empty (lat a)) (lon a)) (apps a).

(** The write of the non-dry branch. *)
Definition store_write (memc_addr key : str) (packed : bytes) : M unit :=
  do memc <- get_client memc_addr;
  memc_set memc key packed.

(** *** insert_appsinstalled *)
Definition insert_appsinstalled
  (memc_addr : str) (appsinstalled : AppsInstalled) (dry_run : bool)
  : M bool :=
  do ua <- lift (user_apps appsinstalled);
  let key := store_key appsinstalled in
  let packed := SerializeToString ua in
  try_except
    (run (if dry_run
          then logging DEBUG (DryRunWrite memc_addr key ua)
          else store_write memc_addr key packed);
     ret true)
    is_Exception
    (fun e =>
       run logging ERROR (CannotWrite memc_addr e);
       ret false).

(** *** parse_appsinstalled *)
Definition parse_apps (raw_apps : str) (line : str) : M (list Z) :=
  try_except
    (lift (mapM (fun a => py_int E (str_strip a)) (split COMMA raw_apps)))
    is_ValueError
    (fun _ =>
       do apps <- lift (mapM (fun a => py_int E (str_strip a))
                             (List.filter (fun a => isdigit E a)
                                     (split COMMA raw_apps)));
       run logging INFO (NotAllDigits line);
       ret apps).

Definition parse_geo (lat lon : str) : result (float * float) :=
  rbind (py_float E lat) (fun x =>
  rbind (py_float E lon) (fun y => Ok (x, y))).

Definition parse_appsinstalled (line : bytes)
  : M (option AppsInstalled) :=
  do line <- lift (decode_utf8 line);
  let line := str_strip line in
  let line_parts := split TAB line in
  if (length line_parts <? 5)%nat then ret None
  else
    match line_parts with
    | [dev_type; dev_id; lat; lon; raw_apps] =>
      if bool_decide (dev_type = []) || bool_decide (dev_id = [])
      then ret None
      else
        do apps <- parse_apps raw_apps line;
        try_except
          (do geo <- lift (parse_geo lat lon);
           ret (Some {| dev_type := dev_type; dev_id := dev_id;
                        lat := fst geo; lon := snd geo; apps := apps |}))
          is_ValueError
          (fun _ =>
             run logging INFO (InvalidGeo line);
             ret None)
    | _ => lift (Raise ValueError)
    end.

(** *** line_worker *)

Definition device_memc (o : options) : gmap str str :=
  <[u "idfa" := idfa o]> (<[u "gaid" := gaid o]>
    (<[u "adid" := adid o]> (<[u "dvid" := dvid o]> ∅))).

(** [if not memc_addr]: an absent key gives None, and an empty
    address is false as well. *)
Definition route (o : options) (dev_type : str) : option str :=
  match device_memc o !! dev_type with
  | Some [] => None
  | r => r
  end.

Definition add_processed (st : stats) : stats :=
  {| processed := S (processed st); errors := errors st |}.

Definition add_error (st : stats) : stats :=
  {| processed := processed st; errors := S (errors st) |}.

(** What [line_queue.get(timeout=1)] gives: queue.Empty after the
    timeout, or an item, None being the close signal. *)
Inductive got :=
| Empty
| Item (line : option bytes).

Inductive flow := Continue | Break.

(** One turn of the [while True] loop. *)
Definition line_worker_turn (o : options) (g : got) (st : stats)
  : M (flow * stats) :=
  match g with
  | Empty => ret (Break, st)
  | Item None => ret (Break, st)
  | Item (Some line) =>
    do appsinstalled <- parse_appsinstalled line;
    match appsinstalled with
    | None => ret (Continue, add_error st)
    | Some a =>
      match route o (dev_type a) with
      | None =>
        run logging ERROR (UnknownDeviceType (dev_type a));
        ret (Continue, add_error st)
      | Some memc_addr =>
        do ok <- insert_appsinstalled memc_addr a (dry o);
        ret (Continue, if ok then add_processed st else add_error st)
      end
    end
  end.

(** The whole loop of one worker, given what its successive [get]
    calls return; when the list runs out the next [get] times out. *)
Fixpoint line_worker (o : options) (gets : list got) (st : stats)
  : M stats :=
  match gets with
  | [] => ret st
  | g :: rest =>
    do r <- line_worker_turn o g st;
    match fst r with
    | Break => ret (snd r)
    | Continue => line_worker o rest (snd r)
    end
  end.

(** The part of a turn between [get] and the tally: which counter
    the line goes to. *)
Inductive counter := Processed | Errors.

Definition line_outcome (o : options) (line : bytes) : M counter :=
  do appsinstalled <- parse_appsinstalled line;
  match appsinstalled with
  | None => ret Errors
  | Some a =>
    match route o (dev_type a) with
    | None =>
      run logging ERROR (UnknownDeviceType (dev_type a));
      ret Errors
    | Some memc_addr =>
      do ok <- insert_appsinstalled memc_addr a (dry o);
      ret (if ok then Processed else Errors)
    end
  end.

Definition count (c : counter) (st : stats) : stats :=
  match c with
  | Processed => add_processed st
  | Errors => add_error st
  end.

(** *** prototest *)

Definition sample : list str :=
  [u "idfa" ++ TAB :: u "1rfw452y52g2gq4g" ++ TAB :: u "55.55"
   ++ TAB :: u "42.42" ++ TAB :: u "1423,43,567,3,7,23";
   u "gaid" ++ TAB :: u "7rfw452y52g2gq4g" ++ TAB :: u "55.55"
   ++ TAB :: u "42.42" ++ TAB :: u "7423,424"].

(** The body of the loop of prototest; its [assert] raises
    AssertionError. *)
Definition prototest_line (line : str) : result unit :=
  match split TAB (str_strip line) with
  | [dev_type; dev_id; lat; lon; raw_apps] =>
    rbind (mapM (py_int E)
                (List.filter (fun a => isdigit E a) (split COMMA raw_apps)))
      (fun apps =>
    rbind (parse_geo lat lon) (fun geo =>
    rbind (apps_extend (set_lon (set_lat Pb.empty (fst geo)) (snd geo)) apps)
      (fun ua =>
    let packed := SerializeToString ua in
    match ParseFromString packed with
    | Some unpacked =>
      if message_eq ua unpacked then Ok tt else Raise AssertionError
    | None => Raise DecodeError
    end)))
  | _ => Raise ValueError
  end.

Definition prototest : result unit :=
  rbind (mapM prototest_line sample) (fun _ => Ok tt).

(** *** process_file *)

(** The lines the producer puts on the queue: stripped, non-empty. *)
Definition fed_lines (raw : list bytes) : list bytes :=
  List.filter (fun l => negb (bool_decide (l = []))) (map bytes_strip raw).

(** [future.result()] for each worker in turn. *)
Fixpoint collect_results (futures : list (result unit)) : result unit :=
  match futures with
  | [] => Ok tt
  | Ok _ :: t => collect_results t
  | Raise e :: _ => Raise e
  end.

(** The end of process_file, once the pool is shut down. *)
Definition process_file_verdict (filename : str) (st : stats) : M bool :=
  if (processed st =? 0)%nat then
    run dot_rename filename;
    ret true
  else
    do e <- lift (float_of_int (Z.of_nat (errors st)));
    do p <- lift (float_of_int (Z.of_nat (processed st)));
    do err_rate <- lift (float_truediv e p);
    run (if float_lt err_rate NORMAL_ERR_RATE
         then logging INFO (AcceptableRate err_rate)
         else logging ERROR (HighRate err_rate));
    run dot_rename filename;
    ret true.

End WithRuntime.

(** *** What the runs of the loader are measured with *)

(** The cache maps every address to the client built for it. *)
Definition well_keyed (w : world) : Prop :=
  forall addr c, instances w !! addr = Some c -> c = Client [addr].

(** The cache only grows. *)
Definition cache_kept (w w' : world) : Prop :=
  forall addr c, instances w !! addr = Some c -> instances w' !! addr = Some c.

Definition clients_kept (w w' : world) : Prop :=
  cache_kept w w' /\ (well_keyed w -> well_keyed w')
  /\ renames w' = renames w.

(** The lines a worker is handed before its loop ends. *)
Fixpoint lines_handled (gets : list got) : nat :=
  match gets with
  | Item (Some _) :: rest => S (lines_handled rest)
  | _ => O
  end.

Definition has_colon (s : str) : bool := existsb (fun c => c =? 58) s.

End Loader.

(** ** The thread pool of process_file *)
Module Pool.
Import Py Loader.

(** [queue.Queue(maxsize=10000)] *)
Definition MAXSIZE : N := 10000.

(** What is read from the gzip file before the loop over it ends:
    the raw lines, and the exception that ended it, if any. *)
Record gzfile := {
  content : list bytes;
  failure : option exn
}.

(** Where a worker thread stands in [line_worker]. *)
Inductive thread :=
| Getting
| Holding (line : bytes)
| Waiting (c : counter)
| Locked (c : counter)
| Loaded (c : counter) (v : nat)
| Stopped
| TimedOut
| Failed (e : exn).

(** The state shared by the producer (the thread that runs
    process_file) and the workers.  [lock] is [stats['lock']]. *)
Record pool := {
  todo : list bytes;
  broken : option exn;
  closes : nat;
  queue : list (option bytes);
  tally : stats;
  lock : bool;
  threads : list thread;
  outside : world
}.

Definition load (c : counter) (st : stats) : nat :=
  match c with
  | Processed => processed st
  | Errors => errors st
  end.

Definition store (c : counter) (v : nat) (st : stats) : stats :=
  match c with
  | Processed => {| processed := v; errors := errors st |}
  | Errors => {| processed := processed st; errors := v |}
  end.

Definition with_threads (p : pool) (ts : list thread) : pool :=
  {| todo := todo p; broken := broken p; closes := closes p;
     queue := queue p; tally := tally p; lock := lock p;
     threads := ts; outside := outside p |}.

Definition with_queue (p : pool) (q : list (option bytes)) : pool :=
  {| todo := todo p; broken := broken p; closes := closes p;
     queue := q; tally := tally p; lock := lock p;
     threads := threads p; outside := outside p |}.

Section WithRuntime.
Variable E : env.
Variable MC : memcache.
Variable o : options.
Variable filename : str.

(** The pool when the workers have been submitted. *)
Definition start (f : gzfile) (w : world) : pool :=
  {| todo := fed_lines (content f); broken := failure f;
     closes := workers o; queue := [];
     tally := {| processed := 0; errors := 0 |}; lock := false;
     threads := replicate (workers o) Getting; outside := w |}.

(** One atomic action of one thread.  A [put] waits while the
    queue is full; a [get] that finds the queue empty for a second
    raises queue.Empty; [stats[c] += 1] is a read followed by a
    write, both inside the [with] block. *)
Inductive step : pool -> pool -> Prop :=
| put_line p l ls :
    todo p = l :: ls ->
    N.of_nat (length (queue p)) < MAXSIZE ->
    step p {| todo := ls; broken := broken p; closes := closes p;
              queue := queue p ++ [Some l]; tally := tally p;
              lock := lock p; threads := threads p;
              outside := outside p |}
| read_error p e :
    todo p = [] ->
    broken p = Some e ->
    step p {| todo := []; broken := None; closes := closes p;
              queue := queue p; tally := tally p; lock := lock p;
              threads := threads p;
              outside := add_log (outside p) ERROR
                                 (ErrorReading filename e) |}
| put_close p k :
    todo p = [] ->
    broken p = None ->
    closes p = S k ->
    N.of_nat (length (queue p)) < MAXSIZE ->
    step p {| todo := []; broken := None; closes := k;
              queue := queue p ++ [None]; tally := tally p;
              lock := lock p; threads := threads p;
              outside := outside p |}
| get_line p i l q :
    threads p !! i = Some Getting ->
    queue p = Some l :: q ->
    step p (with_queue (with_threads p (<[i := Holding l]> (threads p))) q)
| get_close p i q :
    threads p !! i = Some Getting ->
    queue p = None :: q ->
    step p (with_queue (with_threads p (<[i := Stopped]> (threads p))) q)
| get_timeout p i :
    threads p !! i = Some Getting ->
    queue p = [] ->
    step p (with_threads p (<[i := TimedOut]> (threads p)))
| work p i l c w' :
    threads p !! i = Some (Holding l) ->
    line_outcome E MC o l (outside p) = (Ok c, w') ->
    step p {| todo := todo p; broken := broken p; closes := closes p;
              queue := queue p; tally := tally p; lock := lock p;
              threads := <[i := Waiting c]> (threads p);
              outside := w' |}
| work_raises p i l e w' :
    threads p !! i = Some (Holding l) ->
    line_outcome E MC o l (outside p) = (Raise e, w') ->
    step p {| todo := todo p; broken := broken p; closes := closes p;
              queue := queue p; tally := tally p; lock := lock p;
              threads := <[i := Failed e]> (threads p);
              outside := w' |}
| acquire p i c :
    threads p !! i = Some (Waiting c) ->
    lock p = false ->
    step p {| todo := todo p; broken := broken p; closes := closes p;
              queue := queue p; tally := tally p; lock := true;
              threads := <[i := Locked c]> (threads p);
              outside := outside p |}
| read_counter p i c :
    threads p !! i = Some (Locked c) ->
    step p (with_threads p (<[i := Loaded c (load c (tally p))]>
                              (threads p)))
| write_counter p i c v :
    threads p !! i = Some (Loaded c v) ->
    step p {| todo := todo p; broken := broken p; closes := closes p;
              queue := queue p; tally := store c (S v) (tally p);
              lock := false;
              threads := <[i := Getting]> (threads p);
              outside := outside p |}.

Inductive steps : pool -> pool -> Prop :=
| steps_refl p : steps p p
| steps_step p q r : steps p q -> step q r -> steps p r.

Definition returned (t : thread) : bool :=
  match t with
  | Stopped | TimedOut | Failed _ => true
  | _ => false
  end.

(** Every worker has returned and the producer has put all it had. *)
Definition finished (p : pool) : Prop :=
  todo p = [] /\ broken p = None /\ closes p = O
  /\ forallb returned (threads p) = true.

Definition future (t : thread) : result unit :=
  match t with
  | Failed e => Raise e
  | _ => Ok tt
  end.

(** process_file on [filename], whose gzip stream is [f]: a complete
    run of the pool, then the workers' results are collected and the
    verdict is given.  ThreadPoolExecutor refuses a pool without
    workers. *)
Inductive process_file (f : gzfile) (w : world)
  : result bool -> world -> Prop :=
| process_file_no_worker :
    workers o = O ->
    process_file f w (Raise ValueError) w
| process_file_run p r w' :
    workers o <> O ->
    steps (start f w) p ->
    finished p ->
    (run lift (collect_results (map future (threads p)));
     process_file_verdict filename (tally p)) (outside p) = (r, w') ->
    process_file f w r w'.

End WithRuntime.

(** *** Where the lines are *)

(** A thread that took a line off the queue and has not counted it yet. *)
Definition inflight (t : thread) : nat :=
  match t with
  | Holding _ | Waiting _ | Locked _ | Loaded _ _ => 1
  | _ => 0
  end.

(** A thread that died with its line. *)
Definition lost (t : thread) : nat :=
  match t with
  | Failed _ => 1
  | _ => 0
  end.

(** A thread inside the [with stats['lock']] block. *)
Definition holds_lock (t : thread) : nat :=
  match t with
  | Locked _ | Loaded _ _ => 1
  | _ => 0
  end.

Definition sum_over (f : thread -> nat) (ts : list thread) : nat :=
  list_sum (map f ts).

Definition queued_lines (q : list (option bytes)) : nat :=
  list_sum (map (fun x => match x with Some _ => 1 | None => 0 end)%nat q).

(** The value a thread read from a counter is still the counter's. *)
Definition fresh_read (st : stats) (t : thread) : Prop :=
  match t with
  | Loaded c v => v = load c st
  | _ => True
  end.

(** What every interleaving preserves, [n] being the number of lines
    fed. *)
Record invariant (o : options) (n : nat) (p : pool) : Prop := {
  inv_count :
    (processed (tally p) + errors (tally p) + sum_over inflight (threads p)
     + sum_over lost (threads p) + queued_lines (queue p) + length (todo p)
     = n)%nat;
  inv_lock :
    sum_over holds_lock (threads p) = if lock p then 1%nat else 0%nat;
  inv_read : Forall (fresh_read (tally p)) (threads p);
  inv_order :
    exists ls k, queue p = map Some ls ++ replicate k None
                 /\ (k <> O -> todo p = []);
  inv_closed :
    In Stopped (threads p) -> todo p = [] /\ queued_lines (queue p) = O;
  inv_size : length (threads p) = workers o
}.

(** *** Close signals *)

Definition queued_closes (q : list (option bytes)) : nat :=
  list_sum (map (fun x => match x with None => 1 | Some _ => 0 end)%nat q).

Definition stopped (t : thread) : nat :=
  match t with
  | Stopped => 1
  | _ => 0
  end.

(** A thread that left the loop without a close signal. *)
Definition gave_up (t : thread) : nat :=
  match t with
  | TimedOut | Failed _ => 1
  | _ => 0
  end.

(** *** main *)

Section Main.
Variable E : env.
Variable MC : memcache.
Variable o : options.

(** [main] runs process_file on the files the pattern matches, in the
    order glob gives them; [files] pairs each name with its gzip
    stream.  An exception of process_file ends the loop. *)
Inductive main : list (str * gzfile) -> world -> result unit -> world -> Prop :=
| main_end w :
    main [] w (Ok tt) w
| main_next fn f rest w ok w1 r w2 :
    process_file E MC o fn f w (Ok ok) w1 ->
    main rest w1 r w2 ->
    main ((fn, f) :: rest) w r w2
| main_raises fn f rest w e w1 :
    process_file E MC o fn f w (Raise e) w1 ->
    main ((fn, f) :: rest) w (Raise e) w1.

End Main.

(** *** What is left to do when there is no line *)

Definition getting (t : thread) : nat :=
  match t with
  | Getting => 1
  | _ => 0
  end.

(** The actions still to come on a file without lines: the log of the
    reader's error, the close signals to put, the gets to return. *)
Definition pending (p : pool) : nat :=
  (match broken p with Some _ => 1 | None => 0 end)
  + closes p + sum_over getting (threads p).

End Pool.

(** ** Sample data: the defaults of the option parser and the lines the
    specification quotes *)
Module Samples.
Import Py Loader Pool.
Local Open Scope string_scope.

(** Fields joined by tabs, as a raw line. *)
Definition tsv (fields : list string) : bytes :=
  match fields with
  | [] => []
  | f :: rest => (b f ++ flat_map (fun x => x09 :: b x) rest)%list
  end.

Definition default_options : options :=
  {| dry := false;
     pattern := u "/data/appsinstalled/*.tsv.gz";
     idfa := u "127.0.0.1:33013";
     gaid := u "127.0.0.1:33014";
     adid := u "127.0.0.1:33015";
     dvid := u "127.0.0.1:33016";
     workers := 8 |}.

Definition one_worker : options :=
  {| dry := dry default_options; pattern := pattern default_options;
     idfa := idfa default_options; gaid := gaid default_options;
     adid := adid default_options; dvid := dvid default_options;
     workers := 1 |}.

(** A memcached that answers every request. *)
Definition healthy : memcache :=
  {| init_fault := fun _ => None; set_fault := fun _ _ _ _ => None |}.

(** A memcached whose every [set] fails. *)
Definition unreachable : memcache :=
  {| init_fault := fun _ => None;
     set_fault := fun _ _ _ _ => Some (StoreError 111) |}.

Definition fresh : stats := {| processed := 0; errors := 0 |}.

Definition mixed_line : bytes :=
  tsv ["idfa"; "X1"; "55.55"; "42.42"; "10,abc,30"].

Definition mixed_line_bad_geo : bytes :=
  tsv ["idfa"; "X1"; "north"; "42.42"; "10,abc,30"].

Definition unknown_line : bytes :=
  tsv ["unknown"; "X1"; "1.0"; "2.0"; "1,2"].

Definition short_line : bytes := tsv ["idfa"; "X1"; "55.55"; "42.42"].

Definition long_line : bytes :=
  tsv ["idfa"; "X1"; "55.55"; "42.42"; "1,2"; "extra"].

Definition good_line : bytes :=
  tsv ["gaid"; "7rfw452y52g2gq4g"; "55.55"; "42.42"; "7423,424"].

Definition undecodable_line : bytes := [xff].

Definition sample_name : str := u "/data/appsinstalled/sample.tsv.gz".

(** A gzip file of one line. *)
Definition one_line_file : gzfile :=
  {| content := [(good_line ++ [x0a])%list]; failure := None |}.

Definition dry_options : options :=
  {| dry := true; pattern := pattern default_options;
     idfa := idfa default_options; gaid := gaid default_options;
     adid := adid default_options; dvid := dvid default_options;
     workers := workers default_options |}.

(** The record of [good_line]. *)
Definition good_record : AppsInstalled :=
  {| dev_type := u "gaid"; dev_id := u "7rfw452y52g2gq4g";
     lat := float_of_decimal false 5555 (-2);
     lon := float_of_decimal false 4242 (-2);
     apps := [7423; 424]%Z |}.

(** Apps with blanks, a sign and an underscore; coordinates without a
    leading digit and with an exponent. *)
Definition signed_line : bytes :=
  tsv ["adid"; "d-1"; "-.5"; "1e3"; " 7,-3 ,1_2"].

(** The last app is a superscript two (U+00B2, in UTF-8 C2 B2). *)
Definition superscript_line : bytes :=
  (tsv ["idfa"; "X1"; "55.55"; "42.42"; "10,abc,"] ++ [xc2; xb2])%list.

(** A file of one line with six fields. *)
Definition long_line_file : gzfile :=
  {| content := [long_line]; failure := None |}.

(** A file of 10000 lines. *)
Definition big_file : gzfile :=
  {| content := replicate (N.to_nat 10000) good_line; failure := None |}.

(** A file of blank lines. *)
Definition blank_file : gzfile :=
  {| content := [[x0a]; [x20; x09; x0a]]; failure := None |}.

(** Lines without a device id, of five and of six fields, and a line of
    two fields of which the second is not UTF-8. *)
Definition five_fields_no_id : bytes :=
  tsv ["idfa"; ""; "55.55"; "42.42"; "1,2"].

Definition six_fields_no_id : bytes :=
  tsv ["idfa"; ""; "55.55"; "42.42"; "1,2"; "extra"].

Definition short_undecodable_line : bytes :=
  (tsv ["idfa"] ++ [x09; xff])%list.

End Samples.

(** * Properties *)

Import Py Pb Loader Pool Samples.

(** ** The monad *)

Lemma bind_ok {A B} (m : M A) (k : A -> M B) w a w' :
  m w = (Ok a, w') -> bind m k w = k a w'.
Proof. intros H. unfold bind. now rewrite H. Qed.

Lemma bind_raise {A B} (m : M A) (k : A -> M B) w e w' :
  m w = (Raise e, w') -> bind m k w = (Raise e, w').
Proof. intros H. unfold bind. now rewrite H. Qed.

Lemma same_store_refl w : same_store w w.
Proof. now repeat split. Qed.

Lemma same_store_trans w1 w2 w3 :
  same_store w1 w2 -> same_store w2 w3 -> same_store w1 w3.
Proof. unfold same_store. intuition congruence. Qed.

Lemma logging_same_store l m w : same_store w (add_log w l m).
Proof. now repeat split. Qed.

Section Parser.
Variable E : env.

Lemma parse_apps_same_store raw line w r w' :
  parse_apps E raw line w = (r, w') -> same_store w w'.
Proof.
  unfold parse_apps, try_except, lift, bind, ret.
  destruct (mapM _ (split COMMA raw)) as [xs|e]; simpl.
  - intros [= <- <-]. apply same_store_refl.
  - destruct (is_ValueError e); [|intros [= <- <-]; apply same_store_refl].
    destruct (mapM _ (List.filter _ _)) as [ys|e']; simpl;
      intros [= <- <-]; [apply logging_same_store | apply same_store_refl].
Qed.

Lemma parse_same_store line w r w' :
  parse_appsinstalled E line w = (r, w') -> same_store w w'.
Proof.
  unfold parse_appsinstalled, bind at 1, lift at 1.
  destruct (decode_utf8 line) as [s|e]; [|intros [= <- <-]; apply same_store_refl].
  destruct (_ <? _)%nat; [intros [= <- <-]; apply same_store_refl|].
  destruct (split TAB (str_strip s)) as [|dt [|di [|la [|lo [|raw [|x xs]]]]]];
    try (intros [= <- <-]; apply same_store_refl).
  destruct (_ || _); [intros [= <- <-]; apply same_store_refl|].
  unfold bind at 1.
  destruct (parse_apps E raw (str_strip s) w) as [[ids|e] w1] eqn:Hp;
    apply parse_apps_same_store in Hp.
  - unfold try_except, bind, lift, ret.
    destruct (parse_geo E la lo) as [g|e]; simpl.
    + intros [= <- <-]. exact Hp.
    + destruct (is_ValueError e); intros [= <- <-]; [|exact Hp].
      eapply same_store_trans; [exact Hp|]. apply logging_same_store.
  - intros [= <- <-]. exact Hp.
Qed.

(** A line that does not decode makes the parser raise. *)
Lemma parse_undecodable line e w :
  decode_utf8 line = Raise e ->
  parse_appsinstalled E line w = (Raise e, w).
Proof.
  intros H. unfold parse_appsinstalled, bind, lift. now rewrite H.
Qed.

Lemma parse_too_short line s w :
  decode_utf8 line = Ok s ->
  (length (split TAB (str_strip s)) < 5)%nat ->
  parse_appsinstalled E line w = (Ok None, w).
Proof.
  intros H Hlen. unfold parse_appsinstalled, bind, lift. rewrite H.
  apply Nat.ltb_lt in Hlen. now rewrite Hlen.
Qed.

Lemma parse_empty_id line s dt di la lo raw w :
  decode_utf8 line = Ok s ->
  split TAB (str_strip s) = [dt; di; la; lo; raw] ->
  dt = [] \/ di = [] ->
  parse_appsinstalled E line w = (Ok None, w).
Proof.
  intros H Hs Hid. unfold parse_appsinstalled, bind, lift. rewrite H, Hs.
  change (length [dt; di; la; lo; raw] <? 5)%nat with false. cbv iota.
  destruct Hid as [-> | ->]; [reflexivity|].
  destruct (bool_decide (dt = [])); reflexivity.
Qed.

Lemma parse_too_long line s w :
  decode_utf8 line = Ok s ->
  (5 < length (split TAB (str_strip s)))%nat ->
  parse_appsinstalled E line w = (Raise ValueError, w).
Proof.
  intros H Hlen. unfold parse_appsinstalled, bind, lift. rewrite H.
  destruct (split TAB (str_strip s)) as [|dt [|di [|la [|lo [|raw [|x xs]]]]]];
    simpl in Hlen; try lia.
  reflexivity.
Qed.

End Parser.

(** ** One turn of the worker loop *)
Section Worker.
Variable E : env.
Variable MC : memcache.
Variable o : options.

Lemma turn_parse_raises line e st w w' :
  parse_appsinstalled E line w = (Raise e, w') ->
  line_worker_turn E MC o (Item (Some line)) st w = (Raise e, w').
Proof. intros H. simpl. now apply bind_raise. Qed.

Lemma turn_no_record line st w w' :
  parse_appsinstalled E line w = (Ok None, w') ->
  line_worker_turn E MC o (Item (Some line)) st w
  = (Ok (Continue, add_error st), w').
Proof. intros H. simpl. now rewrite (bind_ok _ _ _ _ _ H). Qed.

Lemma turn_unrouted line a st w w' :
  parse_appsinstalled E line w = (Ok (Some a), w') ->
  route o (dev_type a) = None ->
  line_worker_turn E MC o (Item (Some line)) st w
  = (Ok (Continue, add_error st),
     add_log w' ERROR (UnknownDeviceType (dev_type a))).
Proof.
  intros H Hr. simpl. rewrite (bind_ok _ _ _ _ _ H), Hr. reflexivity.
Qed.

Lemma turn_routed line a addr ok st w w' w'' :
  parse_appsinstalled E line w = (Ok (Some a), w') ->
  route o (dev_type a) = Some addr ->
  insert_appsinstalled MC addr a (dry o) w' = (Ok ok, w'') ->
  line_worker_turn E MC o (Item (Some line)) st w
  = (Ok (Continue, if ok then add_processed st else add_error st), w'').
Proof.
  intros H Hr Hi. simpl. rewrite (bind_ok _ _ _ _ _ H), Hr.
  now rewrite (bind_ok _ _ _ _ _ Hi).
Qed.

(** A turn that continues hands the rest of the queue to the next. *)
Lemma line_worker_continue g rest st st' w w' :
  line_worker_turn E MC o g st w = (Ok (Continue, st'), w') ->
  line_worker E MC o (g :: rest) st w = line_worker E MC o rest st' w'.
Proof. intros H. simpl. now rewrite (bind_ok _ _ _ _ _ H). Qed.

Lemma line_worker_raises g rest st e w w' :
  line_worker_turn E MC o g st w = (Raise e, w') ->
  line_worker E MC o (g :: rest) st w = (Raise e, w').
Proof. intros H. simpl. now apply bind_raise. Qed.

(** The turn is the outcome of the line followed by the count. *)
Lemma turn_outcome line st w :
  line_worker_turn E MC o (Item (Some line)) st w
  = match line_outcome E MC o line w with
    | (Ok c, w') => (Ok (Continue, count c st), w')
    | (Raise e, w') => (Raise e, w')
    end.
Proof.
  unfold line_worker_turn, line_outcome, bind.
  destruct (parse_appsinstalled E line w) as [[[a|]|e] w']; try reflexivity.
  destruct (route o (dev_type a)) as [addr|]; [|reflexivity].
  destruct (insert_appsinstalled MC addr a (dry o) w') as [[[]|e] w''];
    reflexivity.
Qed.

Lemma route_absent dt : device_memc o !! dt = None -> route o dt = None.
Proof. intros H. unfold route. now rewrite H. Qed.

End Worker.

(** ** The store *)
Section Store.
Variable MC : memcache.

Lemma get_client_sets addr w r w' :
  get_client MC addr w = (r, w') -> sets w' = sets w /\ logs w' = logs w.
Proof.
  unfold get_client. destruct (instances w !! addr).
  - now intros [= <- <-].
  - destruct (init_fault MC addr); now intros [= <- <-].
Qed.

Lemma store_write_once addr key packed w r w' :
  store_write MC addr key packed w = (r, w') ->
  (length (sets w') <= S (length (sets w)))%nat.
Proof.
  unfold store_write, bind.
  destruct (get_client MC addr w) as [[c|e] w1] eqn:Hc;
    apply get_client_sets in Hc as [Hs _].
  - unfold memc_set. destruct (set_fault MC _ c key packed);
      intros [= <- <-]; simpl; rewrite length_app, Hs; simpl; lia.
  - intros [= <- <-]. rewrite Hs. lia.
Qed.

Lemma insert_when_write_raises addr a ua e w w1 :
  user_apps a = Ok ua ->
  store_write MC addr (store_key a) (SerializeToString ua) w = (Raise e, w1) ->
  insert_appsinstalled MC addr a false w
  = (Ok false, add_log w1 ERROR (CannotWrite addr e)).
Proof.
  intros Hu Hw. unfold insert_appsinstalled, bind at 1, lift.
  rewrite Hu. unfold try_except, bind at 1. rewrite Hw. reflexivity.
Qed.

Lemma insert_when_write_returns addr a ua w w1 :
  user_apps a = Ok ua ->
  store_write MC addr (store_key a) (SerializeToString ua) w = (Ok tt, w1) ->
  insert_appsinstalled MC addr a false w = (Ok true, w1).
Proof.
  intros Hu Hw. unfold insert_appsinstalled, bind at 1, lift.
  rewrite Hu. unfold try_except, bind at 1. rewrite Hw. reflexivity.
Qed.

Lemma insert_dry_run addr a ua w :
  user_apps a = Ok ua ->
  insert_appsinstalled MC addr a true w
  = (Ok true, add_log w DEBUG (DryRunWrite addr (store_key a) ua)).
Proof.
  intros Hu. unfold insert_appsinstalled, bind at 1, lift.
  now rewrite Hu.
Qed.

End Store.

(** ** The apps field *)
Section Apps.
Variable E : env.

Lemma py_int_raises s e : py_int E s = Raise e -> e = ValueError.
Proof.
  unfold py_int. destruct (split_sign _) as [neg body].
  destruct (digitpart body) as [ds|]; [|congruence].
  destruct (over_limit E ds); congruence.
Qed.

Lemma mapM_raises {A B} (f : A -> result B) l a e :
  In a l -> f a = Raise e ->
  exists a' e', In a' l /\ f a' = Raise e' /\ mapM f l = Raise e'.
Proof.
  induction l as [|x l IH]; [intros []|].
  intros Hin Hf. simpl. destruct (f x) as [y|e'] eqn:Hx.
  - destruct Hin as [-> | Hin]; [congruence|].
    destruct (IH Hin Hf) as (a' & e' & Ha' & Hf' & Hm).
    exists a', e'. rewrite Hm. auto.
  - exists x, e'. auto.
Qed.

Lemma mapM_returns {A B} (f : A -> result B) l :
  (forall a, In a l -> exists y, f a = Ok y) ->
  exists ys, mapM f l = Ok ys /\ Forall2 (fun a y => f a = Ok y) l ys.
Proof.
  induction l as [|x l IH]; intros H.
  - exists []. split; [reflexivity | constructor].
  - destruct (H x) as [y Hy]; [now left|].
    destruct IH as (ys & Hm & HF); [intros a Ha; apply H; now right|].
    exists (y :: ys). simpl. rewrite Hy, Hm. split; [reflexivity|].
    now constructor.
Qed.

(** The fallback of the apps field: when some element is not an integer
    literal, the elements [isdigit] accepts are converted instead. *)
Lemma parse_apps_fallback raw line w :
  (exists a, In a (split COMMA raw) /\ py_int E (str_strip a) = Raise ValueError) ->
  (forall a, In a (split COMMA raw) -> isdigit E a = true ->
             exists z, py_int E (str_strip a) = Ok z) ->
  exists ids,
    Forall2 (fun a z => py_int E (str_strip a) = Ok z)
            (List.filter (fun a => isdigit E a) (split COMMA raw)) ids
    /\ parse_apps E raw line w = (Ok ids, add_log w INFO (NotAllDigits line)).
Proof.
  intros (a & Hin & Hbad) Hnum.
  destruct (mapM_raises (fun a => py_int E (str_strip a)) _ a _ Hin Hbad)
    as (a' & e' & _ & He' & Hm).
  apply py_int_raises in He' as ->.
  destruct (mapM_returns (fun a => py_int E (str_strip a))
              (List.filter (fun a => isdigit E a) (split COMMA raw)))
    as (ids & Hids & HF).
  { intros x Hx. apply filter_In in Hx as [Hx Hd]. now apply Hnum. }
  exists ids. split; [exact HF|].
  unfold parse_apps, try_except, lift. rewrite Hm. simpl.
  unfold bind. now rewrite Hids.
Qed.

End Apps.

(** ** The wire format *)

Ltac euclid := zify; Z.to_euclidean_division_equations; lia.

Lemma of_le_to_le k n : of_le (to_le k n) = n mod 256 ^ N.of_nat k.
Proof.
  revert n. induction k as [|k IH]; intros n.
  - simpl. now rewrite N.mod_1_r.
  - cbn [to_le of_le]. rewrite IH, Nat2N.inj_succ, N.pow_succ_r'.
    rewrite (N.Div0.mod_mul_r n 256). lia.
Qed.

Lemma to_le_octets k n : Forall (fun x => x < 256) (to_le k n).
Proof.
  revert n. induction k as [|k IH]; intros n; constructor; [|apply IH].
  apply N.mod_lt. lia.
Qed.

Lemma to_le_length k n : length (to_le k n) = k.
Proof. revert n. induction k as [|k IH]; intros n; simpl; [|rewrite IH]; reflexivity. Qed.

Lemma unvarint_varint fuel n rest :
  fuel <> O ->
  n < 128 ^ N.of_nat fuel ->
  unvarint fuel (varint fuel n ++ rest) = Some (n, rest).
Proof.
  revert n. induction fuel as [|k IH]; intros n Hf Hn; [congruence|].
  assert (Hk : 128 <= n -> k <> O).
  { intros Hge ->. simpl in Hn. lia. }
  clear Hf. cbn [varint]. destruct (n <? 128) eqn:Hlt.
    + simpl. now rewrite Hlt.
    + apply N.ltb_ge in Hlt. cbn [app unvarint].
      assert (Hb : (128 + n mod 128 <? 128) = false) by (apply N.ltb_ge; apply N.le_add_r).
      rewrite Hb.
      rewrite IH; [| now apply Hk |].
      * f_equal. f_equal. euclid.
      * rewrite Nat2N.inj_succ, N.pow_succ_r' in Hn.
        apply N.Div0.div_lt_upper_bound. lia.
Qed.

Lemma varint_octets fuel n : Forall (fun x => x < 256) (varint fuel n).
Proof.
  revert n. induction fuel as [|k IH]; intros n; [constructor|].
  cbn [varint]. destruct (n <? 128) eqn:Hlt.
  - apply N.ltb_lt in Hlt. repeat constructor. lia.
  - constructor; [|apply IH]. pose proof (N.mod_lt n 128). lia.
Qed.

Lemma s64_u64 z : in_int64 z = true -> s64 (u64 z) = z.
Proof.
  unfold in_int64, s64, u64. intros H.
  apply andb_true_iff in H as [H1 H2].
  apply Z.leb_le in H1. apply Z.ltb_lt in H2.
  destruct (_ <? _) eqn:Hlt;
    [apply N.ltb_lt in Hlt | apply N.ltb_ge in Hlt]; euclid.
Qed.

Lemma u64_bound z : u64 z < 128 ^ 10.
Proof.
  unfold u64. pose proof (Z.mod_pos_bound z (2 ^ 64)). lia.
Qed.

(** ** Doubles and their 64 bits *)

Lemma digits2_pos_bounds m :
  (2 ^ (Zpos (digits2_pos m) - 1) <= Zpos m < 2 ^ Zpos (digits2_pos m))%Z.
Proof.
  induction m as [m IH|m IH|]; cbn [digits2_pos].
  - rewrite Pos2Z.inj_succ, Z.pow_succ_r by lia.
    replace (Z.succ (Zpos (digits2_pos m)) - 1)%Z
      with (Z.succ (Zpos (digits2_pos m) - 1)) by lia.
    rewrite Z.pow_succ_r by lia. lia.
  - rewrite Pos2Z.inj_succ, Z.pow_succ_r by lia.
    replace (Z.succ (Zpos (digits2_pos m)) - 1)%Z
      with (Z.succ (Zpos (digits2_pos m) - 1)) by lia.
    rewrite Z.pow_succ_r by lia. lia.
  - simpl. lia.
Qed.

(** A finite double is either subnormal, with exponent -1074 and a
    mantissa below 2^52, or normal, with a mantissa of 53 bits. *)
Lemma bounded_cases m e :
  bounded prec emax m e = true ->
  (Zpos m < 2 ^ 52 /\ e = -1074)%Z
  \/ (2 ^ 52 <= Zpos m < 2 ^ 53 /\ -1074 <= e <= 971)%Z.
Proof.
  unfold bounded, canonical_mantissa, fexp, emin, prec, emax.
  intros H. apply andb_true_iff in H as [H1 H2].
  apply Z.eqb_eq in H1. apply Z.leb_le in H2.
  pose proof (digits2_pos_bounds m) as [Hlo Hhi].
  set (d := Zpos (digits2_pos m)) in *.
  assert (Hd : (0 < d)%Z) by (unfold d; lia).
  destruct (Z_lt_le_dec d 53) as [Hlt|Hge].
  - left. split; [|lia].
    apply Z.lt_le_trans with (1 := Hhi). apply Z.pow_le_mono_r; lia.
  - right. assert (d = 53)%Z as Hd53 by lia. rewrite Hd53 in *.
    change (53 - 1)%Z with 52%Z in Hlo. lia.
Qed.

Lemma bits_fields s e m :
  e < 2048 -> m < 2 ^ 52 ->
  let n := sign_bit s + e * 2 ^ 52 + m in
  (2 ^ 63 <=? n) = s /\ (n / 2 ^ 52) mod 2048 = e /\ n mod 2 ^ 52 = m
  /\ n < 2 ^ 64.
Proof.
  intros He Hm n. subst n. unfold sign_bit.
  change (2 ^ 63) with 9223372036854775808.
  change (2 ^ 64) with 18446744073709551616.
  change (2 ^ 52) with 4503599627370496 in *.
  destruct s.
  - split; [apply N.leb_le; lia|]. repeat split; euclid.
  - split; [apply N.leb_gt; lia|]. repeat split; euclid.
Qed.

Lemma float_bits_bound f :
  valid_binary prec emax f = true -> float_bits f < 2 ^ 64.
Proof.
  destruct f as [s|s| |s m e]; cbn [valid_binary float_bits].
  - intros _. destruct s; reflexivity.
  - intros _. destruct s; reflexivity.
  - intros _. reflexivity.
  - intros Hb. destruct (bounded_cases m e Hb) as [[Hm He]|[Hm He]].
    + replace (Npos m <? 2 ^ 52) with true by (symmetry; apply N.ltb_lt; lia).
      pose proof (bits_fields s 0 (Npos m)) as H. cbn zeta in H.
      rewrite N.mul_0_l, N.add_0_r in H. apply H; lia.
    + replace (Npos m <? 2 ^ 52) with false by (symmetry; apply N.ltb_ge; lia).
      rewrite <- N.add_assoc.
      rewrite N.add_assoc.
      apply (bits_fields s (Z.to_N (e + 1075)) (Npos m - 2 ^ 52)); lia.
Qed.

Lemma bits_float_bits f :
  valid_binary prec emax f = true -> bits_float (float_bits f) = f.
Proof.
  destruct f as [s|s| |s m e]; cbn [valid_binary float_bits].
  - intros _. destruct s; reflexivity.
  - intros _. destruct s; reflexivity.
  - intros _. reflexivity.
  - intros Hb. destruct (bounded_cases m e Hb) as [[Hm He]|[Hm He]].
    + replace (Npos m <? 2 ^ 52) with true by (symmetry; apply N.ltb_lt; lia).
      pose proof (bits_fields s 0 (Npos m)) as H. cbn zeta in H.
      rewrite N.mul_0_l, N.add_0_r in H.
      destruct H as (Hs & He' & Hm' & _); [lia | lia |].
      unfold bits_float. rewrite Hs, He', Hm'. simpl. now subst e.
    + replace (Npos m <? 2 ^ 52) with false by (symmetry; apply N.ltb_ge; lia).
      destruct (bits_fields s (Z.to_N (e + 1075)) (Npos m - 2 ^ 52))
        as (Hs & He' & Hm' & _); [lia | lia |].
      unfold bits_float. rewrite Hs, He', Hm'.
      replace (Z.to_N (e + 1075) =? 0) with false by (symmetry; apply N.eqb_neq; lia).
      replace (Z.to_N (e + 1075) =? 2047) with false by (symmetry; apply N.eqb_neq; lia).
      replace (Npos m - 2 ^ 52 + 2 ^ 52) with (Npos m) by lia.
      f_equal. lia.
Qed.

(** ** Decoding what was encoded *)

Lemma decode_fields_lat k t acc :
  decode_fields (S k) (TAG_LAT :: t) acc
  = if (8 <=? length t)%nat
    then decode_fields k (skipn 8 t)
           (set_lat acc (bits_float (of_le (firstn 8 t))))
    else None.
Proof. reflexivity. Qed.

Lemma decode_fields_lon k t acc :
  decode_fields (S k) (TAG_LON :: t) acc
  = if (8 <=? length t)%nat
    then decode_fields k (skipn 8 t)
           (set_lon acc (bits_float (of_le (firstn 8 t))))
    else None.
Proof. reflexivity. Qed.

Lemma decode_fields_apps k t acc :
  decode_fields (S k) (TAG_APPS :: t) acc
  = match unvarint 10 t with
    | Some (v, r) =>
      decode_fields k r {| ua_lat := ua_lat acc; ua_lon := ua_lon acc;
                           ua_apps := ua_apps acc ++ [s64 v] |}
    | None => None
    end.
Proof. reflexivity. Qed.

Lemma decode_apps ids : forall acc fuel,
  (length (flat_map app_field ids) <= fuel)%nat ->
  decode_fields fuel (flat_map app_field ids) acc
  = Some {| ua_lat := ua_lat acc; ua_lon := ua_lon acc;
            ua_apps := ua_apps acc ++ map (fun a => s64 (u64 a)) ids |}.
Proof.
  induction ids as [|a ids IH]; intros acc fuel Hlen.
  - destruct acc, fuel; simpl; now rewrite app_nil_r.
  - cbn [flat_map app_field app] in *.
    destruct fuel as [|k]; [simpl in Hlen; lia|].
    rewrite decode_fields_apps.
    rewrite unvarint_varint; [|discriminate | apply u64_bound].
    rewrite IH.
    + cbn [ua_lat ua_lon ua_apps map]. now rewrite <- app_assoc.
    + simpl in Hlen. rewrite length_app in Hlen. lia.
Qed.

Lemma decode_double x rest (acc : float -> UserApps) k :
  x < 2 ^ 64 ->
  (if (8 <=? length (to_le 8 x ++ rest))%nat
   then decode_fields k (skipn 8 (to_le 8 x ++ rest))
          (acc (bits_float (of_le (firstn 8 (to_le 8 x ++ rest)))))
   else None)
  = decode_fields k rest (acc (bits_float x)).
Proof.
  intros Hx.
  replace (8 <=? length (to_le 8 x ++ rest))%nat with true
    by (symmetry; apply Nat.leb_le; rewrite length_app, to_le_length; lia).
  rewrite (skipn_app 8), (firstn_app 8), to_le_length.
  rewrite skipn_all2 by (rewrite to_le_length; lia).
  rewrite firstn_all2 by (rewrite to_le_length; lia).
  change (8 - 8)%nat with O. cbn [firstn skipn app]. rewrite app_nil_r.
  rewrite of_le_to_le. change (256 ^ N.of_nat 8) with (2 ^ 64).
  now rewrite N.mod_small.
Qed.

Lemma decode_encode m :
  valid_binary prec emax (ua_lat m) = true ->
  valid_binary prec emax (ua_lon m) = true ->
  forallb in_int64 (ua_apps m) = true ->
  decode (encode m) = Some m.
Proof.
  intros Hlat Hlon Happs. unfold decode.
  assert (Hlen : length (encode m)
                 = S (S (16 + length (flat_map app_field (ua_apps m))))).
  { unfold encode. fold app_field. cbn [length].
    rewrite length_app, to_le_length. cbn [length].
    rewrite length_app, to_le_length. lia. }
  rewrite Hlen. unfold encode. fold app_field.
  rewrite decode_fields_lat.
  rewrite (decode_double _ _ (set_lat Pb.empty))
    by now apply float_bits_bound.
  rewrite decode_fields_lon.
  rewrite (decode_double _ _ (set_lon _))
    by now apply float_bits_bound.
  rewrite decode_apps by lia.
  rewrite !bits_float_bits by assumption.
  destruct m as [la lo ids]. cbn in *. f_equal. f_equal.
  clear -Happs. induction ids as [|a ids IH]; [reflexivity|].
  simpl in Happs. apply andb_true_iff in Happs as [Ha Hids].
  simpl. now rewrite s64_u64, IH.
Qed.

Lemma octets_back l :
  Forall (fun x => x < 256) l -> map Byte.to_N (map octet l) = l.
Proof.
  induction 1 as [|x l Hx _ IH]; [reflexivity|].
  simpl. rewrite IH. f_equal. unfold octet.
  rewrite N.mod_small by exact Hx.
  destruct (Byte.of_N x) as [y|] eqn:Hy.
  - now apply Byte.to_of_N.
  - apply Byte.of_N_None_iff in Hy. lia.
Qed.

Lemma encode_octets m : Forall (fun x => x < 256) (encode m).
Proof.
  unfold encode. constructor; [reflexivity|].
  apply Forall_app. split; [apply to_le_octets|].
  constructor; [reflexivity|].
  apply Forall_app. split; [apply to_le_octets|].
  induction (ua_apps m) as [|a ids IH]; [constructor|].
  cbn [flat_map]. constructor; [reflexivity|].
  apply Forall_app. split; [apply varint_octets | exact IH].
Qed.

Lemma parse_serialize m :
  valid_binary prec emax (ua_lat m) = true ->
  valid_binary prec emax (ua_lon m) = true ->
  forallb in_int64 (ua_apps m) = true ->
  ParseFromString (SerializeToString m) = Some m.
Proof.
  intros. unfold ParseFromString, SerializeToString.
  rewrite octets_back by apply encode_octets. now apply decode_encode.
Qed.

Lemma float_eq_refl f : is_finite f = true -> float_eq f f = true.
Proof.
  destruct f as [s|s| |s m e]; try discriminate; intros _.
  - reflexivity.
  - unfold float_eq, SFeqb, SFcompare.
    rewrite Z.compare_refl, Pos.compare_cont_refl. now destruct s.
Qed.

(** ** Rounding an integer to a double *)
Section Rounding.
Local Open Scope Z_scope.

Lemma shr_1_m mrs : 0 <= shr_m mrs -> shr_m (shr_1 mrs) = shr_m mrs / 2.
Proof.
  destruct mrs as [m r s]. cbn [shr_m shr_1]. intros Hm.
  destruct m as [|[p|p|]|p]; cbn [shr_m].
  - reflexivity.
  - rewrite Pos2Z.inj_xI. apply Z.div_unique with 1; lia.
  - rewrite Pos2Z.inj_xO. apply Z.div_unique with 0; lia.
  - reflexivity.
  - lia.
Qed.

Lemma iter_shr_1_m n : forall mrs,
  0 <= shr_m mrs ->
  shr_m (SpecFloat.iter_pos shr_1 n mrs) = shr_m mrs / 2 ^ Zpos n.
Proof.
  assert (Hpow : forall k, 0 < 2 ^ Zpos k)
    by (intros k; apply Z.pow_pos_nonneg; lia).
  assert (Hnn : forall x k, 0 <= x -> 0 <= x / 2 ^ Zpos k)
    by (intros x k Hx; apply Z.div_pos; [exact Hx | apply Hpow]).
  induction n as [n IH|n IH|]; intros mrs Hm; cbn [SpecFloat.iter_pos].
  - assert (H1 : 0 <= shr_m (shr_1 mrs))
      by (rewrite shr_1_m by exact Hm; apply Z.div_pos; lia).
    assert (H2 : 0 <= shr_m (SpecFloat.iter_pos shr_1 n (shr_1 mrs)))
      by (rewrite IH by exact H1; now apply Hnn).
    rewrite (IH _ H2), (IH _ H1), (shr_1_m _ Hm).
    pose proof (Hpow n).
    rewrite !Z.div_div by lia.
    f_equal.
    replace (Zpos n~1) with (1 + (Zpos n + Zpos n)) by lia.
    rewrite !Z.pow_add_r by lia. change (2 ^ 1) with 2. lia.
  - assert (H2 : 0 <= shr_m (SpecFloat.iter_pos shr_1 n mrs))
      by (rewrite IH by exact Hm; now apply Hnn).
    rewrite (IH _ H2), (IH _ Hm).
    pose proof (Hpow n).
    rewrite !Z.div_div by lia.
    f_equal.
    replace (Zpos n~0) with (Zpos n + Zpos n) by lia.
    now rewrite Z.pow_add_r by lia.
  - now apply shr_1_m.
Qed.

(** The first step of rounding: a mantissa of more than 53 bits is
    shifted right until 53 are left. *)
Lemma shr_fexp_spec m e l :
  -1074 <= e ->
  let n := Z.max (Zpos (digits2_pos m) - 53) 0 in
  exists mrs,
    shr_fexp prec emax (Zpos m) e l = (mrs, e + n)
    /\ shr_m mrs = Zpos m / 2 ^ n.
Proof.
  intros He n. unfold shr_fexp, shr, fexp, emin, prec, emax.
  cbn [Zdigits2].
  set (d := Zpos (digits2_pos m)) in *.
  assert (Hrec : shr_m (shr_record_of_loc (Zpos m) l) = Zpos m)
    by (destruct l as [|[]]; reflexivity).
  destruct (Z.max (d + e - 53) (3 - 1024 - 53) - e) as [|q|q] eqn:Hn.
  - exists (shr_record_of_loc (Zpos m) l).
    replace n with 0 by lia. rewrite Z.add_0_r, Hrec, Z.div_1_r. auto.
  - exists (SpecFloat.iter_pos shr_1 q (shr_record_of_loc (Zpos m) l)).
    replace n with (Zpos q) by lia.
    rewrite iter_shr_1_m, Hrec by (rewrite Hrec; lia). auto.
  - exists (shr_record_of_loc (Zpos m) l).
    replace n with 0 by lia. rewrite Z.add_0_r, Hrec, Z.div_1_r. auto.
Qed.

Lemma round_nearest_even_bounds m l :
  m <= round_nearest_even m l <= m + 1.
Proof.
  unfold round_nearest_even.
  destruct l as [|[]]; try lia. destruct (Z.even m); lia.
Qed.

(** Rounding a positive mantissa at an exponent that is not below the
    smallest one gives a finite double or overflows; it never gives
    zero. *)
Lemma binary_round_aux_pos s m e l :
  -1074 <= e ->
  exists m' e',
    binary_round_aux prec emax s (Zpos m) e l
    = (if e' <=? 971 then S754_finite s m' e' else S754_infinity s)
    /\ e' <= Z.max e (Zpos (digits2_pos m) + e - 53) + 1.
Proof.
  intros He. unfold binary_round_aux.
  destruct (shr_fexp_spec m e l He) as (mrs1 & -> & Hm1).
  pose proof (digits2_pos_bounds m) as [Hlo Hhi].
  set (d := Zpos (digits2_pos m)) in *.
  set (n1 := Z.max (d - 53) 0) in *.
  assert (Hd : 0 < d) by (unfold d; lia).
  assert (Hp1 : 0 < 2 ^ n1) by (apply Z.pow_pos_nonneg; lia).
  assert (Hm1lo : 1 <= shr_m mrs1).
  { rewrite Hm1. apply Z.div_le_lower_bound; [lia|].
    rewrite Z.mul_1_r. apply Z.le_trans with (2 := Hlo).
    apply Z.pow_le_mono_r; lia. }
  assert (Hm1hi : shr_m mrs1 < 2 ^ 53).
  { rewrite Hm1. apply Z.div_lt_upper_bound; [lia|].
    rewrite <- Z.pow_add_r by lia.
    apply Z.lt_le_trans with (1 := Hhi). apply Z.pow_le_mono_r; lia. }
  pose proof (round_nearest_even_bounds (shr_m mrs1)
                (loc_of_shr_record mrs1)) as Hr.
  destruct (round_nearest_even (shr_m mrs1) (loc_of_shr_record mrs1))
    as [|r|r] eqn:Hround; try lia.
  assert (He1 : -1074 <= e + n1) by lia.
  destruct (shr_fexp_spec r (e + n1) loc_Exact He1) as (mrs2 & -> & Hm2).
  pose proof (digits2_pos_bounds r) as [Hrlo Hrhi].
  set (dr := Zpos (digits2_pos r)) in *.
  set (n2 := Z.max (dr - 53) 0) in *.
  assert (Hdr : 0 < dr) by (unfold dr; lia).
  assert (Hdr54 : dr <= 54).
  { destruct (Z_le_gt_dec dr 54) as [|Hgt]; [assumption|].
    assert (2 ^ 54 <= 2 ^ (dr - 1)) by (apply Z.pow_le_mono_r; lia).
    change (2 ^ 54) with (2 * 2 ^ 53) in *. lia. }
  assert (Hp2 : 0 < 2 ^ n2) by (apply Z.pow_pos_nonneg; lia).
  assert (Hm2lo : 1 <= shr_m mrs2).
  { rewrite Hm2. apply Z.div_le_lower_bound; [lia|].
    rewrite Z.mul_1_r. apply Z.le_trans with (2 := Hrlo).
    apply Z.pow_le_mono_r; lia. }
  destruct (shr_m mrs2) as [|m2|m2]; try lia.
  exists m2, (e + n1 + n2). split; [reflexivity | lia].
Qed.

Lemma iter_xO_digits k m :
  Zpos (digits2_pos (Pos.iter xO m k)) = Zpos (digits2_pos m) + Zpos k.
Proof.
  induction k as [|k IH] using Pos.peano_ind.
  - simpl. lia.
  - rewrite Pos.iter_succ. cbn [digits2_pos].
    rewrite Pos2Z.inj_succ, IH. lia.
Qed.

(** The double nearest to a positive integer is positive; it is finite
    when the integer is below 2^1023. *)
Lemma float_of_Z_pos p :
  exists m e,
    float_of_Z (Zpos p)
    = (if e <=? 971 then S754_finite false m e else S754_infinity false)
    /\ e <= Z.max 0 (Zpos (digits2_pos p) - 53) + 1.
Proof.
  unfold float_of_Z, binary_normalize, binary_round, shl_align, fexp, emin,
    prec, emax.
  set (d := Zpos (digits2_pos p)).
  assert (Hd : 0 < d) by (unfold d; lia).
  rewrite Z.add_0_r, Z.sub_0_r.
  destruct (Z.max (d - 53) (3 - 1024 - 53)) as [|q|q] eqn:Hq.
  - destruct (binary_round_aux_pos false p 0 loc_Exact) as (m & e & H & He);
      [lia|].
    exists m, e. split; [exact H|]. fold d in He. lia.
  - destruct (binary_round_aux_pos false p 0 loc_Exact) as (m & e & H & He);
      [lia|].
    exists m, e. split; [exact H|]. fold d in He. lia.
  - destruct (binary_round_aux_pos false (Pos.iter xO p q) (Zneg q) loc_Exact)
      as (m & e & H & He); [lia|].
    exists m, e. split; [exact H|].
    rewrite iter_xO_digits in He. fold d in He. lia.
Qed.

Lemma float_of_int_pos p f :
  float_of_int (Zpos p) = Ok f -> exists m e, f = S754_finite false m e.
Proof.
  unfold float_of_int.
  destruct (float_of_Z_pos p) as (m & e & -> & _).
  destruct (e <=? 971); [|discriminate].
  intros [= <-]. eauto.
Qed.


(** Dividing by a finite double that is not zero does not raise. *)
Lemma float_truediv_finite a s m e :
  float_truediv a (S754_finite s m e)
  = Ok (SFdiv prec emax a (S754_finite s m e)).
Proof. unfold float_truediv, SFeqb, SFcompare, fzero. now destruct s. Qed.

End Rounding.

(** ** The pool: what every interleaving preserves *)

Lemma sum_over_insert f ts i t t' :
  ts !! i = Some t ->
  (sum_over f (<[i := t']> ts) + f t = sum_over f ts + f t')%nat.
Proof.
  unfold sum_over. revert i. induction ts as [|x ts IH]; intros i H.
  - destruct i; discriminate.
  - destruct i as [|i]; simpl in *.
    + injection H as ->. lia.
    + specialize (IH i H). lia.
Qed.

Lemma sum_over_zero f ts :
  sum_over f ts = O -> Forall (fun t => f t = O) ts.
Proof.
  unfold sum_over. induction ts as [|x ts IH]; simpl; intros H; constructor.
  - lia.
  - apply IH. lia.
Qed.

Lemma in_insert (ts : list thread) i t x :
  In x (<[i := t]> ts) -> x = t \/ In x ts.
Proof.
  revert i. induction ts as [|y ts IH]; intros i; [intros []|].
  destruct i as [|i]; simpl.
  - intros [<- | H]; auto.
  - intros [<- | H]; auto. destruct (IH i H); auto.
Qed.

Lemma queued_lines_app q1 q2 :
  queued_lines (q1 ++ q2) = (queued_lines q1 + queued_lines q2)%nat.
Proof. unfold queued_lines. now rewrite map_app, list_sum_app. Qed.

Lemma queued_lines_line l q : queued_lines (Some l :: q) = S (queued_lines q).
Proof. reflexivity. Qed.

Lemma queued_lines_close q : queued_lines (None :: q) = queued_lines q.
Proof. reflexivity. Qed.

Lemma queued_lines_closes k : queued_lines (replicate k None) = O.
Proof. induction k; [reflexivity | exact IHk]. Qed.

Lemma sum_over_replicate f n t : f t = O -> sum_over f (replicate n t) = O.
Proof. intros H. unfold sum_over. induction n; simpl; [reflexivity | lia]. Qed.

Ltac proj :=
  cbn [todo broken closes queue tally lock threads outside
       processed errors with_threads with_queue start
       inflight lost holds_lock length] in *.

Section Invariant.
Variable E : env.
Variable MC : memcache.
Variable o : options.
Variable filename : str.

Lemma invariant_start f w :
  invariant o (length (fed_lines (content f))) (start o f w).
Proof.
  split; proj.
  - rewrite !sum_over_replicate by reflexivity.
    change (queued_lines []) with O. lia.
  - now apply sum_over_replicate.
  - apply Forall_replicate. exact I.
  - exists [], O. split; [reflexivity | congruence].
  - intros H. apply list_elem_of_In, elem_of_replicate in H as [H _].
    discriminate.
  - apply length_replicate.
Qed.

Ltac insert_facts H t' :=
  pose proof (sum_over_insert inflight _ _ _ t' H) as Hfly;
  pose proof (sum_over_insert lost _ _ _ t' H) as Hlost;
  pose proof (sum_over_insert holds_lock _ _ _ t' H) as Hhold;
  cbn [inflight lost holds_lock] in Hfly, Hlost, Hhold.

Lemma invariant_step n p q :
  invariant o n p -> step E MC o filename p q -> invariant o n q.
Proof.
  intros [Hc Hl Hr (ls & k & Hq & Hk) Hcl Hsz] Hstep.
  destruct Hstep as
      [p l ls' Ht Hfull | p e Ht Hb | p k' Ht Hb Hk' Hfull
      | p i l q Hi Hq' | p i q Hi Hq' | p i Hi Hq'
      | p i l c w' Hi Ho | p i l e w' Hi Ho
      | p i c Hi Hfree | p i c Hi | p i c v Hi].
  - (* put_line *)
    split; proj.
    + rewrite queued_lines_app, Ht in *.
      change (queued_lines [Some l]) with 1%nat. cbn [length] in Hc. lia.
    + exact Hl.
    + exact Hr.
    + destruct k as [|k]; [|rewrite Hk in Ht; discriminate].
      exists (ls ++ [l]), O. rewrite Hq, map_app. cbn. rewrite !app_nil_r.
      split; [reflexivity | congruence].
    + intros H. destruct (Hcl H) as [Hnil _]. congruence.
    + exact Hsz.
  - (* read_error *)
    split; proj; try assumption.
    + now rewrite Ht in Hc.
    + exists ls, k. auto.
    + intros H. destruct (Hcl H). auto.
  - (* put_close *)
    split; proj; try assumption.
    + rewrite queued_lines_app, Ht in *.
      change (queued_lines [None]) with 0%nat. cbn [length] in Hc. lia.
    + exists ls, (S k). split; [|reflexivity].
      rewrite Hq, <- app_assoc. f_equal.
      clear. induction k; [reflexivity | simpl; now f_equal].
    + intros H. destruct (Hcl H) as [_ H0].
      rewrite queued_lines_app, H0. auto.
  - (* get_line *)
    insert_facts Hi (Holding l).
    destruct ls as [|l0 ls0].
    { destruct k; cbn in Hq; rewrite Hq in Hq'; discriminate. }
    cbn in Hq. rewrite Hq in Hq'. injection Hq' as -> <-.
    split; proj.
    + rewrite Hq, queued_lines_line in Hc. lia.
    + lia.
    + apply Forall_insert; [exact Hr | exact I].
    + exists ls0, k. auto.
    + intros H. apply in_insert in H as [H | H]; [discriminate|].
      destruct (Hcl H) as [_ H0]. rewrite Hq, queued_lines_line in H0.
      discriminate.
    + now rewrite length_insert.
  - (* get_close *)
    insert_facts Hi Stopped.
    destruct ls as [|l0 ls0]; [|cbn in Hq; rewrite Hq in Hq'; discriminate].
    destruct k as [|k0]; cbn in Hq; rewrite Hq in Hq'; [discriminate|].
    injection Hq' as <-.
    split; proj.
    + rewrite Hq, queued_lines_close in Hc. lia.
    + lia.
    + apply Forall_insert; [exact Hr | exact I].
    + exists [], k0. split; [reflexivity|]. intros _. apply Hk. discriminate.
    + intros _. split; [apply Hk; discriminate | apply queued_lines_closes].
    + now rewrite length_insert.
  - (* get_timeout *)
    insert_facts Hi TimedOut.
    split; proj.
    + lia.
    + lia.
    + apply Forall_insert; [exact Hr | exact I].
    + exists ls, k. auto.
    + intros H. apply in_insert in H as [H | H]; [discriminate | auto].
    + now rewrite length_insert.
  - (* work *)
    insert_facts Hi (Waiting c).
    split; proj.
    + lia.
    + lia.
    + apply Forall_insert; [exact Hr | exact I].
    + exists ls, k. auto.
    + intros H. apply in_insert in H as [H | H]; [discriminate | auto].
    + now rewrite length_insert.
  - (* work_raises *)
    insert_facts Hi (Failed e).
    split; proj.
    + lia.
    + lia.
    + apply Forall_insert; [exact Hr | exact I].
    + exists ls, k. auto.
    + intros H. apply in_insert in H as [H | H]; [discriminate | auto].
    + now rewrite length_insert.
  - (* acquire *)
    insert_facts Hi (Locked c). rewrite Hfree in Hl.
    split; proj.
    + lia.
    + lia.
    + apply Forall_insert; [exact Hr | exact I].
    + exists ls, k. auto.
    + intros H. apply in_insert in H as [H | H]; [discriminate | auto].
    + now rewrite length_insert.
  - (* read_counter *)
    insert_facts Hi (Loaded c (load c (tally p))).
    split; proj.
    + lia.
    + lia.
    + apply Forall_insert; [exact Hr | reflexivity].
    + exists ls, k. auto.
    + intros H. apply in_insert in H as [H | H]; [discriminate | auto].
    + now rewrite length_insert.
  - (* write_counter *)
    insert_facts Hi Getting.
    assert (Hv : v = load c (tally p)).
    { rewrite Forall_lookup in Hr. exact (Hr i (Loaded c v) Hi). }
    assert (Hnone : sum_over holds_lock (<[i := Getting]> (threads p)) = O).
    { destruct (lock p); cbn in *; lia. }
    split; proj.
    + subst v. destruct c; cbn in *; lia.
    + exact Hnone.
    + eapply Forall_impl; [apply sum_over_zero, Hnone|].
      intros t Hz. destruct t; try exact I; discriminate.
    + exists ls, k. auto.
    + intros H. apply in_insert in H as [H | H]; [discriminate | auto].
    + now rewrite length_insert.
Qed.

Lemma invariant_steps n p q :
  invariant o n p -> steps E MC o filename p q -> invariant o n q.
Proof.
  intros Hp Hs. induction Hs as [|p q r Hs IH Hstep]; [exact Hp|].
  eapply invariant_step; [apply IH, Hp | exact Hstep].
Qed.

Lemma steps_cons p q r :
  step E MC o filename p q -> steps E MC o filename q r ->
  steps E MC o filename p r.
Proof.
  intros Hpq Hqr. induction Hqr as [|q r s Hqr IH Hrs].
  - eapply steps_step; [apply steps_refl | exact Hpq].
  - eapply steps_step; [apply IH, Hpq | exact Hrs].
Qed.

End Invariant.

Lemma sum_over_none f ts :
  Forall (fun t => f t = O) ts -> sum_over f ts = O.
Proof.
  intros H. unfold sum_over.
  induction H as [|x ts Hx _ IH]; simpl; [reflexivity | lia].
Qed.

Lemma sum_over_all f ts t :
  Forall (fun x => x = t) ts -> f t = O -> sum_over f ts = O.
Proof.
  intros H Hf. apply sum_over_none.
  eapply Forall_impl; [exact H|]. now intros x ->.
Qed.

(** ** Exceptions that leave the worker *)

Lemma collect_first_failure ts1 e ts2 :
  Forall (fun t => future t = Ok tt) ts1 ->
  collect_results (map future (ts1 ++ Failed e :: ts2)) = Raise e.
Proof.
  induction 1 as [|t ts1 Ht _ IH]; [reflexivity|].
  simpl. rewrite Ht. exact IH.
Qed.

Lemma collect_some_failure ts e :
  In (Failed e) ts -> exists e', collect_results (map future ts) = Raise e'.
Proof.
  induction ts as [|t ts IH]; [intros []|].
  intros [-> | Hin]; [now exists e|].
  simpl. destruct (future t) as [[]|e']; [auto | now exists e'].
Qed.

(** ** The verdict of process_file *)


Lemma float_of_int_raises z x : float_of_int z = Raise x -> x = OverflowError.
Proof.
  unfold float_of_int. destruct (float_of_Z z); congruence.
Qed.


(** * The claims *)

(** ** The verdict *)





(** ** Lines that are not text *)

(** C3.  What the code does with a line that is not valid UTF-8, here
    the single byte 0xFF: decode raises UnicodeDecodeError inside
    parse_appsinstalled, the worker turn raises it in turn without
    touching the counters, the worker loop ends with it although more
    lines are queued, and process_file raises it when collecting the
    results.  The line is not counted as an error and the failure is not
    absorbed. *)
Theorem undecodable_line_raises E MC o st w :
  decode_utf8 undecodable_line = Raise UnicodeDecodeError
  /\ parse_appsinstalled E undecodable_line w = (Raise UnicodeDecodeError, w)
  /\ line_worker_turn E MC o (Item (Some undecodable_line)) st w
     = (Raise UnicodeDecodeError, w)
  /\ (forall rest,
        line_worker E MC o (Item (Some undecodable_line) :: rest) st w
        = (Raise UnicodeDecodeError, w))
  /\ (forall filename tl,
        (run lift (collect_results
                     (map future [Failed UnicodeDecodeError]));
         process_file_verdict filename tl) w
        = (Raise UnicodeDecodeError, w)).
Proof.
  assert (Hd : decode_utf8 undecodable_line = Raise UnicodeDecodeError)
    by reflexivity.
  pose proof (parse_undecodable E _ _ w Hd) as Hp.
  pose proof (turn_parse_raises E MC o _ _ st w w Hp) as Ht.
  split; [exact Hd|]. split; [exact Hp|]. split; [exact Ht|]. split.
  - intros rest. now apply line_worker_raises.
  - reflexivity.
Qed.

(** ** Mixed apps fields *)

(** C4, as the code has it.  Take a line that decodes and splits on tab
    into five fields, with a device type and a device id that are not
    empty and coordinates that float() accepts.  If some element of the
    comma-separated apps field is not an integer literal, and every
    element that isdigit() accepts is one, then parse_appsinstalled
    returns a record whose apps are the values of the elements that
    isdigit() accepts, in their order, and logs the anomaly.  If
    moreover the device type is routed and insert_appsinstalled reports
    success, the worker turn adds one to the processed counter and
    leaves the error counter alone. *)
Theorem mixed_apps_keep_numeric_ids E MC o line s dt di la lo raw x y st w :
  decode_utf8 line = Ok s ->
  split TAB (str_strip s) = [dt; di; la; lo; raw] ->
  dt <> [] ->
  di <> [] ->
  py_float E la = Ok x ->
  py_float E lo = Ok y ->
  (exists a, In a (split COMMA raw)
             /\ py_int E (str_strip a) = Raise ValueError) ->
  (forall a, In a (split COMMA raw) -> isdigit E a = true ->
             exists z, py_int E (str_strip a) = Ok z) ->
  exists ids,
    Forall2 (fun a z => py_int E (str_strip a) = Ok z)
            (List.filter (fun a => isdigit E a) (split COMMA raw)) ids
    /\ let r := {| dev_type := dt; dev_id := di; lat := x; lon := y;
                   apps := ids |} in
       let w1 := add_log w INFO (NotAllDigits (str_strip s)) in
       parse_appsinstalled E line w = (Ok (Some r), w1)
       /\ forall addr w2,
           route o dt = Some addr ->
           insert_appsinstalled MC addr r (dry o) w1 = (Ok true, w2) ->
           line_worker_turn E MC o (Item (Some line)) st w
           = (Ok (Continue, {| processed := S (processed st);
                               errors := errors st |}), w2).
Proof.
  intros Hd Hs Hdt Hdi Hx Hy Hbad Hnum.
  destruct (parse_apps_fallback E raw (str_strip s) w Hbad Hnum)
    as (ids & HF & Hpa).
  exists ids. split; [exact HF|]. intros r w1.
  assert (Hp : parse_appsinstalled E line w = (Ok (Some r), w1)).
  { unfold parse_appsinstalled, bind at 1, lift at 1. rewrite Hd, Hs.
    change (length [dt; di; la; lo; raw] <? 5)%nat with false. cbv iota.
    rewrite !bool_decide_eq_false_2 by assumption. cbn [orb].
    unfold bind at 1. rewrite Hpa.
    unfold try_except, bind, lift, parse_geo. rewrite Hx, Hy. reflexivity. }
  split; [exact Hp|].
  intros addr w2 Hr Hi.
  exact (turn_routed E MC o line r addr true st w w1 w2 Hp Hr Hi).
Qed.

Lemma mixed_apps_keep_numeric_ids_witness :
  exists lat lon w1 w2,
    parse_appsinstalled latin1 mixed_line world0
    = (Ok (Some {| dev_type := u "idfa"; dev_id := u "X1";
                   lat := lat; lon := lon; apps := [10; 30]%Z |}), w1)
    /\ line_worker_turn latin1 healthy default_options
         (Item (Some mixed_line)) fresh world0
       = (Ok (Continue, {| processed := 1; errors := 0 |}), w2).
Proof.
  edestruct (mixed_apps_keep_numeric_ids latin1 healthy default_options
               mixed_line) with (st := fresh) (w := world0)
    as (ids & HF & Hp & Ht).
  - vm_compute. reflexivity.
  - vm_compute. reflexivity.
  - discriminate.
  - discriminate.
  - vm_compute. reflexivity.
  - vm_compute. reflexivity.
  - exists (u "abc"). split; [right; left; reflexivity | reflexivity].
  - intros a [<- | [<- | [<- | []]]] Ha; try discriminate Ha;
      eexists; vm_compute; reflexivity.
  - assert (Hids : ids = [10; 30]%Z).
    { change (List.filter _ _) with [u "10"; u "30"] in HF.
      inversion HF as [|? z1 ? t1 H1 HF1]; subst.
      inversion HF1 as [|? z2 ? t2 H2 HF2]; subst.
      inversion HF2; subst.
      vm_compute in H1. vm_compute in H2. congruence. }
    subst ids. do 4 eexists. split; [exact Hp|].
    eapply Ht; vm_compute; reflexivity.
Defined.

(** C4, as stated, fails: this line has five fields and an apps field
    that mixes numbers with a word, but its latitude is not a number;
    parse_appsinstalled returns None and the worker counts an error. *)
Lemma mixed_apps_bad_geo_is_an_error :
  (exists s dt di lo,
      decode_utf8 mixed_line_bad_geo = Ok s
      /\ split TAB (str_strip s) = [dt; di; u "north"; lo; u "10,abc,30"]
      /\ split COMMA (u "10,abc,30") = [u "10"; u "abc"; u "30"]
      /\ isdigit latin1 (u "10") = true
      /\ isdigit latin1 (u "abc") = false
      /\ isdigit latin1 (u "30") = true)
  /\ fst (parse_appsinstalled latin1 mixed_line_bad_geo world0) = Ok None
  /\ fst (line_worker_turn latin1 healthy default_options
            (Item (Some mixed_line_bad_geo)) fresh world0)
     = Ok (Continue, {| processed := 0; errors := 1 |}).
Proof.
  split; [|split; vm_compute; reflexivity].
  do 4 eexists. repeat split; vm_compute; reflexivity.
Qed.

(** ** Malformed lines *)

(** C5.  What the code does with a line whose device id is empty.  With
    five fields the test on the identifiers returns None and the worker
    turn adds one to the error counter and goes on.  With six fields
    the unpacking into five names comes first and raises ValueError:
    parse_appsinstalled raises, the worker turn raises without touching
    the counters, and the loop ends with the exception whatever is left
    in the queue.  In the same way a line of two fields that is not
    UTF-8 raises UnicodeDecodeError before its fields are counted. *)
Theorem empty_id_in_six_fields_raises E MC o st w :
  (parse_appsinstalled E five_fields_no_id w = (Ok None, w)
   /\ line_worker_turn E MC o (Item (Some five_fields_no_id)) st w
      = (Ok (Continue, {| processed := processed st;
                          errors := S (errors st) |}), w))
  /\ (parse_appsinstalled E six_fields_no_id w = (Raise ValueError, w)
      /\ line_worker_turn E MC o (Item (Some six_fields_no_id)) st w
         = (Raise ValueError, w)
      /\ forall rest,
          line_worker E MC o (Item (Some six_fields_no_id) :: rest) st w
          = (Raise ValueError, w))
  /\ (parse_appsinstalled E short_undecodable_line w
      = (Raise UnicodeDecodeError, w)
      /\ forall rest,
          line_worker E MC o (Item (Some short_undecodable_line) :: rest)
            st w
          = (Raise UnicodeDecodeError, w)).
Proof.
  assert (H5 : parse_appsinstalled E five_fields_no_id w = (Ok None, w)).
  { eapply parse_empty_id with (di := []);
      [vm_compute; reflexivity | vm_compute; reflexivity | now right]. }
  assert (H6 : parse_appsinstalled E six_fields_no_id w
               = (Raise ValueError, w)).
  { eapply parse_too_long; [vm_compute; reflexivity | vm_compute; lia]. }
  assert (Hu : parse_appsinstalled E short_undecodable_line w
               = (Raise UnicodeDecodeError, w)).
  { apply parse_undecodable. vm_compute. reflexivity. }
  split; [split; [exact H5 | now apply turn_no_record]|].
  split; [split; [exact H6|]; split|split; [exact Hu|]].
  - now apply turn_parse_raises.
  - intros rest. apply line_worker_raises. now apply turn_parse_raises.
  - intros rest. apply line_worker_raises. now apply turn_parse_raises.
Qed.

(** ** Unknown device types *)

(** C6.  When a line parses to a record whose device type is not a key
    of the routing table, the worker turn adds exactly one to the error
    counter, logs the unknown device type at level ERROR, and touches
    neither the client cache nor memcached: no client is obtained and no
    set is issued.  The loop then goes on with the next item. *)
Theorem unknown_device_type_is_one_error E MC o line a st w w1 :
  parse_appsinstalled E line w = (Ok (Some a), w1) ->
  device_memc o !! dev_type a = None ->
  let w2 := add_log w1 ERROR (UnknownDeviceType (dev_type a)) in
  line_worker_turn E MC o (Item (Some line)) st w
  = (Ok (Continue, {| processed := processed st;
                      errors := S (errors st) |}), w2)
  /\ instances w2 = instances w
  /\ sets w2 = sets w
  /\ forall rest,
      line_worker E MC o (Item (Some line) :: rest) st w
      = line_worker E MC o rest
          {| processed := processed st; errors := S (errors st) |} w2.
Proof.
  intros Hp Hr w2.
  pose proof (turn_unrouted E MC o line a st w w1 Hp (route_absent o _ Hr))
    as Ht.
  destruct (parse_same_store E line w _ w1 Hp) as (Hi & Hs & _).
  split; [exact Ht|]. split; [exact Hi|]. split; [exact Hs|].
  intros rest. now apply line_worker_continue.
Qed.

Lemma unknown_device_type_is_one_error_witness :
  exists w2,
    line_worker_turn latin1 healthy default_options
      (Item (Some unknown_line)) fresh world0
    = (Ok (Continue, {| processed := 0; errors := 1 |}), w2)
    /\ logs w2 = [(ERROR, UnknownDeviceType (u "unknown"))]
    /\ instances w2 = ∅ /\ sets w2 = [].
Proof.
  eexists.
  edestruct (unknown_device_type_is_one_error latin1 healthy default_options
               unknown_line) with (st := fresh) (w := world0)
    as (Ht & Hi & Hs & _);
    [vm_compute; reflexivity | vm_compute; reflexivity |].
  split; [exact Ht|]. split; [reflexivity|]. split; [exact Hi | exact Hs].
Defined.

(** ** Store failures *)

(** C7.  In non-dry-run mode, when the write to memcached (obtaining the
    client or the set itself) raises an exception for a routed record,
    insert_appsinstalled catches it, logs it with the address, and
    returns False; at most one set was issued for the record (the write
    is not tried again); the worker turn adds one to the error counter,
    leaves the processed counter alone and goes on with the next item. *)
Theorem store_failure_is_one_error E MC o line a addr ua e st w0 w w1 :
  parse_appsinstalled E line w0 = (Ok (Some a), w) ->
  route o (dev_type a) = Some addr ->
  dry o = false ->
  user_apps a = Ok ua ->
  store_write MC addr (store_key a) (SerializeToString ua) w = (Raise e, w1) ->
  let w2 := add_log w1 ERROR (CannotWrite addr e) in
  insert_appsinstalled MC addr a false w = (Ok false, w2)
  /\ (length (sets w2) <= S (length (sets w)))%nat
  /\ line_worker_turn E MC o (Item (Some line)) st w0
     = (Ok (Continue, {| processed := processed st;
                         errors := S (errors st) |}), w2)
  /\ forall rest,
      line_worker E MC o (Item (Some line) :: rest) st w0
      = line_worker E MC o rest
          {| processed := processed st; errors := S (errors st) |} w2.
Proof.
  intros Hp Hr Hdry Hu Hw w2.
  pose proof (insert_when_write_raises MC addr a ua e w w1 Hu Hw) as Hi.
  assert (Ht : line_worker_turn E MC o (Item (Some line)) st w0
               = (Ok (Continue, add_error st), w2)).
  { apply (turn_routed E MC o line a addr false st w0 w w2 Hp Hr).
    rewrite Hdry. exact Hi. }
  split; [exact Hi|]. split; [|split; [exact Ht|]].
  - apply (store_write_once MC _ _ _ _ _ _ Hw).
  - intros rest. now apply line_worker_continue.
Qed.

Lemma store_failure_is_one_error_witness :
  exists w2,
    line_worker_turn latin1 unreachable default_options
      (Item (Some good_line)) fresh world0
    = (Ok (Continue, {| processed := 0; errors := 1 |}), w2)
    /\ length (sets w2) = 1%nat
    /\ logs w2 = [(ERROR, CannotWrite (u "127.0.0.1:33014") (StoreError 111))].
Proof.
  eexists.
  edestruct (store_failure_is_one_error latin1 unreachable default_options
               good_line) with (st := fresh) (w0 := world0)
    as (_ & _ & Ht & _);
    [vm_compute; reflexivity | vm_compute; reflexivity | reflexivity
    | vm_compute; reflexivity | vm_compute; reflexivity |].
  split; [exact Ht|]. split; reflexivity.
Defined.

(** ** The serializer *)

(** The self-test of the source passes: both sample lines survive the
    round trip through the serializer. *)
Example prototest_passes : prototest latin1 = Ok tt.
Proof. vm_compute. reflexivity. Qed.

(** C8.  For a record whose coordinates are finite doubles and whose
    application ids fit the integer type of the schema, the message
    built by insert_appsinstalled holds exactly lat, lon and apps;
    parsing its serialized form gives that message back, equal to the
    original also under the comparison of messages; and the message, and
    so the payload, is the same whatever the device type and the device
    id of the record are. *)
Theorem serializer_round_trip (r : AppsInstalled) :
  is_finite (lat r) = true ->
  valid_binary prec emax (lat r) = true ->
  is_finite (lon r) = true ->
  valid_binary prec emax (lon r) = true ->
  forallb in_int64 (apps r) = true ->
  let ua := {| ua_lat := lat r; ua_lon := lon r; ua_apps := apps r |} in
  user_apps r = Ok ua
  /\ ParseFromString (SerializeToString ua) = Some ua
  /\ (forall unpacked,
        ParseFromString (SerializeToString ua) = Some unpacked ->
        message_eq ua unpacked = true)
  /\ forall dt di,
      user_apps {| dev_type := dt; dev_id := di; lat := lat r;
                   lon := lon r; apps := apps r |} = Ok ua.
Proof.
  intros Hfa Hva Hfo Hvo Hids ua.
  assert (Hu : forall dt di,
             user_apps {| dev_type := dt; dev_id := di; lat := lat r;
                          lon := lon r; apps := apps r |} = Ok ua).
  { intros dt di. unfold user_apps, apps_extend. cbn. now rewrite Hids. }
  assert (Hp : ParseFromString (SerializeToString ua) = Some ua)
    by now apply parse_serialize.
  split; [destruct r; apply Hu|]. split; [exact Hp|]. split; [|exact Hu].
  intros unpacked Hun. rewrite Hp in Hun. injection Hun as <-.
  unfold message_eq. rewrite !float_eq_refl by assumption.
  now rewrite bool_decide_eq_true_2.
Qed.

Lemma serializer_round_trip_witness :
  let r := {| dev_type := u "gaid"; dev_id := u "7rfw452y52g2gq4g";
              lat := float_of_decimal false 5555 (-2);
              lon := float_of_decimal false 4242 (-2);
              apps := [7423; 424]%Z |} in
  let ua := {| ua_lat := lat r; ua_lon := lon r; ua_apps := apps r |} in
  user_apps r = Ok ua /\ ParseFromString (SerializeToString ua) = Some ua.
Proof.
  intros r ua.
  destruct (serializer_round_trip r) as (Hu & Hp & _);
    try (vm_compute; reflexivity).
  split; [exact Hu | exact Hp].
Defined.

(** ** The tally under concurrency *)

(** C9, as the code has it.  Start process_file with at least one
    worker on any file and let the producer and the workers interleave
    in any way.  At every moment at most one worker is inside the block
    guarded by the lock of the tally.  As long as no worker has been
    ended by an exception, every line the producer feeds is in exactly
    one place: still to be put, on the queue, in the hands of a worker
    that has not counted it yet, or counted once in processed or in
    errors.  Hence, when every worker has returned on its close signal,
    processed plus errors is the number of non-empty lines fed. *)
Theorem tally_counts_lines_fed E MC o filename f w p :
  (1 <= workers o)%nat ->
  steps E MC o filename (start o f w) p ->
  (sum_over holds_lock (threads p) <= 1)%nat
  /\ (Forall (fun t => lost t = O) (threads p) ->
      (processed (tally p) + errors (tally p)
       + sum_over inflight (threads p)
       + queued_lines (queue p) + length (todo p)
       = length (fed_lines (content f)))%nat)
  /\ (Forall (fun t => t = Stopped) (threads p) ->
      (processed (tally p) + errors (tally p)
       = length (fed_lines (content f)))%nat).
Proof.
  intros Hn Hrun.
  pose proof (invariant_steps E MC o filename _ _ _
                (invariant_start o f w) Hrun)
    as [Hc Hl _ _ Hcl Hsz].
  split; [rewrite Hl; destruct (lock p); lia|].
  split.
  - intros Hok. rewrite (sum_over_none lost _ Hok) in Hc. lia.
  - intros Hall.
    assert (Hin : In Stopped (threads p)).
    { destruct (threads p) as [|t ts]; [simpl in Hsz; lia|].
      inversion Hall; subst. now left. }
    destruct (Hcl Hin) as [Htodo Hq].
    rewrite (sum_over_all inflight _ _ Hall),
      (sum_over_all lost _ _ Hall) in Hc by reflexivity.
    rewrite Htodo, Hq in Hc. simpl in Hc. lia.
Qed.

Ltac thread_step c :=
  eapply steps_cons;
  [ eapply c with (i := O); try reflexivity; try (vm_compute; reflexivity) |];
  cbn [with_threads with_queue todo broken closes queue tally lock threads
       outside].

Ltac producer_step c :=
  eapply steps_cons;
  [ eapply c; try reflexivity; try (vm_compute; reflexivity) |];
  cbn [with_threads with_queue todo broken closes queue tally lock threads
       outside].

Lemma one_line_run :
  exists p,
    steps latin1 healthy one_worker sample_name
      (start one_worker one_line_file world0) p
    /\ threads p = [Stopped].
Proof.
  eexists. split.
  - producer_step put_line.
    thread_step get_line.
    thread_step work.
    thread_step acquire.
    thread_step read_counter.
    thread_step write_counter.
    producer_step put_close.
    thread_step get_close.
    apply steps_refl.
  - reflexivity.
Qed.

Lemma tally_counts_lines_fed_witness :
  exists p,
    steps latin1 healthy one_worker sample_name
      (start one_worker one_line_file world0) p
    /\ Forall (fun t => t = Stopped) (threads p)
    /\ (processed (tally p) + errors (tally p)
        = length (fed_lines (content one_line_file)))%nat
    /\ length (fed_lines (content one_line_file)) = 1%nat.
Proof.
  destruct one_line_run as (p & Hrun & Hts).
  assert (Hall : Forall (fun t => t = Stopped) (threads p))
    by (rewrite Hts; repeat constructor).
  destruct (tally_counts_lines_fed latin1 healthy one_worker sample_name
              one_line_file world0 p) as (_ & _ & Hfin).
  - simpl. lia.
  - exact Hrun.
  - exists p. split; [exact Hrun|]. split; [exact Hall|].
    split; [exact (Hfin Hall) | reflexivity].
Defined.

(** C9, as stated, fails: with one worker and a file of one line, the
    worker's first get can find the queue still empty for a second; it
    returns on queue.Empty, the producer then puts the line and the
    close signal, every worker has finished, and the tally is 0 + 0 for
    one line fed.  process_file still reports the file complete. *)
Lemma timed_out_worker_leaves_the_line :
  exists p w',
    steps latin1 healthy one_worker sample_name
      (start one_worker one_line_file world0) p
    /\ finished p
    /\ length (fed_lines (content one_line_file)) = 1%nat
    /\ tally p = {| processed := 0; errors := 0 |}
    /\ process_file latin1 healthy one_worker sample_name one_line_file
         world0 (Ok true) w'.
Proof.
  assert (Hrun : steps latin1 healthy one_worker sample_name
            (start one_worker one_line_file world0)
            {| todo := []; broken := None; closes := 0;
               queue := [Some good_line; None];
               tally := {| processed := 0; errors := 0 |};
               lock := false; threads := [TimedOut];
               outside := world0 |}).
  { thread_step get_timeout.
    producer_step put_line.
    producer_step put_close.
    apply steps_refl. }
  do 2 eexists. split; [exact Hrun|].
  split; [repeat split|]. split; [reflexivity|]. split; [reflexivity|].
  eapply process_file_run; [discriminate | exact Hrun | repeat split |].
  vm_compute. reflexivity.
Qed.

(** ** Lines with too many fields *)

(** C10.  A line that decodes and splits on tab into more than five
    fields does not give None: the unpacking into five names raises
    ValueError.  Nothing in the worker catches it (the loop only handles
    queue.Empty), so the counters are not updated, the loop ends with
    the exception whatever is left in the queue, the thread of the pool
    that holds the line fails, and process_file raises when it asks the
    workers for their results instead of giving its verdict. *)
Theorem too_many_fields_raises E MC o line s st w :
  decode_utf8 line = Ok s ->
  (5 < length (split TAB (str_strip s)))%nat ->
  parse_appsinstalled E line w = (Raise ValueError, w)
  /\ (forall rest,
        line_worker E MC o (Item (Some line) :: rest) st w
        = (Raise ValueError, w))
  /\ (forall filename p i,
        threads p !! i = Some (Holding line) ->
        outside p = w ->
        step E MC o filename p
          {| todo := todo p; broken := broken p; closes := closes p;
             queue := queue p; tally := tally p; lock := lock p;
             threads := <[i := Failed ValueError]> (threads p);
             outside := w |})
  /\ (forall filename ts tl,
        In (Failed ValueError) ts ->
        exists e,
          (run lift (collect_results (map future ts));
           process_file_verdict filename tl) w = (Raise e, w))
  /\ (forall filename ts1 ts2 tl,
        Forall (fun t => future t = Ok tt) ts1 ->
        (run lift (collect_results
                     (map future (ts1 ++ Failed ValueError :: ts2)));
         process_file_verdict filename tl) w = (Raise ValueError, w)).
Proof.
  intros Hd Hlen.
  pose proof (parse_too_long E line s w Hd Hlen) as Hp.
  split; [exact Hp|]. split; [|split; [|split]].
  - intros rest. apply line_worker_raises. now apply turn_parse_raises.
  - intros filename p i Hi Hw.
    apply work_raises with (l := line); [exact Hi|].
    rewrite Hw. unfold line_outcome. now apply bind_raise.
  - intros filename ts tl Hin.
    destruct (collect_some_failure ts _ Hin) as [e He].
    exists e. unfold bind, lift. now rewrite He.
  - intros filename ts1 ts2 tl Hok.
    unfold bind, lift. now rewrite collect_first_failure.
Qed.

Lemma too_many_fields_raises_witness :
  parse_appsinstalled latin1 long_line world0 = (Raise ValueError, world0)
  /\ line_worker latin1 healthy default_options
       [Item (Some long_line); Item (Some good_line); Item None]
       fresh world0
     = (Raise ValueError, world0).
Proof.
  destruct (too_many_fields_raises latin1 healthy default_options long_line
              (u "idfa" ++ [TAB] ++ u "X1" ++ [TAB] ++ u "55.55" ++ [TAB]
               ++ u "42.42" ++ [TAB] ++ u "1,2" ++ [TAB] ++ u "extra")
              fresh world0) as (Hp & Hw & _).
  - vm_compute. reflexivity.
  - vm_compute. lia.
  - split; [exact Hp | apply Hw].
Defined.

(** * Further properties of the code *)

(** * Further properties of the loader *)

(** ** The client cache *)

Lemma well_keyed_empty : well_keyed world0.
Proof. intros addr c H. cbn in H. now rewrite lookup_empty in H. Qed.

Lemma cache_kept_refl w : cache_kept w w.
Proof. now intros addr c H. Qed.

Lemma cache_kept_trans w1 w2 w3 :
  cache_kept w1 w2 -> cache_kept w2 w3 -> cache_kept w1 w3.
Proof. intros H12 H23 addr c H. now apply H23, H12. Qed.

Lemma same_store_cache w w' : same_store w w' -> cache_kept w w'.
Proof. intros (Hi & _) addr c H. now rewrite Hi. Qed.

Lemma same_store_keyed w w' : same_store w w' -> well_keyed w -> well_keyed w'.
Proof. intros (Hi & _) Hk addr c H. rewrite Hi in H. now apply Hk. Qed.

Section Cache.
Variable MC : memcache.

Lemma get_client_returns addr w c w1 :
  get_client MC addr w = (Ok c, w1) ->
  instances w1 !! addr = Some c
  /\ (forall other, other <> addr ->
                    instances w1 !! other = instances w !! other)
  /\ sets w1 = sets w /\ logs w1 = logs w /\ renames w1 = renames w
  /\ get_client MC addr w1 = (Ok c, w1).
Proof.
  unfold get_client. destruct (instances w !! addr) as [c0|] eqn:Hc.
  - intros [= <- <-]. rewrite Hc. auto 10.
  - destruct (init_fault MC addr); [discriminate|].
    intros [= <- <-]. cbn [instances sets logs renames].
    rewrite lookup_insert_eq.
    repeat split; try reflexivity.
    intros other Hne. now rewrite lookup_insert_ne.
Qed.

Lemma get_client_raises addr w e w1 :
  get_client MC addr w = (Raise e, w1) -> w1 = w.
Proof.
  unfold get_client. destruct (instances w !! addr).
  - discriminate.
  - destruct (init_fault MC addr); now intros [= <- <-].
Qed.

(** X1.  get_client is a cache: a call that returns leaves its client
    under the address, keeps every other entry, issues no set, and
    makes the next call for the address return the same client without
    changing anything; a call whose construction raises changes
    nothing, so that the next call constructs again. *)
Theorem get_client_caches addr w :
  (forall c w1,
      get_client MC addr w = (Ok c, w1) ->
      instances w1 !! addr = Some c
      /\ (forall other, other <> addr ->
                        instances w1 !! other = instances w !! other)
      /\ sets w1 = sets w /\ logs w1 = logs w /\ renames w1 = renames w
      /\ get_client MC addr w1 = (Ok c, w1))
  /\ (forall e w1, get_client MC addr w = (Raise e, w1) -> w1 = w).
Proof.
  split.
  - intros c w1. apply get_client_returns.
  - intros e w1. apply get_client_raises.
Qed.

Lemma get_client_kept addr w r w' :
  get_client MC addr w = (r, w') ->
  cache_kept w w' /\ (well_keyed w -> well_keyed w')
  /\ renames w' = renames w
  /\ (forall c, r = Ok c -> instances w' !! addr = Some c).
Proof.
  unfold get_client. destruct (instances w !! addr) as [c0|] eqn:Hc.
  - intros [= <- <-]. split; [apply cache_kept_refl|].
    split; [auto|]. split; [reflexivity|]. now intros c [= <-].
  - destruct (init_fault MC addr).
    + intros [= <- <-]. split; [apply cache_kept_refl|].
      split; [auto|]. split; [reflexivity|]. discriminate.
    + intros [= <- <-]. unfold cache_kept, well_keyed.
      cbn [instances renames]. split; [|split; [|split]].
      * intros a c H. destruct (decide (addr = a)) as [->|Hne].
        -- congruence.
        -- now rewrite lookup_insert_ne.
      * intros Hk a c. destruct (decide (addr = a)) as [->|Hne].
        -- rewrite lookup_insert_eq. now intros [= <-].
        -- rewrite lookup_insert_ne by exact Hne. apply Hk.
      * reflexivity.
      * intros c [= <-]. apply lookup_insert_eq.
Qed.

Lemma memc_set_world memc key packed w r w' :
  memc_set MC memc key packed w = (r, w') ->
  instances w' = instances w /\ logs w' = logs w /\ renames w' = renames w
  /\ sets w' = sets w ++ [(memc, key, packed)].
Proof.
  unfold memc_set. destruct (set_fault MC _ memc key packed);
    now intros [= <- <-].
Qed.

Lemma store_write_kept addr key packed w r w' :
  store_write MC addr key packed w = (r, w') ->
  cache_kept w w' /\ (well_keyed w -> well_keyed w')
  /\ renames w' = renames w.
Proof.
  unfold store_write, bind.
  destruct (get_client MC addr w) as [[c|e] w1] eqn:Hg;
    apply get_client_kept in Hg as (Hc & Hk & Hr & _).
  - intros Hs. apply memc_set_world in Hs as (Hi & _ & Hr' & _).
    split; [|split].
    + intros a x H. rewrite Hi. now apply Hc.
    + intros Hw a x H. rewrite Hi in H. now apply (Hk Hw).
    + congruence.
  - intros [= <- <-]. auto.
Qed.

Lemma insert_kept addr a dry_run w r w' :
  insert_appsinstalled MC addr a dry_run w = (r, w') ->
  cache_kept w w' /\ (well_keyed w -> well_keyed w')
  /\ renames w' = renames w.
Proof.
  unfold insert_appsinstalled, bind at 1, lift.
  destruct (user_apps a) as [ua|e];
    [|intros [= <- <-]; split; [apply cache_kept_refl | auto]].
  unfold try_except, bind at 1.
  destruct dry_run.
  - cbn. intros [= <- <-]. split; [|split]; [now intros x c H | | reflexivity].
    intros Hk x c H. now apply Hk.
  - destruct (store_write MC addr (store_key a) (SerializeToString ua) w)
      as [[[]|e] w1] eqn:Hs;
      apply store_write_kept in Hs as (Hc & Hk & Hr).
    + cbn. intros [= <- <-]. auto.
    + cbn. intros [= <- <-]. cbn [instances renames]. auto.
Qed.

(** X2.  insert_appsinstalled raises exactly when building the message
    raises, which happens before the try block: then nothing is logged
    or written.  Whatever memcached does, a message that could be built
    gives a boolean. *)
Theorem insert_raises_only_before_the_write addr a dry_run w :
  match user_apps a with
  | Raise e => insert_appsinstalled MC addr a dry_run w = (Raise e, w)
  | Ok _ => exists ok w', insert_appsinstalled MC addr a dry_run w = (Ok ok, w')
  end.
Proof.
  unfold insert_appsinstalled, bind at 1, lift.
  destruct (user_apps a) as [ua|e]; [|reflexivity].
  unfold try_except, bind at 1. destruct dry_run.
  - cbn. eauto.
  - destruct (store_write MC addr (store_key a) (SerializeToString ua) w)
      as [[[]|e] w1]; cbn; eauto.
Qed.

Lemma store_write_world addr key packed w r w' :
  store_write MC addr key packed w = (r, w') ->
  logs w' = logs w
  /\ (r = Ok tt -> well_keyed w ->
      sets w' = sets w ++ [(Client [addr], key, packed)]
      /\ instances w' !! addr = Some (Client [addr])).
Proof.
  unfold store_write, bind.
  destruct (get_client MC addr w) as [[c|e] w0] eqn:Hg.
  - pose proof (get_client_kept _ _ _ _ Hg) as (_ & Hk' & _ & Hin).
    apply get_client_returns in Hg as (_ & _ & Hsets & Hlogs & _).
    intros Hs. apply memc_set_world in Hs as (Hi & Hl & _ & Hs).
    split; [congruence|]. intros _ Hk.
    specialize (Hin c eq_refl). pose proof (Hk' Hk _ _ Hin) as ->.
    rewrite Hs, Hsets, Hi. auto.
  - apply get_client_raises in Hg as ->. intros [= <- <-].
    split; [reflexivity | discriminate].
Qed.

(** X3.  In non-dry mode, when insert_appsinstalled returns True for a
    record whose message is [ua], it has issued exactly one set: to the
    client of the address, under the key dev_type:dev_id, with the
    serialized message as value; that client is now in the cache and
    nothing was logged.  When it returns False it has logged the
    failure with the address. *)
Theorem insert_outcomes addr a ua w :
  user_apps a = Ok ua ->
  well_keyed w ->
  (forall w',
      insert_appsinstalled MC addr a false w = (Ok true, w') ->
      sets w'
      = sets w ++ [(Client [addr], store_key a, SerializeToString ua)]
      /\ instances w' !! addr = Some (Client [addr])
      /\ logs w' = logs w)
  /\ (forall w',
        insert_appsinstalled MC addr a false w = (Ok false, w') ->
        exists e, logs w' = logs w ++ [(ERROR, CannotWrite addr e)]).
Proof.
  intros Hu Hk.
  destruct (store_write MC addr (store_key a) (SerializeToString ua) w)
    as [[[]|e] w1] eqn:Hs.
  - rewrite (insert_when_write_returns MC addr a ua w w1 Hu Hs).
    apply store_write_world in Hs as (Hl & Hok).
    split; intros w' H; inversion H; subst.
    destruct (Hok eq_refl Hk) as (Hsets & Hin).
    split; [exact Hsets|]. split; [exact Hin | exact Hl].
  - rewrite (insert_when_write_raises MC addr a ua e w w1 Hu Hs).
    apply store_write_world in Hs as (Hl & _).
    split; intros w' H; inversion H; subst. exists e.
    cbn [logs add_log]. now rewrite Hl.
Qed.

End Cache.

(** ** What a worker leaves alone *)

Section Preserved.
Variable E : env.
Variable MC : memcache.
Variable o : options.

(** A relation between worlds that parsing, logging and inserting
    respect is respected by the whole loop of a worker. *)
Variable P : world -> world -> Prop.
Hypothesis P_refl : forall w, P w w.
Hypothesis P_trans : forall w1 w2 w3, P w1 w2 -> P w2 w3 -> P w1 w3.
Hypothesis P_same_store : forall w w', same_store w w' -> P w w'.
Hypothesis P_insert : forall addr a w r w',
    insert_appsinstalled MC addr a (dry o) w = (r, w') -> P w w'.

Lemma turn_respects g st w :
  P w (snd (line_worker_turn E MC o g st w)).
Proof using P_refl P_trans P_same_store P_insert.
  destruct g as [|[line|]]; [apply P_refl | | apply P_refl].
  unfold line_worker_turn, bind.
  destruct (parse_appsinstalled E line w) as [[[a|]|e] w1] eqn:Hp;
    apply parse_same_store in Hp; cbn [snd ret]; try now apply P_same_store.
  destruct (route o (dev_type a)) as [addr|].
  - destruct (insert_appsinstalled MC addr a (dry o) w1) as [[ok|e] w2] eqn:Hi;
      apply P_insert in Hi; cbn [snd]; eapply P_trans; eauto.
  - cbn. eapply P_trans; [apply P_same_store, Hp|].
    apply P_same_store, logging_same_store.
Qed.

Lemma line_worker_respects gets : forall st w,
  P w (snd (line_worker E MC o gets st w)).
Proof using P_refl P_trans P_same_store P_insert.
  induction gets as [|g rest IH]; intros st w; [apply P_refl|].
  cbn [line_worker]. unfold bind.
  pose proof (turn_respects g st w) as Ht.
  destruct (line_worker_turn E MC o g st w) as [[[[] st1]|e] w1];
    cbn [snd fst ret] in *; try exact Ht.
  eapply P_trans; [exact Ht | apply IH].
Qed.

Variable filename : str.

Lemma line_outcome_respects line w :
  P w (snd (line_outcome E MC o line w)).
Proof using P_refl P_trans P_same_store P_insert.
  pose proof (turn_respects (Item (Some line)) fresh w) as H.
  rewrite turn_outcome in H.
  now destruct (line_outcome E MC o line w) as [[c|e] w1].
Qed.

Lemma step_respects p q :
  step E MC o filename p q -> P (outside p) (outside q).
Proof using P_refl P_trans P_same_store P_insert.
  intros Hstep. inversion Hstep; subst; proj; try apply P_refl.
  - apply P_same_store, logging_same_store.
  - match goal with H : line_outcome _ _ _ ?l ?w = _ |- _ =>
      pose proof (line_outcome_respects l w) as Hr; now rewrite H in Hr end.
  - match goal with H : line_outcome _ _ _ ?l ?w = _ |- _ =>
      pose proof (line_outcome_respects l w) as Hr; now rewrite H in Hr end.
Qed.

Lemma steps_respect p q :
  steps E MC o filename p q -> P (outside p) (outside q).
Proof using P_refl P_trans P_same_store P_insert.
  intros Hs. induction Hs as [|p q r Hs IH Hstep]; [apply P_refl|].
  eapply P_trans; [exact IH | now apply step_respects].
Qed.

End Preserved.

Lemma clients_kept_refl w : clients_kept w w.
Proof. split; [apply cache_kept_refl | auto]. Qed.

Lemma clients_kept_trans w1 w2 w3 :
  clients_kept w1 w2 -> clients_kept w2 w3 -> clients_kept w1 w3.
Proof.
  intros (Hc & Hk & Hr) (Hc' & Hk' & Hr').
  split; [eapply cache_kept_trans; eauto|]. split; [auto | congruence].
Qed.

Lemma clients_kept_same_store w w' : same_store w w' -> clients_kept w w'.
Proof.
  intros H. split; [now apply same_store_cache|].
  split; [now apply same_store_keyed | apply H].
Qed.

Lemma dry_insert_same_store MC addr a w r w' :
  insert_appsinstalled MC addr a true w = (r, w') -> same_store w w'.
Proof.
  unfold insert_appsinstalled, bind at 1, lift.
  destruct (user_apps a) as [ua|e];
    [|intros [= <- <-]; apply same_store_refl].
  cbn. intros [= <- <-]. apply logging_same_store.
Qed.

(** X4.  Whatever a worker is handed and whatever memcached does, its
    loop never drops or replaces a cached client, keeps every client
    under the address it was built for, and renames no file. *)
Theorem line_worker_keeps_clients E MC o gets st w :
  let w' := snd (line_worker E MC o gets st w) in
  cache_kept w w'
  /\ (well_keyed w -> well_keyed w')
  /\ renames w' = renames w.
Proof.
  apply (line_worker_respects E MC o clients_kept).
  - intros x. split; [apply cache_kept_refl | auto].
  - intros w1 w2 w3 (Hc & Hk & Hr) (Hc' & Hk' & Hr').
    split; [eapply cache_kept_trans; eauto|]. split; [auto | congruence].
  - intros x y H. split; [now apply same_store_cache|].
    split; [now apply same_store_keyed | apply H].
  - intros addr a x r y H. now apply insert_kept in H.
Qed.

Lemma line_worker_keeps_clients_witness :
  well_keyed
    (snd (line_worker latin1 healthy default_options
            [Item (Some good_line); Item (Some mixed_line); Item None]
            fresh world0)).
Proof.
  apply (line_worker_keeps_clients latin1 healthy default_options
           [Item (Some good_line); Item (Some mixed_line); Item None]
           fresh world0).
  apply well_keyed_empty.
Defined.

(** X5.  In dry-run mode a worker only logs: whatever it is handed, its
    loop obtains no client, issues no set and renames nothing. *)
Theorem dry_run_only_logs E MC o gets st w :
  dry o = true ->
  same_store w (snd (line_worker E MC o gets st w)).
Proof.
  intros Hdry. apply (line_worker_respects E MC o same_store).
  - apply same_store_refl.
  - apply same_store_trans.
  - auto.
  - intros addr a x r y. rewrite Hdry.
    unfold insert_appsinstalled, bind at 1, lift.
    destruct (user_apps a) as [ua|e];
      [|intros [= <- <-]; apply same_store_refl].
    cbn. intros [= <- <-]. apply logging_same_store.
Qed.

Lemma dry_run_only_logs_witness :
  same_store world0
    (snd (line_worker latin1 unreachable dry_options
            [Item (Some good_line); Item (Some mixed_line); Item None]
            fresh world0)).
Proof.
  apply (dry_run_only_logs latin1 unreachable dry_options). reflexivity.
Defined.

Lemma get_client_caches_witness :
  exists c w1,
    get_client healthy (idfa default_options) world0 = (Ok c, w1)
    /\ get_client healthy (idfa default_options) w1 = (Ok c, w1).
Proof.
  do 2 eexists. split; [vm_compute; reflexivity|].
  eapply (proj1 (get_client_caches healthy (idfa default_options) world0)).
  vm_compute. reflexivity.
Defined.

Lemma insert_outcomes_witness :
  exists w',
    insert_appsinstalled healthy (gaid default_options) good_record false
      world0 = (Ok true, w')
    /\ length (sets w') = 1%nat.
Proof.
  assert (Hi : insert_appsinstalled healthy (gaid default_options)
                 good_record false world0
               = (Ok true, snd (insert_appsinstalled healthy
                   (gaid default_options) good_record false world0)))
    by (vm_compute; reflexivity).
  eexists. split; [exact Hi|].
  edestruct (insert_outcomes healthy (gaid default_options) good_record)
    as [Hok _]; [vm_compute; reflexivity | apply well_keyed_empty |].
  destruct (Hok _ Hi) as (Hs & _). rewrite Hs. reflexivity.
Defined.

(** ** The store key *)

Lemma key_split l1 : forall l2 r1 r2,
  has_colon l1 = false -> has_colon l2 = false ->
  l1 ++ 58 :: r1 = l2 ++ 58 :: r2 -> l1 = l2 /\ r1 = r2.
Proof.
  induction l1 as [|x l1 IH]; intros [|y l2] r1 r2 H1 H2 Heq; cbn in *.
  - injection Heq as <-. auto.
  - injection Heq as <- _. discriminate.
  - injection Heq as -> _. discriminate.
  - injection Heq as -> Heq.
    apply orb_false_iff in H1 as [_ H1]. apply orb_false_iff in H2 as [_ H2].
    destruct (IH _ _ _ H1 H2 Heq) as [-> ->]. auto.
Qed.

Lemma routed_device_type o dt addr :
  route o dt = Some addr ->
  dt = u "idfa" \/ dt = u "gaid" \/ dt = u "adid" \/ dt = u "dvid".
Proof.
  unfold route, device_memc. intros H.
  destruct (decide (dt = u "idfa")) as [|H1]; [auto|].
  destruct (decide (dt = u "gaid")) as [|H2]; [auto|].
  destruct (decide (dt = u "adid")) as [|H3]; [auto|].
  destruct (decide (dt = u "dvid")) as [|H4]; [auto|].
  rewrite !lookup_insert_ne, lookup_empty in H by congruence.
  discriminate.
Qed.

(** X6.  Among the records a worker writes, the store key tells the
    device: two records whose device types are routed and whose keys
    dev_type:dev_id are equal have the same device type and the same
    device id (a later write under the key replaces the value of the
    same device, never that of another one). *)
Theorem routed_keys_tell_the_device o a1 a2 addr1 addr2 :
  route o (dev_type a1) = Some addr1 ->
  route o (dev_type a2) = Some addr2 ->
  store_key a1 = store_key a2 ->
  dev_type a1 = dev_type a2 /\ dev_id a1 = dev_id a2 /\ addr1 = addr2.
Proof.
  intros H1 H2 Hk.
  assert (Hc : forall dt x, route o dt = Some x -> has_colon dt = false).
  { intros dt x H. apply routed_device_type in H as [-> | [-> | [-> | ->]]];
      reflexivity. }
  destruct (key_split _ _ _ _ (Hc _ _ H1) (Hc _ _ H2) Hk) as [Hdt Hid].
  split; [exact Hdt|]. split; [exact Hid|]. congruence.
Qed.

Lemma routed_keys_tell_the_device_witness :
  dev_type good_record = u "gaid" /\ dev_id good_record = u "7rfw452y52g2gq4g".
Proof.
  destruct (routed_keys_tell_the_device default_options good_record
              {| dev_type := u "gaid"; dev_id := u "7rfw452y52g2gq4g";
                 lat := fzero; lon := fzero; apps := [] |}
              (gaid default_options) (gaid default_options))
    as (H1 & H2 & _); try (vm_compute; reflexivity).
  split; [exact H1 | exact H2].
Defined.

(** ** Stripping *)

Section Strip.
Context {A : Type}.
Variable p : A -> bool.

Lemma lstrip_suffix s : exists pre, s = pre ++ lstrip p s.
Proof.
  induction s as [|c t [pre IH]]; [now exists []|].
  cbn [lstrip]. destruct (p c).
  - exists (c :: pre). cbn. now f_equal.
  - now exists [].
Qed.

Lemma lstrip_head s c t : lstrip p s = c :: t -> p c = false.
Proof.
  induction s as [|x s IH]; [discriminate|].
  cbn [lstrip]. destruct (p x) eqn:Hx; [exact IH|].
  now intros [= <- _].
Qed.

Lemma lstrip_fixed s :
  match s with [] => True | c :: _ => p c = false end -> lstrip p s = s.
Proof. destruct s as [|c t]; [reflexivity|]. cbn. now intros ->. Qed.

(** What strip returns starts and ends with a character it keeps. *)
Lemma strip_ends s :
  match strip_with p s with [] => True | c :: _ => p c = false end
  /\ match rev (strip_with p s) with [] => True | c :: _ => p c = false end.
Proof.
  unfold strip_with. rewrite rev_involutive.
  set (a := lstrip p s). set (r := lstrip p (rev a)).
  assert (Hr : match r with [] => True | c :: _ => p c = false end).
  { destruct r as [|c t] eqn:Hr; [exact I|]. now apply lstrip_head in Hr. }
  split; [|exact Hr].
  destruct (rev r) as [|c t] eqn:Hc; [exact I|].
  destruct (lstrip_suffix (rev a)) as [pre Hpre]. fold r in Hpre.
  apply (f_equal (@rev A)) in Hpre.
  rewrite rev_involutive, rev_app_distr, Hc in Hpre. cbn in Hpre.
  unfold a in Hpre. now apply lstrip_head in Hpre.
Qed.

Lemma strip_idempotent s : strip_with p (strip_with p s) = strip_with p s.
Proof.
  destruct (strip_ends s) as [Hh Ht].
  unfold strip_with at 1. rewrite (lstrip_fixed _ Hh), (lstrip_fixed _ Ht).
  apply rev_involutive.
Qed.

End Strip.

(** X7.  Every line the producer puts on the queue is non-empty and
    neither starts nor ends with an ASCII whitespace byte (stripping it
    again changes nothing), and no more lines are fed than were read. *)
Theorem fed_lines_are_stripped raw :
  Forall (fun l => l <> [] /\ bytes_strip l = l) (fed_lines raw)
  /\ (length (fed_lines raw) <= length raw)%nat.
Proof.
  unfold fed_lines. split.
  - apply List.Forall_forall. intros l Hin.
    apply filter_In in Hin as [Hin Hne].
    apply in_map_iff in Hin as (l0 & <- & _). split.
    + intros H. rewrite H in Hne. discriminate.
    + apply strip_idempotent.
  - etransitivity; [apply List.filter_length_le | now rewrite length_map].
Qed.

(** ** The fields of a line *)

Lemma split_cons sep c t :
  split sep (c :: t)
  = if c =? sep then [] :: split sep t
    else match split sep t with
         | f :: fs => (c :: f) :: fs
         | [] => [[c]]
         end.
Proof. reflexivity. Qed.

Lemma split_first sep c t :
  (c =? sep) = false ->
  exists f fs, split sep (c :: t) = (c :: f) :: fs.
Proof.
  intros H. cbn [split]. rewrite H.
  destruct (split sep t) as [|f fs]; eauto.
Qed.

Lemma split_last sep s :
  match rev s with [] => True | c :: _ => (c =? sep) = false end ->
  s <> [] ->
  exists fs f, split sep s = fs ++ [f] /\ f <> [].
Proof.
  induction s as [|c t IH]; [congruence|]. intros Hlast _.
  destruct t as [|c' t'].
  - cbn in *. rewrite Hlast. exists [], [c]. split; [reflexivity | discriminate].
  - destruct IH as (fs & f & Hs & Hf); [|discriminate|].
    { cbn [rev] in *. destruct (rev t' ++ [c']) as [|x l] eqn:Hr.
      - destruct (rev t'); discriminate.
      - cbn in Hlast. exact Hlast. }
    rewrite split_cons, Hs. destruct (c =? sep).
    + exists ([] :: fs), f. auto.
    + destruct fs as [|g gs]; cbn.
      * exists [], (c :: f). split; [reflexivity | discriminate].
      * exists ((c :: g) :: gs), f. auto.
Qed.

Lemma first_field_not_empty s f fs :
  split TAB (str_strip s) = f :: fs -> fs <> [] -> f <> [].
Proof.
  intros Hs Hfs. destruct (strip_ends isspace s) as [Hh _].
  fold (str_strip s) in Hh.
  destruct (str_strip s) as [|c t]; [cbn in Hs; congruence|].
  destruct (split_first TAB c t) as (g & gs & Hg).
  { destruct (c =? TAB) eqn:Hc; [|reflexivity].
    apply N.eqb_eq in Hc. subst c. discriminate. }
  rewrite Hg in Hs. injection Hs as <- _. discriminate.
Qed.

(** X8.  In a line of five fields the device type and the apps field
    are never empty: the text was stripped before it was split and a
    tab is whitespace, so the line neither starts nor ends with a tab.
    Of the two tests of parse_appsinstalled on empty identifiers only
    the one on the device id can fire. *)
Theorem five_fields_have_ends s dt di la lo raw :
  split TAB (str_strip s) = [dt; di; la; lo; raw] ->
  dt <> [] /\ raw <> [].
Proof.
  intros Hs. split; [eapply first_field_not_empty; [exact Hs | discriminate]|].
  destruct (strip_ends isspace s) as [_ Ht].
  fold (str_strip s) in Ht.
  destruct (str_strip s) as [|c t] eqn:Hstrip; [discriminate|].
  destruct (split_last TAB (c :: t)) as (fs & f & Hf & Hne);
    [|discriminate|].
  { destruct (rev (c :: t)) as [|x l]; [exact I|].
    destruct (x =? TAB) eqn:Hx; [|reflexivity].
    apply N.eqb_eq in Hx. subst x. discriminate. }
  rewrite Hf in Hs.
  destruct fs as [|f1 [|f2 [|f3 [|f4 [|f5 fs]]]]]; try discriminate.
  - injection Hs as _ _ _ _ <-. exact Hne.
  - destruct fs; discriminate.
Qed.

Lemma five_fields_have_ends_witness :
  u "idfa" <> [] /\ u "10,abc,30" <> [].
Proof.
  apply (five_fields_have_ends
           (u " " ++ u "idfa" ++ [TAB] ++ u "X1" ++ [TAB] ++ u "55.55"
            ++ [TAB] ++ u "42.42" ++ [TAB] ++ u "10,abc,30" ++ [TAB])
           (u "idfa") (u "X1") (u "55.55") (u "42.42") (u "10,abc,30")).
  vm_compute. reflexivity.
Defined.

(** ** What the parser returns and when it raises *)

Lemma utf8_raises l e : utf8 l = Raise e -> e = UnicodeDecodeError.
Proof.
  remember (length l) as n eqn:Hn.
  assert (Hle : (length l <= n)%nat) by lia. clear Hn.
  revert l Hle. induction n as [|n IH]; intros l Hle.
  - destruct l; [discriminate | simpl in Hle; lia].
  - assert (Hk : forall t (k : str -> result str),
               (length t <= n)%nat ->
               (forall s, k s <> Raise e \/ e = UnicodeDecodeError) ->
               rbind (utf8 t) k = Raise e -> e = UnicodeDecodeError).
    { intros t k Ht Hk Hr. destruct (utf8 t) as [s|e'] eqn:Hu; cbn in Hr.
      - destruct (Hk s); [contradiction | assumption].
      - injection Hr as ->. eapply IH; eauto. }
    destruct l as [|b0 t0]; [discriminate|]. cbn [utf8]. simpl in Hle.
    repeat match goal with
           | |- (if ?c then _ else _) = _ -> _ => destruct c
           | |- match ?t with [] => _ | _ :: _ => _ end = _ -> _ =>
             destruct t; simpl in Hle
           | |- Raise _ = Raise _ -> _ => now intros [= <-]
           | |- rbind _ _ = _ -> _ =>
             apply Hk; [lia | intros s; left; discriminate]
           end.
Qed.

Section Parsing.
Variable E : env.

Lemma py_float_raises s e : py_float E s = Raise e -> e = ValueError.
Proof.
  unfold py_float. destruct (underscores_ok 0 _); [|congruence].
  destruct (float_literal _); congruence.
Qed.

Lemma parse_geo_raises la lo e : parse_geo E la lo = Raise e -> e = ValueError.
Proof.
  unfold parse_geo. destruct (py_float E la) as [x|e1] eqn:H1; cbn.
  - destruct (py_float E lo) as [y|e2] eqn:H2; cbn; [discriminate|].
    intros [= <-]. now apply py_float_raises in H2.
  - intros [= <-]. now apply py_float_raises in H1.
Qed.

Lemma mapM_raises_inv {A B} (f : A -> result B) l e :
  mapM f l = Raise e -> exists a, In a l /\ f a = Raise e.
Proof.
  induction l as [|x l IH]; [discriminate|].
  cbn. destruct (f x) as [y|e'] eqn:Hx; cbn.
  - destruct (mapM f l) as [ys|e'']; cbn; [discriminate|].
    intros [= <-]. destruct IH as (a & Ha & Hf); [reflexivity|].
    exists a. auto.
  - intros [= <-]. exists x. auto.
Qed.

(** The parser after decoding and splitting into five fields of which
    the second is not empty. *)
Lemma parse_five_fields line s dt di la lo raw w :
  decode_utf8 line = Ok s ->
  split TAB (str_strip s) = [dt; di; la; lo; raw] ->
  di <> [] ->
  parse_appsinstalled E line w
  = match parse_apps E raw (str_strip s) w with
    | (Ok ids, w1) =>
      match parse_geo E la lo with
      | Ok geo =>
        (Ok (Some {| dev_type := dt; dev_id := di; lat := fst geo;
                     lon := snd geo; apps := ids |}), w1)
      | Raise _ =>
        (Ok None, add_log w1 INFO (InvalidGeo (str_strip s)))
      end
    | (Raise e, w1) => (Raise e, w1)
    end.
Proof.
  intros Hd Hs Hdi.
  assert (Hdt : dt <> [])
    by (eapply first_field_not_empty; [exact Hs | discriminate]).
  unfold parse_appsinstalled, bind at 1, lift at 1. rewrite Hd, Hs.
  change (length [dt; di; la; lo; raw] <? 5)%nat with false. cbv iota.
  rewrite !bool_decide_eq_false_2 by assumption. cbn [orb].
  unfold bind at 1.
  destruct (parse_apps E raw (str_strip s) w) as [[ids|e] w1]; [|reflexivity].
  unfold try_except, bind, lift.
  destruct (parse_geo E la lo) as [geo|e] eqn:Hg; [reflexivity|].
  apply parse_geo_raises in Hg as ->. reflexivity.
Qed.

Lemma parse_apps_raises raw l w e w' :
  parse_apps E raw l w = (Raise e, w') -> e = ValueError /\ w' = w.
Proof.
  unfold parse_apps, try_except, lift.
  destruct (mapM _ (split COMMA raw)) as [ids|e1] eqn:H1; [discriminate|].
  apply mapM_raises_inv in H1 as (a1 & _ & H1).
  apply py_int_raises in H1 as ->. cbn [is_ValueError]. unfold bind.
  destruct (mapM _ (List.filter _ _)) as [ids|e2] eqn:H2; [discriminate|].
  intros [= <- <-]. apply mapM_raises_inv in H2 as (a & _ & H2).
  now apply py_int_raises in H2.
Qed.

(** What the parser raises is a ValueError (UnicodeDecodeError is
    one), and it raises before it logs. *)
Lemma parse_raises_kind line w e w' :
  parse_appsinstalled E line w = (Raise e, w') ->
  is_ValueError e = true /\ w' = w.
Proof.
  intros Hp. destruct (decode_utf8 line) as [s|e0] eqn:Hd.
  - destruct (Nat.lt_trichotomy (length (split TAB (str_strip s))) 5)
      as [Hlt | [Heq | Hgt]].
    + rewrite (parse_too_short E line s w Hd Hlt) in Hp. discriminate.
    + destruct (split TAB (str_strip s))
        as [|dt [|di [|la [|lo [|raw [|x xs]]]]]] eqn:Hs; try discriminate.
      destruct di as [|d0 di0].
      { rewrite (parse_empty_id E line s dt [] la lo raw w Hd Hs) in Hp
          by auto. discriminate. }
      rewrite (parse_five_fields line s dt _ la lo raw w Hd Hs) in Hp
        by discriminate.
      destruct (parse_apps E raw (str_strip s) w) as [[ids|e1] w1] eqn:Ha.
      * destruct (parse_geo E la lo); discriminate.
      * injection Hp as <- <-. now apply parse_apps_raises in Ha as [-> ->].
    + rewrite (parse_too_long E line s w Hd Hgt) in Hp.
      now injection Hp as <- <-.
  - rewrite (parse_undecodable E line e0 w Hd) in Hp.
    injection Hp as <- <-. unfold decode_utf8 in Hd.
    now apply utf8_raises in Hd as ->.
Qed.

(** X9.  A line that decodes and splits into five fields with a
    device id, whose apps are all integer literals (surrounding blanks
    and a sign included) and whose coordinates float() accepts, gives
    the record of exactly these values and logs nothing. *)
Theorem parse_well_formed_line line s dt di la lo raw ids x y w :
  decode_utf8 line = Ok s ->
  split TAB (str_strip s) = [dt; di; la; lo; raw] ->
  di <> [] ->
  mapM (fun a => py_int E (str_strip a)) (split COMMA raw) = Ok ids ->
  py_float E la = Ok x ->
  py_float E lo = Ok y ->
  parse_appsinstalled E line w
  = (Ok (Some {| dev_type := dt; dev_id := di; lat := x; lon := y;
                 apps := ids |}), w).
Proof.
  intros Hd Hs Hdi Hids Hx Hy.
  rewrite (parse_five_fields line s dt di la lo raw w Hd Hs Hdi).
  unfold parse_apps, try_except, lift, parse_geo. now rewrite Hids, Hx, Hy.
Qed.

(** X10.  When float() refuses the latitude or the longitude of such a
    line, parse_appsinstalled logs the invalid coordinates and returns
    None, whatever the apps field gave: there is no fallback for the
    coordinates. *)
Theorem parse_bad_coordinates line s dt di la lo raw ids e w w1 :
  decode_utf8 line = Ok s ->
  split TAB (str_strip s) = [dt; di; la; lo; raw] ->
  di <> [] ->
  parse_apps E raw (str_strip s) w = (Ok ids, w1) ->
  parse_geo E la lo = Raise e ->
  parse_appsinstalled E line w
  = (Ok None, add_log w1 INFO (InvalidGeo (str_strip s))).
Proof.
  intros Hd Hs Hdi Hids Hg.
  rewrite (parse_five_fields line s dt di la lo raw w Hd Hs Hdi).
  now rewrite Hids, Hg.
Qed.

(** X11.  parse_appsinstalled raises in exactly three cases, and then
    leaves no trace: the line is not UTF-8 (the decoder's exception);
    the line has more than five fields (ValueError of the unpacking);
    the line has five fields and a device id, and some element of the
    apps field passes isdigit() while int() refuses it (ValueError
    raised again inside the handler of the first one). *)
Theorem parse_raises_exactly line w e w' :
  parse_appsinstalled E line w = (Raise e, w') <->
  w' = w
  /\ (decode_utf8 line = Raise e
      \/ (e = ValueError
          /\ exists s,
              decode_utf8 line = Ok s
              /\ ((5 < length (split TAB (str_strip s)))%nat
                  \/ exists dt di la lo raw,
                      split TAB (str_strip s) = [dt; di; la; lo; raw]
                      /\ di <> []
                      /\ exists a, In a (split COMMA raw)
                                   /\ isdigit E a = true
                                   /\ py_int E (str_strip a)
                                      = Raise ValueError))).
Proof.
  split.
  - intros Hp. destruct (decode_utf8 line) as [s|e0] eqn:Hd.
    + destruct (Nat.lt_trichotomy (length (split TAB (str_strip s))) 5)
        as [Hlt | [Heq | Hgt]].
      * rewrite (parse_too_short E line s w Hd Hlt) in Hp. discriminate.
      * destruct (split TAB (str_strip s))
          as [|dt [|di [|la [|lo [|raw [|x xs]]]]]] eqn:Hs; try discriminate.
        destruct di as [|d0 di0] eqn:Edi; [|assert (Hdi : d0 :: di0 <> []) by discriminate].
        { rewrite (parse_empty_id E line s dt [] la lo raw w Hd Hs) in Hp
            by auto. discriminate. }
        rewrite (parse_five_fields line s dt _ la lo raw w Hd Hs Hdi) in Hp.
        unfold parse_apps, try_except, lift in Hp.
        destruct (mapM _ (split COMMA raw)) as [ids|e1] eqn:H1.
        { destruct (parse_geo E la lo); discriminate. }
        apply mapM_raises_inv in H1 as (a1 & _ & H1).
        apply py_int_raises in H1 as ->. cbn [is_ValueError] in Hp.
        unfold bind in Hp.
        destruct (mapM _ (List.filter _ _)) as [ids|e2] eqn:H2.
        { cbn in Hp. destruct (parse_geo E la lo); discriminate. }
        injection Hp as <- <-.
        apply mapM_raises_inv in H2 as (a & Ha & H2).
        pose proof (py_int_raises E _ _ H2) as ->.
        apply filter_In in Ha as [Ha Hdig].
        split; [reflexivity|]. right. split; [reflexivity|].
        exists s. split; [reflexivity|]. right.
        exists dt, (d0 :: di0), la, lo, raw. eauto 10.
      * rewrite (parse_too_long E line s w Hd Hgt) in Hp.
        injection Hp as <- <-. split; [reflexivity|]. right. eauto.
    + rewrite (parse_undecodable E line e0 w Hd) in Hp.
      injection Hp as <- <-. auto.
  - intros (-> & [Hd | (-> & s & Hd & [Hgt | Hbad])]).
    + now apply parse_undecodable.
    + now apply parse_too_long with s.
    + destruct Hbad as (dt & di & la & lo & raw & Hs & Hdi & a & Ha & Hdig & Hint).
      rewrite (parse_five_fields line s dt di la lo raw w Hd Hs Hdi).
      unfold parse_apps, try_except, lift.
      destruct (mapM_raises (fun a => py_int E (str_strip a)) _ a _ Ha Hint)
        as (a1 & e1 & _ & He1 & ->).
      apply py_int_raises in He1 as ->. cbn [is_ValueError]. unfold bind.
      assert (Hin : In a (List.filter (fun a => isdigit E a) (split COMMA raw)))
        by (apply filter_In; auto).
      destruct (mapM_raises (fun a => py_int E (str_strip a)) _ a _ Hin Hint)
        as (a2 & e2 & _ & He2 & ->).
      now apply py_int_raises in He2 as ->.
Qed.

End Parsing.

Lemma parse_well_formed_line_witness :
  fst (parse_appsinstalled latin1 signed_line world0)
  = Ok (Some {| dev_type := u "adid"; dev_id := u "d-1";
                lat := float_of_decimal true 5 (-1);
                lon := float_of_decimal false 1 3;
                apps := [7; -3; 12]%Z |}).
Proof.
  rewrite (parse_well_formed_line latin1 signed_line
             (u "adid" ++ [TAB] ++ u "d-1" ++ [TAB] ++ u "-.5" ++ [TAB]
              ++ u "1e3" ++ [TAB] ++ u " 7,-3 ,1_2")
             (u "adid") (u "d-1") (u "-.5") (u "1e3") (u " 7,-3 ,1_2")
             [7; -3; 12]%Z (float_of_decimal true 5 (-1))
             (float_of_decimal false 1 3) world0);
    try (vm_compute; reflexivity).
  discriminate.
Defined.

Lemma parse_bad_coordinates_witness :
  fst (parse_appsinstalled latin1 mixed_line_bad_geo world0) = Ok None
  /\ length (logs (snd (parse_appsinstalled latin1 mixed_line_bad_geo world0)))
     = 2%nat.
Proof.
  set (s := (u "idfa" ++ [TAB] ++ u "X1" ++ [TAB] ++ u "north" ++ [TAB]
             ++ u "42.42" ++ [TAB] ++ u "10,abc,30")%list).
  rewrite (parse_bad_coordinates latin1 mixed_line_bad_geo s
             (u "idfa") (u "X1") (u "north") (u "42.42") (u "10,abc,30")
             [10; 30]%Z ValueError world0
             (snd (parse_apps latin1 (u "10,abc,30") (str_strip s) world0)));
    try (vm_compute; reflexivity).
  - split; vm_compute; reflexivity.
  - discriminate.
Defined.

Lemma parse_raises_exactly_witness :
  parse_appsinstalled latin1 superscript_line world0
  = (Raise ValueError, world0).
Proof.
  apply (proj2 (parse_raises_exactly latin1 superscript_line world0
                  ValueError world0)).
  split; [reflexivity|]. right. split; [reflexivity|].
  exists (u "idfa" ++ [TAB] ++ u "X1" ++ [TAB] ++ u "55.55" ++ [TAB]
          ++ u "42.42" ++ [TAB] ++ u "10,abc," ++ [0xB2]).
  split; [vm_compute; reflexivity|]. right.
  exists (u "idfa"), (u "X1"), (u "55.55"), (u "42.42"),
    (u "10,abc," ++ [0xB2]).
  split; [vm_compute; reflexivity|]. split; [discriminate|].
  exists [0xB2]. split; [right; right; left; reflexivity|].
  split; vm_compute; reflexivity.
Defined.

(** ** The loop of one worker *)

Section Loop.
Variable E : env.
Variable MC : memcache.
Variable o : options.

Lemma insert_raises_inv addr a dry_run e w w' :
  insert_appsinstalled MC addr a dry_run w = (Raise e, w') ->
  user_apps a = Raise e /\ w' = w.
Proof.
  unfold insert_appsinstalled, bind at 1, lift.
  destruct (user_apps a) as [ua|e0]; [|now intros [= <- <-]].
  unfold try_except, bind at 1. destruct dry_run.
  - cbn. discriminate.
  - destruct (store_write MC addr (store_key a) (SerializeToString ua) w)
      as [[[]|e1] w1]; cbn; discriminate.
Qed.

Lemma count_adds_one c st :
  (processed (count c st) + errors (count c st)
   = S (processed st + errors st))%nat
  /\ (processed st <= processed (count c st))%nat
  /\ (errors st <= errors (count c st))%nat.
Proof. destruct c; cbn; lia. Qed.

Lemma line_outcome_raises_inv line e w w' :
  line_outcome E MC o line w = (Raise e, w') ->
  parse_appsinstalled E line w = (Raise e, w')
  \/ exists a addr,
       parse_appsinstalled E line w = (Ok (Some a), w')
       /\ route o (dev_type a) = Some addr
       /\ user_apps a = Raise e.
Proof.
  unfold line_outcome, bind.
  destruct (parse_appsinstalled E line w) as [[[a|]|e0] w1];
    [| discriminate | now intros [= <- <-]; left].
  destruct (route o (dev_type a)) as [addr|] eqn:Hr; [|discriminate].
  destruct (insert_appsinstalled MC addr a (dry o) w1) as [[ok|e1] w2] eqn:Hi;
    [discriminate|].
  intros [= <- <-]. apply insert_raises_inv in Hi as [Hu ->].
  right. eauto.
Qed.

Lemma line_worker_counts_total gets : forall st w st' w',
  line_worker E MC o gets st w = (Ok st', w') ->
  (processed st <= processed st')%nat /\ (errors st <= errors st')%nat.
Proof.
  induction gets as [|g rest IH]; intros st w st' w' H.
  - injection H as <- _. lia.
  - destruct g as [|[line|]];
      [injection H as <- _; lia | | injection H as <- _; lia].
    cbn [line_worker] in H. unfold bind in H. rewrite turn_outcome in H.
    destruct (line_outcome E MC o line w) as [[c|e] w1]; [|discriminate].
    cbn [fst snd] in H. apply IH in H.
    destruct (count_adds_one c st) as (_ & Hp & He). lia.
Qed.

(** X12.  A worker whose loop returns has counted every line it was
    handed before the close signal or the timeout exactly once, in one
    of the two counters, and has lowered neither. *)
Theorem line_worker_counts_each_line gets : forall st w st' w',
  line_worker E MC o gets st w = (Ok st', w') ->
  (processed st' + errors st'
   = processed st + errors st + lines_handled gets)%nat
  /\ (processed st <= processed st')%nat
  /\ (errors st <= errors st')%nat.
Proof.
  induction gets as [|g rest IH]; intros st w st' w' H.
  - injection H as <- _. cbn. lia.
  - destruct g as [|[line|]];
      [injection H as <- _; cbn; lia | | injection H as <- _; cbn; lia].
    cbn [line_worker] in H. unfold bind in H. rewrite turn_outcome in H.
    destruct (line_outcome E MC o line w) as [[c|e] w1]; [|discriminate].
    cbn [fst snd] in H. apply IH in H.
    destruct (count_adds_one c st) as (Hc & Hp & He).
    cbn [lines_handled]. lia.
Qed.

(** X13.  The loop of a worker raises only on a line it was handed:
    either parse_appsinstalled raises on it, or the line parses, its
    device type has a memcached address and the message cannot be
    built from the record.  Nothing that memcached does makes the
    loop raise. *)
Theorem line_worker_raises_on_a_line gets : forall st w e w',
  line_worker E MC o gets st w = (Raise e, w') ->
  exists line w0,
    In (Item (Some line)) gets
    /\ (parse_appsinstalled E line w0 = (Raise e, w')
        \/ exists a addr,
             parse_appsinstalled E line w0 = (Ok (Some a), w')
             /\ route o (dev_type a) = Some addr
             /\ user_apps a = Raise e).
Proof.
  induction gets as [|g rest IH]; intros st w e w' H; [discriminate|].
  destruct g as [|[line|]]; [discriminate | | discriminate].
  cbn [line_worker] in H. unfold bind in H. rewrite turn_outcome in H.
  destruct (line_outcome E MC o line w) as [[c|e0] w1] eqn:Ho.
  - cbn [fst snd] in H. apply IH in H as (l & w0 & Hin & Hl).
    exists l, w0. split; [now right | exact Hl].
  - injection H as <- <-. apply line_outcome_raises_inv in Ho.
    exists line, w. split; [now left | exact Ho].
Qed.

(** X14.  A worker stops at the first close signal and at the first
    timeout: what comes after it in the queue is not looked at, so the
    result is that of the lines before it. *)
Theorem line_worker_stops gets stop rest : forall st w,
  stop = Empty \/ stop = Item None ->
  line_worker E MC o (gets ++ stop :: rest) st w
  = line_worker E MC o gets st w.
Proof.
  intros st w Hs. revert st w.
  induction gets as [|g gets' IH]; intros st w.
  - destruct Hs as [-> | ->]; reflexivity.
  - cbn [app line_worker]. unfold bind.
    destruct (line_worker_turn E MC o g st w) as [[[[] st1]|e] w1];
      cbn [fst snd]; [apply IH | reflexivity | reflexivity].
Qed.

End Loop.

Lemma line_worker_counts_each_line_witness :
  exists st' w',
    line_worker latin1 healthy default_options
      [Item (Some good_line); Item (Some short_line); Item None;
       Item (Some good_line)] fresh world0 = (Ok st', w')
    /\ (processed st' + errors st' = 2)%nat.
Proof.
  eexists _, _. split; [vm_compute; reflexivity|].
  edestruct (line_worker_counts_each_line latin1 healthy default_options
               [Item (Some good_line); Item (Some short_line); Item None;
                Item (Some good_line)] fresh world0) as (H & _);
    [vm_compute; reflexivity|].
  exact H.
Defined.

Lemma line_worker_raises_on_a_line_witness :
  exists line w0 w',
    In (Item (Some line)) [Item (Some good_line); Item (Some long_line)]
    /\ (parse_appsinstalled latin1 line w0 = (Raise ValueError, w')
        \/ exists a addr,
             parse_appsinstalled latin1 line w0 = (Ok (Some a), w')
             /\ route default_options (dev_type a) = Some addr
             /\ user_apps a = Raise ValueError).
Proof.
  edestruct (line_worker_raises_on_a_line latin1 healthy default_options
               [Item (Some good_line); Item (Some long_line)] fresh world0)
    as (line & w0 & H); [vm_compute; reflexivity|].
  exists line, w0. eexists. exact H.
Defined.

Lemma line_worker_stops_witness :
  line_worker latin1 healthy default_options
    ([Item (Some good_line)] ++ Item None :: [Item (Some good_line)])
    fresh world0
  = line_worker latin1 healthy default_options [Item (Some good_line)]
      fresh world0.
Proof.
  apply (line_worker_stops latin1 healthy default_options
           [Item (Some good_line)] (Item None) [Item (Some good_line)]
           fresh world0).
  right. reflexivity.
Defined.

(** ** Records and writes *)

Section Records.
Variable E : env.

(** X15.  Every record parse_appsinstalled returns comes from a line
    of exactly five fields with a device type and a device id: the
    coordinates are what float() makes of the third and fourth field,
    and the apps are either all elements of the fifth field read by
    int(), with nothing logged, or, when some element is not an
    integer, those that pass isdigit(), with one message at level
    INFO. *)
Theorem parse_record_inv line w a w' :
  parse_appsinstalled E line w = (Ok (Some a), w') ->
  exists s la lo raw,
    decode_utf8 line = Ok s
    /\ split TAB (str_strip s) = [dev_type a; dev_id a; la; lo; raw]
    /\ dev_type a <> [] /\ dev_id a <> []
    /\ py_float E la = Ok (lat a) /\ py_float E lo = Ok (lon a)
    /\ ((mapM (fun x => py_int E (str_strip x)) (split COMMA raw)
         = Ok (apps a) /\ w' = w)
        \/ (exists x, In x (split COMMA raw)
                      /\ py_int E (str_strip x) = Raise ValueError)
           /\ mapM (fun x => py_int E (str_strip x))
                   (List.filter (fun x => isdigit E x) (split COMMA raw))
              = Ok (apps a)
           /\ w' = add_log w INFO (NotAllDigits (str_strip s))).
Proof.
  intros Hp. destruct (decode_utf8 line) as [s|e0] eqn:Hd;
    [|rewrite (parse_undecodable E line e0 w Hd) in Hp; discriminate].
  destruct (Nat.lt_trichotomy (length (split TAB (str_strip s))) 5)
    as [Hlt | [Heq | Hgt]];
    [rewrite (parse_too_short E line s w Hd Hlt) in Hp; discriminate | |
     rewrite (parse_too_long E line s w Hd Hgt) in Hp; discriminate].
  destruct (split TAB (str_strip s))
    as [|dt [|di [|la [|lo [|raw [|x xs]]]]]] eqn:Hs; try discriminate.
  destruct di as [|d0 di0].
  { rewrite (parse_empty_id E line s dt [] la lo raw w Hd Hs) in Hp by auto.
    discriminate. }
  assert (Hdt : dt <> [])
    by (eapply first_field_not_empty; [exact Hs | discriminate]).
  rewrite (parse_five_fields E line s dt _ la lo raw w Hd Hs) in Hp
    by discriminate.
  destruct (parse_apps E raw (str_strip s) w) as [[ids|e1] w1] eqn:Ha;
    [|discriminate].
  unfold parse_geo in Hp.
  destruct (py_float E la) as [x|ex] eqn:Hx; [|discriminate].
  destruct (py_float E lo) as [y|ey] eqn:Hy; [|discriminate].
  cbn in Hp. injection Hp as <- <-. cbn [dev_type dev_id lat lon apps].
  exists s, la, lo, raw. repeat (split; [solve [auto | discriminate]|]).
  unfold parse_apps, try_except, lift in Ha.
  destruct (mapM _ (split COMMA raw)) as [all|e1] eqn:H1.
  - injection Ha as <- <-. now left.
  - apply mapM_raises_inv in H1 as (b & Hb & H1).
    pose proof (py_int_raises E _ _ H1) as ->.
    cbn [is_ValueError] in Ha. unfold bind in Ha.
    destruct (mapM _ (List.filter _ _)) as [some|e2] eqn:H2; [|discriminate].
    cbn in Ha. injection Ha as <- <-. right. eauto.
Qed.

End Records.

Lemma parse_record_inv_witness :
  exists s la lo raw,
    decode_utf8 mixed_line = Ok s
    /\ split TAB (str_strip s) = [u "idfa"; u "X1"; la; lo; raw]
    /\ py_float latin1 la = Ok (float_of_decimal false 5555 (-2)).
Proof.
  edestruct (parse_record_inv latin1 mixed_line world0)
    as (s & la & lo & raw & Hd & Hs & _ & _ & Hla & _);
    [vm_compute; reflexivity|].
  exists s, la, lo, raw. split; [exact Hd|]. split; [exact Hs | exact Hla].
Defined.

Section Writes.
Variable E : env.
Variable MC : memcache.
Variable o : options.

Lemma store_write_count addr key packed w r w' :
  store_write MC addr key packed w = (r, w') ->
  (length (sets w) <= length (sets w') <= S (length (sets w)))%nat
  /\ (r = Ok tt -> length (sets w') = S (length (sets w))).
Proof.
  unfold store_write, bind.
  destruct (get_client MC addr w) as [[c|e] w1] eqn:Hc;
    apply get_client_sets in Hc as [Hs _].
  - unfold memc_set. destruct (set_fault MC _ c key packed);
      intros [= <- <-]; cbn [sets]; rewrite length_app, Hs; cbn [length];
      (split; [lia | intros; try discriminate; lia]).
  - intros [= <- <-]. rewrite Hs. split; [lia | discriminate].
Qed.

Lemma insert_count addr a w ok w' :
  insert_appsinstalled MC addr a false w = (Ok ok, w') ->
  (length (sets w) <= length (sets w') <= S (length (sets w)))%nat
  /\ (ok = true -> length (sets w') = S (length (sets w))).
Proof.
  intros Hi. destruct (user_apps a) as [ua|e] eqn:Hu.
  - destruct (store_write MC addr (store_key a) (SerializeToString ua) w)
      as [[[]|e] w1] eqn:Hw;
      pose proof (store_write_count _ _ _ _ _ _ Hw) as [Hle Heq].
    + rewrite (insert_when_write_returns MC addr a ua w w1 Hu Hw) in Hi.
      injection Hi as <- <-. auto.
    + rewrite (insert_when_write_raises MC addr a ua e w w1 Hu Hw) in Hi.
      injection Hi as <- <-. cbn [sets add_log].
      split; [exact Hle | discriminate].
  - unfold insert_appsinstalled, bind at 1, lift in Hi. rewrite Hu in Hi.
    discriminate.
Qed.

Lemma line_outcome_count line w c w' :
  dry o = false ->
  line_outcome E MC o line w = (Ok c, w') ->
  (length (sets w) <= length (sets w') <= S (length (sets w)))%nat
  /\ (c = Processed -> length (sets w') = S (length (sets w))).
Proof.
  intros Hdry. unfold line_outcome, bind.
  destruct (parse_appsinstalled E line w) as [[[a|]|e] w1] eqn:Hp;
    try discriminate; apply parse_same_store in Hp as (_ & Hs & _).
  - destruct (route o (dev_type a)) as [addr|].
    + rewrite Hdry.
      destruct (insert_appsinstalled MC addr a false w1) as [[ok|e] w2] eqn:Hi;
        [|discriminate].
      apply insert_count in Hi as [Hle Heq]. intros [= <- <-].
      rewrite <- Hs. split; [exact Hle|]. destruct ok; [auto | discriminate].
    + cbn. intros [= <- <-]. cbn [sets add_log]. rewrite Hs.
      split; [lia | discriminate].
  - intros [= <- <-]. rewrite Hs. split; [lia | discriminate].
Qed.

(** X16.  Without --dry, every line a worker counts as processed was
    sent to memcached, and no line is sent twice: when the loop
    returns, the number of set calls made lies between the increase of
    the processed counter and the number of lines handled. *)
Theorem processed_lines_were_sent gets : forall st w st' w',
  dry o = false ->
  line_worker E MC o gets st w = (Ok st', w') ->
  (length (sets w) + (processed st' - processed st) <= length (sets w')
   <= length (sets w) + lines_handled gets)%nat.
Proof.
  intros st w st' w' Hdry. revert st w.
  induction gets as [|g rest IH]; intros st w H.
  - injection H as <- <-. cbn. lia.
  - destruct g as [|[line|]];
      [injection H as <- <-; cbn; lia | | injection H as <- <-; cbn; lia].
    cbn [line_worker] in H. unfold bind in H. rewrite turn_outcome in H.
    destruct (line_outcome E MC o line w) as [[c|e] w1] eqn:Ho;
      [|discriminate].
    cbn [fst snd] in H.
    pose proof (line_worker_counts_total E MC o rest _ _ _ _ H) as Hmono.
    apply IH in H.
    destruct (line_outcome_count line w c w1 Hdry Ho) as [Hle Heq].
    cbn [lines_handled].
    destruct c; cbn [count add_processed add_error processed] in *.
    + specialize (Heq eq_refl). lia.
    + lia.
Qed.

End Writes.

Lemma processed_lines_were_sent_witness :
  exists st' w',
    line_worker latin1 healthy default_options
      [Item (Some good_line); Item (Some short_line); Item None]
      fresh world0 = (Ok st', w')
    /\ (1 <= length (sets w') <= 2)%nat.
Proof.
  eexists _, _. split; [vm_compute; reflexivity|].
  edestruct (processed_lines_were_sent latin1 healthy default_options
               [Item (Some good_line); Item (Some short_line); Item None]
               fresh world0) as (H1 & H2);
    [reflexivity | vm_compute; reflexivity |].
  split; [exact H1 | exact H2].
Defined.

(** ** The queue and the close signals *)

Lemma queued_closes_app q1 q2 :
  queued_closes (q1 ++ q2) = (queued_closes q1 + queued_closes q2)%nat.
Proof. unfold queued_closes. now rewrite map_app, list_sum_app. Qed.

Lemma sum_over_split f g ts :
  (forall t, In t ts -> (f t + g t = 1)%nat) ->
  (sum_over f ts + sum_over g ts = length ts)%nat.
Proof.
  unfold sum_over. induction ts as [|t ts IH]; intros H; [reflexivity|].
  pose proof (H t (or_introl eq_refl)) as Ht.
  assert (IH' : (list_sum (map f ts) + list_sum (map g ts) = length ts)%nat)
    by (apply IH; intros x Hx; apply H; now right).
  simpl. lia.
Qed.

Section Signals.
Variable E : env.
Variable MC : memcache.
Variable o : options.
Variable filename : str.

Lemma queue_bound_step p q :
  step E MC o filename p q ->
  N.of_nat (length (queue p)) <= MAXSIZE ->
  N.of_nat (length (queue q)) <= MAXSIZE.
Proof.
  intros Hstep Hb. inversion Hstep; subst; proj; try exact Hb;
    try (rewrite length_app; cbn [length]; lia);
    match goal with H : queue _ = _ :: _ |- _ => rewrite H in Hb end;
    cbn [length] in Hb; lia.
Qed.

Lemma closes_step p q n :
  step E MC o filename p q ->
  (closes p + queued_closes (queue p) + sum_over stopped (threads p) = n)%nat ->
  (closes q + queued_closes (queue q) + sum_over stopped (threads q) = n)%nat.
Proof.
  intros Hstep <-.
  inversion Hstep; subst; proj;
    try match goal with
        | H : threads _ !! _ = Some _ |- context [<[_ := ?t']> _] =>
          pose proof (sum_over_insert stopped _ _ _ t' H) as Hins;
          cbn [stopped] in Hins
        end;
    try match goal with H : queue _ = _ |- _ => rewrite H end;
    try match goal with H : closes _ = _ |- _ => rewrite H end;
    rewrite ?queued_closes_app; unfold queued_closes; simpl; lia.
Qed.

(** X17.  The queue never holds more than 10000 items, in any
    interleaving of the producer and the workers. *)
Theorem queue_never_overfull f w p :
  steps E MC o filename (start o f w) p ->
  N.of_nat (length (queue p)) <= 10000.
Proof.
  intros Hs. change 10000 with MAXSIZE.
  remember (start o f w) as p0 eqn:Hp0.
  induction Hs as [|p q r Hs IH Hstep]; [subst; cbn; unfold MAXSIZE; lia|].
  eapply queue_bound_step; [exact Hstep | now apply IH].
Qed.

(** X18.  One close signal per worker: at every moment the signals
    still to be put, those in the queue and the workers that took one
    add up to the number of workers.  So when process_file goes on to
    collect the results, every worker that left on a timeout or on an
    exception has left one signal unread in the queue. *)
Theorem one_close_signal_per_worker f w p :
  steps E MC o filename (start o f w) p ->
  (closes p + queued_closes (queue p) + sum_over stopped (threads p)
   = workers o)%nat
  /\ (finished p ->
      queued_closes (queue p) = sum_over gave_up (threads p)).
Proof.
  intros Hs.
  assert (Hn : (closes p + queued_closes (queue p)
                + sum_over stopped (threads p) = workers o)%nat).
  { remember (start o f w) as p0 eqn:Hp0.
    induction Hs as [|p q r Hs IH Hstep].
    - subst. proj. rewrite sum_over_replicate by reflexivity. cbn. lia.
    - eapply closes_step; [exact Hstep | now apply IH]. }
  split; [exact Hn|]. intros (_ & _ & Hc & Hret).
  pose proof (invariant_steps E MC o filename _ _ _
                (invariant_start o f w) Hs) as [_ _ _ _ _ Hsz].
  assert (Hsplit : (sum_over stopped (threads p)
                    + sum_over gave_up (threads p)
                    = length (threads p))%nat).
  { apply sum_over_split. intros t Ht.
    rewrite forallb_forall in Hret. specialize (Hret t Ht).
    destruct t; cbn in *; (reflexivity || discriminate). }
  lia.
Qed.

End Signals.

(** ** process_file as a whole *)

Section File.
Variable E : env.
Variable MC : memcache.
Variable o : options.
Variable filename : str.

Lemma verdict_raises filename' st w e w' :
  process_file_verdict filename' st w = (Raise e, w') ->
  e = OverflowError /\ w' = w.
Proof.
  unfold process_file_verdict.
  destruct (processed st) as [|n] eqn:Hn; [discriminate|].
  change (S n =? 0)%nat with false. cbv iota.
  unfold bind at 1, lift at 1.
  destruct (float_of_int (Z.of_nat (errors st))) as [x|ex] eqn:He;
    [|apply float_of_int_raises in He as ->; now intros [= <- <-]].
  unfold bind at 1, lift at 1.
  destruct (float_of_int (Z.of_nat (S n))) as [p|ex] eqn:Hp;
    [|apply float_of_int_raises in Hp as ->; now intros [= <- <-]].
  cbn [Z.of_nat] in Hp. apply float_of_int_pos in Hp as (m & y & ->).
  unfold bind at 1, lift at 1. rewrite float_truediv_finite.
  destruct (float_lt _ _); discriminate.
Qed.

Lemma verdict_returns filename' st w b w' :
  process_file_verdict filename' st w = (Ok b, w') ->
  b = true
  /\ instances w' = instances w /\ sets w' = sets w
  /\ renames w' = renames w ++ [(filename', dotted filename')].
Proof.
  unfold process_file_verdict.
  destruct (processed st =? 0)%nat; [now intros [= <- <-]|].
  unfold bind at 1, lift at 1.
  destruct (float_of_int (Z.of_nat (errors st))) as [x|ex]; [|discriminate].
  unfold bind at 1, lift at 1.
  destruct (float_of_int (Z.of_nat (processed st))) as [p|ex];
    [|discriminate].
  unfold bind at 1, lift at 1.
  destruct (float_truediv x p) as [r|ex]; [|discriminate].
  destruct (float_lt r NORMAL_ERR_RATE); now intros [= <- <-].
Qed.

Lemma collect_results_world (fs : list (result unit)) (w : world) :
  snd (lift (collect_results fs) w) = w.
Proof. unfold lift. now destruct (collect_results fs). Qed.

(** The end of process_file, from the collection of the results on. *)
Lemma ending_returns fs st w b w' :
  (run lift (collect_results fs); process_file_verdict filename st) w
  = (Ok b, w') ->
  collect_results fs = Ok tt
  /\ process_file_verdict filename st w = (Ok b, w').
Proof.
  unfold bind, lift. destruct (collect_results fs) as [[]|e]; [auto|].
  discriminate.
Qed.

Lemma ending_raises fs st w e w' :
  (run lift (collect_results fs); process_file_verdict filename st) w
  = (Raise e, w') ->
  w' = w /\ (collect_results fs = Raise e \/ e = OverflowError).
Proof.
  unfold bind, lift. destruct (collect_results fs) as [[]|e0].
  - intros H. apply verdict_raises in H as [-> ->]. auto.
  - intros [= <- <-]. auto.
Qed.

Lemma line_outcome_raises_kind line w e w' :
  line_outcome E MC o line w = (Raise e, w') -> is_ValueError e = true.
Proof.
  unfold line_outcome, bind.
  destruct (parse_appsinstalled E line w) as [[[a|]|e0] w1] eqn:Hp;
    [| discriminate
     | intros [= <- <-]; now apply parse_raises_kind in Hp as [-> _]].
  destruct (route o (dev_type a)) as [addr|]; [|discriminate].
  destruct (insert_appsinstalled MC addr a (dry o) w1) as [[ok|e1] w2] eqn:Hi;
    [discriminate|].
  intros [= <- <-]. unfold insert_appsinstalled, bind at 1, lift in Hi.
  destruct (user_apps a) as [ua|e2] eqn:Hu.
  - unfold try_except, bind at 1 in Hi. destruct (dry o); [discriminate|].
    destruct (store_write MC addr (store_key a) (SerializeToString ua) w1)
      as [[[]|e3] w3]; discriminate.
  - injection Hi as <- _. unfold user_apps, apps_extend in Hu.
    destruct (forallb in_int64 (apps a)); [discriminate|].
    now injection Hu as <-.
Qed.

Lemma failures_are_value_errors p q :
  steps E MC o filename p q ->
  Forall (fun t => forall e, t = Failed e -> is_ValueError e = true)
         (threads p) ->
  Forall (fun t => forall e, t = Failed e -> is_ValueError e = true)
         (threads q).
Proof.
  intros Hs Hp. induction Hs as [|p q r Hs IH Hstep]; [exact Hp|].
  specialize (IH Hp).
  inversion Hstep; subst; proj; try exact IH;
    apply Forall_insert; try exact IH; try discriminate.
  intros e0 [= <-].
  match goal with H : line_outcome _ _ _ _ _ = _ |- _ =>
    now apply line_outcome_raises_kind in H end.
Qed.

Lemma collect_raises_inv fs e :
  collect_results fs = Raise e -> In (Raise e) fs.
Proof.
  induction fs as [|[[]|e0] fs IH]; cbn; [discriminate | auto |].
  intros [= <-]. auto.
Qed.

(** X19.  process_file never returns False.  When it returns, the
    file has been renamed exactly once; when it raises, the file has
    not been renamed.  In both cases no cached client was dropped or
    replaced, and in dry-run mode no client was made and nothing was
    sent to memcached. *)
Theorem process_file_renames_when_it_returns f w r w' :
  process_file E MC o filename f w r w' ->
  match r with
  | Ok b => b = true
            /\ renames w' = renames w ++ [(filename, dotted filename)]
  | Raise _ => renames w' = renames w
  end
  /\ cache_kept w w'
  /\ (well_keyed w -> well_keyed w')
  /\ (dry o = true -> instances w' = instances w /\ sets w' = sets w).
Proof.
  intros H. destruct H as [Hz | p r0 w0 Hn Hs Hfin Hend].
  - split; [reflexivity|]. split; [apply cache_kept_refl | auto].
  - assert (Hk : clients_kept w (outside p)).
    { apply (steps_respect E MC o clients_kept clients_kept_refl
               clients_kept_trans clients_kept_same_store
               (fun addr a x r y H => insert_kept MC addr a (dry o) x r y H)
               filename _ _ Hs). }
    assert (Hd : dry o = true -> same_store w (outside p)).
    { intros Hdry.
      apply (steps_respect E MC o same_store same_store_refl
               same_store_trans (fun x y H => H)) with (filename := filename)
        (p := start o f w); [|exact Hs].
      intros addr a x r y. rewrite Hdry. apply dry_insert_same_store. }
    destruct Hk as (Hc & Hkey & Hr).
    destruct r0 as [b|e].
    + apply ending_returns in Hend as [_ Hv].
      apply verdict_returns in Hv as (-> & Hi & Hset & Hren).
      split; [split; [reflexivity | now rewrite Hren, Hr]|].
      split; [intros x c Hx; rewrite Hi; now apply Hc|].
      split; [intros Hw x c Hx; rewrite Hi in Hx; now apply (Hkey Hw x)|].
      intros Hdry. destruct (Hd Hdry) as (Hi' & Hs' & _).
      split; congruence.
    + apply ending_raises in Hend as [-> _].
      split; [exact Hr|]. split; [exact Hc|]. split; [exact Hkey|].
      intros Hdry. destruct (Hd Hdry) as (Hi' & Hs' & _). auto.
Qed.

(** X20.  Leaving aside a failure of the rename itself, which the
    model of os.rename does not have, process_file raises nothing but
    a ValueError (its subclass UnicodeDecodeError included) or an
    OverflowError: the refusal of a pool without workers, what a
    worker raised on a line, or a tally too large for a float.  No
    failure of memcached and no error while reading the file makes it
    raise. *)
Theorem process_file_raises_only f w e w' :
  process_file E MC o filename f w (Raise e) w' ->
  is_ValueError e = true \/ e = OverflowError.
Proof.
  intros H. inversion H as [Hz | p r0 w0 Hn Hs Hfin Hend]; subst.
  - now left.
  - apply ending_raises in Hend as [_ [Hc | ->]]; [left | now right].
    apply collect_raises_inv, in_map_iff in Hc as (t & Ht & Hin).
    destruct t; try discriminate. injection Ht as ->.
    assert (H0 : Forall (fun t => forall e, t = Failed e ->
                                   is_ValueError e = true)
                        (threads (start o f w)))
      by (apply Forall_replicate; discriminate).
    pose proof (failures_are_value_errors _ _ Hs H0) as Hf.
    rewrite List.Forall_forall in Hf. exact (Hf _ Hin _ eq_refl).
Qed.

End File.

(** ** Schedules of the pool *)

Lemma insert_next {A} (a b : A) k m :
  <[k := a]> (replicate k a ++ replicate (S m) b)
  = replicate (S k) a ++ replicate m b.
Proof. induction k as [|k IH]; cbn; [reflexivity | now f_equal]. Qed.

Lemma lookup_next {A} (a b : A) k m :
  (replicate k a ++ replicate (S m) b) !! k = Some b.
Proof. induction k as [|k IH]; cbn; [reflexivity | exact IH]. Qed.

Lemma returned_timed_out n : forallb returned (replicate n TimedOut) = true.
Proof. induction n; cbn; auto. Qed.

Lemma collect_timed_out n :
  collect_results (map future (replicate n TimedOut)) = Ok tt.
Proof. induction n; cbn; auto. Qed.

Lemma returned_lookup ts i t :
  forallb returned ts = true -> ts !! i = Some t -> returned t = true.
Proof.
  intros H Hi. rewrite forallb_forall in H. apply H.
  apply list_elem_of_In. eapply list_elem_of_lookup_2, Hi.
Qed.

Section Schedules.
Variable E : env.
Variable MC : memcache.
Variable o : options.
Variable filename : str.

Lemma steps_trans p q r :
  steps E MC o filename p q -> steps E MC o filename q r ->
  steps E MC o filename p r.
Proof.
  intros Hpq Hqr. induction Hqr as [|q r s Hqr IH Hrs]; [exact Hpq|].
  eapply steps_step; [apply IH, Hpq | exact Hrs].
Qed.

(** Every worker's first get times out before the first put. *)
Lemma timeouts_run f w k : forall m,
  (k + m = workers o)%nat ->
  steps E MC o filename (start o f w)
    (with_threads (start o f w)
       (replicate k TimedOut ++ replicate m Getting)).
Proof.
  induction k as [|k IH]; intros m Hm.
  - cbn in Hm. subst m. apply steps_refl.
  - eapply steps_step; [apply (IH (S m)); lia|].
    rewrite <- insert_next.
    apply (get_timeout E MC o filename
             (with_threads (start o f w)
                (replicate k TimedOut ++ replicate (S m) Getting)) k).
    + apply lookup_next.
    + reflexivity.
Qed.

(** The producer puts what it has while the queue has room. *)
Lemma puts_run b c t l ts w ls : forall q,
  N.of_nat (length q + length ls) <= MAXSIZE ->
  steps E MC o filename
    {| todo := ls; broken := b; closes := c; queue := q; tally := t;
       lock := l; threads := ts; outside := w |}
    {| todo := []; broken := b; closes := c; queue := q ++ map Some ls;
       tally := t; lock := l; threads := ts; outside := w |}.
Proof.
  induction ls as [|x ls IH]; intros q Hq.
  - cbn. rewrite app_nil_r. apply steps_refl.
  - eapply steps_cons;
      [eapply put_line; [reflexivity | cbn [queue length] in *; lia]|].
    cbn [broken closes queue tally lock threads outside].
    replace (q ++ map Some (x :: ls)) with ((q ++ [Some x]) ++ map Some ls)
      by (rewrite <- app_assoc; reflexivity).
    apply IH. rewrite length_app. cbn [length] in *. lia.
Qed.

Lemma closes_run t l ts w c : forall q,
  N.of_nat (length q + c) <= MAXSIZE ->
  steps E MC o filename
    {| todo := []; broken := None; closes := c; queue := q; tally := t;
       lock := l; threads := ts; outside := w |}
    {| todo := []; broken := None; closes := O;
       queue := q ++ replicate c None;
       tally := t; lock := l; threads := ts; outside := w |}.
Proof.
  induction c as [|c IH]; intros q Hq.
  - cbn. rewrite app_nil_r. apply steps_refl.
  - eapply steps_cons;
      [eapply put_close; [reflexivity | reflexivity | reflexivity
                         | cbn [queue]; lia]|].
    cbn [broken closes queue tally lock threads outside].
    replace (q ++ replicate (S c) None)
      with ((q ++ [None]) ++ replicate c (@None bytes))
      by (rewrite <- app_assoc; reflexivity).
    apply IH. rewrite length_app. cbn [length]. lia.
Qed.

Lemma error_run t l ts w c q b :
  steps E MC o filename
    {| todo := []; broken := b; closes := c; queue := q; tally := t;
       lock := l; threads := ts; outside := w |}
    {| todo := []; broken := None; closes := c; queue := q; tally := t;
       lock := l; threads := ts;
       outside := match b with
                  | Some e => add_log w ERROR (ErrorReading filename e)
                  | None => w
                  end |}.
Proof.
  destruct b as [e|]; [|apply steps_refl].
  eapply steps_step; [apply steps_refl|].
  eapply (read_error E MC o filename
            {| todo := []; broken := Some e; closes := c; queue := q;
               tally := t; lock := l; threads := ts; outside := w |} e);
    reflexivity.
Qed.

(** X21.  A file of at most 10000 - workers lines can be marked as
    loaded without any of its lines having been looked at: when the
    first get of every worker times out before the first put, the
    producer puts all lines and all close signals into the queue,
    nobody reads them, and process_file returns True and renames the
    file, having sent nothing to memcached. *)
Theorem early_timeouts_skip_the_file f w :
  workers o <> O ->
  N.of_nat (length (fed_lines (content f)) + workers o) <= MAXSIZE ->
  process_file E MC o filename f w (Ok true)
    (add_rename
       match failure f with
       | Some e => add_log w ERROR (ErrorReading filename e)
       | None => w
       end
       filename (dotted filename)).
Proof.
  intros Hn Hsize.
  eapply (process_file_run E MC o filename f w
            {| todo := []; broken := None; closes := O;
               queue := map Some (fed_lines (content f))
                        ++ replicate (workers o) None;
               tally := {| processed := 0; errors := 0 |}; lock := false;
               threads := replicate (workers o) TimedOut;
               outside := match failure f with
                          | Some e =>
                            add_log w ERROR (ErrorReading filename e)
                          | None => w
                          end |}).
  - exact Hn.
  - eapply steps_trans;
      [apply (timeouts_run f w (workers o) O); lia|].
    rewrite app_nil_r. unfold start, with_threads.
    cbn [todo broken closes queue tally lock threads outside].
    eapply steps_trans; [apply puts_run; cbn [length]; lia|].
    eapply steps_trans; [apply error_run|].
    apply closes_run. cbn [app]. rewrite length_map. exact Hsize.
  - repeat split. apply returned_timed_out.
  - cbn [threads tally outside]. unfold bind, lift.
    rewrite collect_timed_out. reflexivity.
Qed.

(** Once every worker has returned, only the producer moves. *)
Lemma producer_alone p q :
  step E MC o filename p q ->
  forallb returned (threads p) = true ->
  threads q = threads p
  /\ (length (queue q) + length (todo q) + closes q
      = length (queue p) + length (todo p) + closes p)%nat.
Proof.
  intros Hstep Hret.
  inversion Hstep; subst; proj;
    try match goal with
        | H : threads _ !! _ = Some _ |- _ =>
          apply (returned_lookup _ _ _ Hret) in H; discriminate
        end;
    split; try reflexivity;
    repeat match goal with H : todo _ = _ |- _ => rewrite H; clear H end;
    repeat match goal with H : closes _ = _ |- _ => rewrite H; clear H end;
    rewrite ?length_app; cbn [length]; lia.
Qed.

Lemma producer_blocked p q :
  steps E MC o filename p q ->
  forallb returned (threads p) = true ->
  N.of_nat (length (queue p)) <= MAXSIZE ->
  MAXSIZE < N.of_nat (length (queue p) + length (todo p) + closes p) ->
  ~ finished q.
Proof.
  intros Hs Hret Hq Hbig.
  assert (H : threads q = threads p
              /\ (length (queue q) + length (todo q) + closes q
                  = length (queue p) + length (todo p) + closes p)%nat
              /\ N.of_nat (length (queue q)) <= MAXSIZE).
  { induction Hs as [|p q r Hs IH Hstep]; [auto|].
    destruct (IH Hret Hq Hbig) as (Ht & Hsum & Hb).
    destruct (producer_alone q r Hstep) as (Ht' & Hsum');
      [now rewrite Ht|].
    split; [congruence|]. split; [lia|].
    eapply queue_bound_step; eauto. }
  destruct H as (_ & Hsum & Hb). intros (Htodo & _ & Hc & _).
  rewrite Htodo, Hc in Hsum. cbn [length] in Hsum. lia.
Qed.

(** X22.  A file of more than 10000 - workers lines can make
    process_file hang: when the first get of every worker times out
    before the first put, every worker has returned, the producer
    fills the queue and its next put waits for ever.  No continuation
    of that interleaving reaches the collection of the results. *)
Theorem early_timeouts_block_the_producer f w :
  workers o <> O ->
  MAXSIZE < N.of_nat (length (fed_lines (content f)) + workers o) ->
  exists p,
    steps E MC o filename (start o f w) p
    /\ forallb returned (threads p) = true
    /\ forall q, steps E MC o filename p q -> ~ finished q.
Proof.
  intros _ Hbig.
  exists (with_threads (start o f w) (replicate (workers o) TimedOut)).
  split; [|split].
  - pose proof (timeouts_run f w (workers o) O) as H.
    rewrite app_nil_r in H. apply H. lia.
  - apply returned_timed_out.
  - intros q Hs. eapply producer_blocked; [exact Hs | | |].
    + apply returned_timed_out.
    + cbn. unfold MAXSIZE. lia.
    + cbn [with_threads start queue todo closes length].
      rewrite Nat.add_0_l. exact Hbig.
Qed.

End Schedules.

(** ** A file without lines *)

Lemma queue_length q :
  length q = (queued_lines q + queued_closes q)%nat.
Proof.
  unfold queued_lines, queued_closes.
  induction q as [|[l|] q IH]; simpl; lia.
Qed.

Lemma some_getting ts :
  sum_over getting ts <> O -> exists i, ts !! i = Some Getting.
Proof.
  unfold sum_over. induction ts as [|t ts IH]; simpl; [congruence|].
  destruct t; simpl; try (intros H; destruct (IH H) as [i Hi]; now exists (S i)).
  intros _. now exists O.
Qed.

Lemma all_returned ts :
  sum_over getting ts = O ->
  Forall (fun t => inflight t = O) ts ->
  forallb returned ts = true.
Proof.
  unfold sum_over. induction ts as [|t ts IH]; simpl; [reflexivity|].
  intros Hg Hf. inversion Hf as [|? ? Ht Hts]; subst.
  destruct t; simpl in *; try discriminate; apply IH; auto; lia.
Qed.

Section NoLines.
Variable E : env.
Variable MC : memcache.
Variable o : options.
Variable filename : str.

Lemma collect_none_lost ts :
  Forall (fun t => lost t = O) ts ->
  collect_results (map future ts) = Ok tt.
Proof.
  induction 1 as [|t ts Ht _ IH]; [reflexivity|].
  destruct t; try exact IH. discriminate.
Qed.

(** With nothing to feed, the world only changes when the error of
    the reader is logged. *)
Lemma no_lines_outside f w p :
  fed_lines (content f) = [] ->
  steps E MC o filename (start o f w) p ->
  (broken p = failure f /\ outside p = w)
  \/ (broken p = None
      /\ exists e, failure f = Some e
                   /\ outside p = add_log w ERROR (ErrorReading filename e)).
Proof.
  intros Hnil Hs.
  remember (start o f w) as p0 eqn:Hp0.
  induction Hs as [|p q r Hs IH Hstep]; [subst; left; auto|].
  specialize (IH Hp0).
  assert (Hinv : invariant o O q).
  { subst p. pose proof (invariant_start o f w) as H0. rewrite Hnil in H0.
    exact (invariant_steps E MC o filename _ _ _ H0 Hs). }
  destruct Hinv as [Hc _ _ _ _ _].
  assert (Hfly : Forall (fun t => inflight t = O) (threads q))
    by (apply sum_over_zero; lia).
  inversion Hstep; subst; proj; try exact IH;
    try match goal with
        | H : threads _ !! _ = Some (Holding _) |- _ =>
          apply (proj1 (Forall_lookup _ _) Hfly) in H; discriminate
        end;
    destruct IH as [[Hb Ho] | (Hb & e' & Hf & Ho)];
    first [ left; split; [congruence | exact Ho]
          | right; split; [reflexivity|]; exists e'; split;
            [exact Hf | congruence]
          | right; split; [reflexivity|];
            match goal with H : broken _ = Some ?e |- _ =>
              exists e; split; [congruence | now rewrite Ho] end
          | congruence ].
Qed.

Lemma signals_reachable f w p :
  steps E MC o filename (start o f w) p ->
  (closes p + queued_closes (queue p) + sum_over stopped (threads p)
   = workers o)%nat.
Proof.
  intros Hs. remember (start o f w) as p0 eqn:Hp0.
  induction Hs as [|p q r Hs IH Hstep].
  - subst. proj. rewrite sum_over_replicate by reflexivity. cbn. lia.
  - eapply closes_step; [exact Hstep | now apply IH].
Qed.

(** With the producer done and no line about, the workers that are
    still at their get return one after the other. *)
Lemma workers_drain n : forall p,
  sum_over getting (threads p) = n ->
  todo p = [] -> broken p = None -> closes p = O ->
  queued_lines (queue p) = O ->
  Forall (fun t => inflight t = O) (threads p) ->
  exists q, steps E MC o filename p q /\ finished q.
Proof.
  induction n as [|n IH]; intros p Hn Ht Hb Hc Hq Hf.
  - exists p. split; [apply steps_refl|].
    repeat split; try assumption. now apply all_returned.
  - destruct (some_getting (threads p)) as [i Hi]; [lia|].
    pose proof (sum_over_insert getting _ _ _ Stopped Hi) as Hs.
    pose proof (sum_over_insert getting _ _ _ TimedOut Hi) as Hto.
    cbn [getting] in Hs, Hto.
    destruct (queue p) as [|[l|] q'] eqn:Hqu.
    + destruct (IH (with_threads p (<[i := TimedOut]> (threads p))))
        as (q & Hsteps & Hfin); proj; try assumption; try lia.
      * now rewrite Hqu.
      * apply Forall_insert; [exact Hf | reflexivity].
      * exists q. split; [|exact Hfin].
        eapply steps_cons; [|exact Hsteps]. now apply get_timeout.
    + rewrite queued_lines_line in Hq. discriminate.
    + rewrite queued_lines_close in Hq.
      destruct (IH (with_queue (with_threads p (<[i := Stopped]> (threads p)))
                      q'))
        as (q & Hsteps & Hfin); proj; try assumption; try lia.
      * apply Forall_insert; [exact Hf | reflexivity].
      * exists q. split; [|exact Hfin].
        eapply steps_cons; [|exact Hsteps]. now apply get_close.
Qed.

(** From a pool without lines whose queue has room for the close
    signals, the run can be completed. *)
Lemma no_lines_complete p :
  todo p = [] ->
  queued_lines (queue p) = O ->
  Forall (fun t => inflight t = O) (threads p) ->
  N.of_nat (length (queue p) + closes p) <= MAXSIZE ->
  exists q, steps E MC o filename p q /\ finished q.
Proof.
  destruct p as [td br cl qu ta lo ts ou]. proj. intros -> Hq Hf Hroom.
  destruct (workers_drain (sum_over getting ts)
              {| todo := []; broken := None; closes := O;
                 queue := qu ++ replicate cl None; tally := ta; lock := lo;
                 threads := ts;
                 outside := match br with
                            | Some e =>
                              add_log ou ERROR (ErrorReading filename e)
                            | None => ou
                            end |})
    as (q & Hsteps & Hfin); proj; try reflexivity; try assumption.
  - now rewrite queued_lines_app, queued_lines_closes, Hq.
  - exists q. split; [|exact Hfin].
    eapply steps_trans; [apply error_run|].
    eapply steps_trans; [apply closes_run; exact Hroom | exact Hsteps].
Qed.

(** On a file without lines every step uses up a pending action. *)
Lemma no_lines_step p q :
  invariant o O p ->
  step E MC o filename p q ->
  (pending q < pending p)%nat.
Proof.
  intros [Hc _ _ _ _ _] Hstep.
  assert (Hfly : Forall (fun t => inflight t = O) (threads p))
    by (apply sum_over_zero; lia).
  assert (Htodo : length (todo p) = O) by lia.
  assert (Hlines : queued_lines (queue p) = O) by lia.
  unfold pending.
  inversion Hstep; subst; proj;
    try match goal with
        | H : threads _ !! _ = Some ?t |- _ =>
          lazymatch t with
          | Getting => fail
          | _ => apply (proj1 (Forall_lookup _ _) Hfly) in H; discriminate
          end
        end;
    try match goal with
        | H : threads _ !! _ = Some Getting |- context [<[_ := ?t']> _] =>
          pose proof (sum_over_insert getting _ _ _ t' H) as Hins;
          cbn [getting] in Hins
        end;
    repeat match goal with
           | H : todo _ = _ |- _ => rewrite H in *; clear H
           | H : broken _ = _ |- _ => rewrite H in *; clear H
           | H : closes _ = _ |- _ => rewrite H in *; clear H
           | H : queue _ = _ |- _ => rewrite H in *; clear H
           end;
    rewrite ?queued_lines_line in *; cbn [length] in *; lia.
Qed.

(** X23.  A file that gives no line to feed (empty, blank lines only,
    or unreadable from the start), handled with at least one worker.
    Every run that reaches the verdict logs the error of the reader if
    there was one, renames the file and returns True, with no client
    made and nothing sent to memcached.  Every step of the pool uses
    up one of the pending actions (the log of the reader's error, a
    close signal to put, a get to return), so no interleaving goes on
    for ever.  And with at most 10000 workers the queue has room for
    all close signals: every interleaving can be continued to the
    verdict, so process_file does return True. *)
Theorem file_without_lines f w :
  fed_lines (content f) = [] ->
  workers o <> O ->
  let w_end :=
    add_rename
      match failure f with
      | Some e => add_log w ERROR (ErrorReading filename e)
      | None => w
      end
      filename (dotted filename) in
  (forall r w',
      process_file E MC o filename f w r w' -> r = Ok true /\ w' = w_end)
  /\ (forall p q,
        steps E MC o filename (start o f w) p ->
        step E MC o filename p q ->
        (pending q < pending p)%nat)
  /\ (N.of_nat (workers o) <= MAXSIZE ->
      (forall p,
          steps E MC o filename (start o f w) p ->
          exists q, steps E MC o filename p q /\ finished q)
      /\ process_file E MC o filename f w (Ok true) w_end).
Proof.
  intros Hnil Hn w_end.
  pose proof (invariant_start o f w) as H0. rewrite Hnil in H0.
  cbn [length] in H0.
  assert (Hall : forall r w',
             process_file E MC o filename f w r w' ->
             r = Ok true /\ w' = w_end).
  { intros r w' H. destruct H as [Hz | p r0 w0 _ Hs Hfin Hend];
      [contradiction|].
    destruct (invariant_steps E MC o filename _ _ _ H0 Hs)
      as [Hc _ _ _ _ _].
    assert (Hlost : Forall (fun t => lost t = O) (threads p))
      by (apply sum_over_zero; lia).
    assert (Hp : processed (tally p) = O) by lia.
    unfold bind, lift in Hend. rewrite (collect_none_lost _ Hlost) in Hend.
    unfold process_file_verdict in Hend. rewrite Hp in Hend.
    cbn in Hend. injection Hend as <- <-. split; [reflexivity|].
    destruct Hfin as (_ & Hb & _). unfold w_end.
    destruct (no_lines_outside f w p Hnil Hs)
      as [[Hb' ->] | (_ & e & -> & ->)]; [|reflexivity].
    rewrite <- Hb', Hb. reflexivity. }
  split; [exact Hall|]. split.
  - intros p q Hs. apply no_lines_step.
    exact (invariant_steps E MC o filename _ _ _ H0 Hs).
  - intros Hroom.
    assert (Hext : forall p,
               steps E MC o filename (start o f w) p ->
               exists q, steps E MC o filename p q /\ finished q).
    { intros p Hs.
      destruct (invariant_steps E MC o filename _ _ _ H0 Hs)
        as [Hc _ _ _ _ _].
      pose proof (signals_reachable f w p Hs) as Hsig.
      apply no_lines_complete.
      - destruct (todo p); [reflexivity | cbn [length] in Hc; lia].
      - lia.
      - apply sum_over_zero. lia.
      - rewrite queue_length. lia. }
    split; [exact Hext|].
    destruct (Hext _ (steps_refl E MC o filename _)) as (q & Hs & Hfin).
    destruct ((run lift (collect_results (map future (threads q)));
               process_file_verdict filename (tally q)) (outside q))
      as [r w'] eqn:Hend.
    pose proof (process_file_run E MC o filename f w q r w' Hn Hs Hfin Hend)
      as Hrun.
    destruct (Hall r w' Hrun) as [-> ->]. exact Hrun.
Qed.

End NoLines.

(** ** dot_rename and main *)

Lemma lstrip_prefix {A} (p : A -> bool) l1 l2 :
  forallb p l1 = true -> lstrip p (l1 ++ l2) = lstrip p l2.
Proof.
  induction l1 as [|x l1 IH]; [reflexivity|].
  cbn. destruct (p x); [exact IH | discriminate].
Qed.

Lemma forallb_rev {A} (p : A -> bool) l : forallb p (rev l) = forallb p l.
Proof.
  induction l as [|x l IH]; [reflexivity|].
  cbn. rewrite forallb_app, IH. cbn. rewrite andb_true_r. apply andb_comm.
Qed.

Lemma path_split_name d fn :
  forallb (fun c => negb (c =? SEP)) fn = true ->
  last d <> Some SEP ->
  path_split (d ++ SEP :: fn) = (match d with [] => [SEP] | _ => d end, fn).
Proof.
  intros Hfn Hd. unfold path_split.
  assert (Hhead : rev (lstrip (fun c => negb (c =? SEP))
                         (rev (d ++ SEP :: fn))) = d ++ [SEP]).
  { rewrite rev_app_distr. cbn [rev]. rewrite <- app_assoc.
    rewrite lstrip_prefix by (now rewrite forallb_rev).
    cbn [app lstrip]. change (negb (SEP =? SEP)) with false. cbv iota.
    cbn [rev]. now rewrite rev_involutive. }
  rewrite Hhead.
  assert (Htail : skipn (length (d ++ [SEP])) (d ++ SEP :: fn) = fn).
  { replace (d ++ SEP :: fn) with ((d ++ [SEP]) ++ fn)
      by (rewrite <- app_assoc; reflexivity).
    apply drop_app_length. }
  rewrite Htail.
  destruct d as [|x d'] using rev_ind; [reflexivity|].
  clear IHd'. rewrite last_snoc in Hd.
  assert (Hx : (x =? SEP) = false)
    by (apply N.eqb_neq; intros ->; now apply Hd).
  rewrite !forallb_app. cbn [forallb]. rewrite Hx, andb_false_r. cbn [andb].
  rewrite !rev_app_distr. cbn [rev app lstrip].
  change (SEP =? SEP) with true. cbv iota. rewrite Hx.
  change (x :: rev d') with (rev [x] ++ rev d').
  rewrite <- rev_app_distr, rev_involutive.
  now destruct (d' ++ [x]) eqn:Hd'; [destruct d'; discriminate|].
Qed.

(** X24.  The renamed file stays in its directory with a dot before
    its name: for a name without a slash and a directory that does not
    end in one, the target of the rename is the directory, a slash, a
    dot and the name; a bare name only gets the dot. *)
Theorem dotted_keeps_the_directory d fn :
  forallb (fun c => negb (c =? SEP)) fn = true ->
  last d <> Some SEP ->
  dotted (d ++ SEP :: fn) = d ++ SEP :: 46 :: fn
  /\ dotted fn = 46 :: fn.
Proof.
  intros Hfn Hd. split.
  - unfold dotted. rewrite (path_split_name d fn Hfn Hd).
    destruct d as [|x d'] using rev_ind; [reflexivity|].
    clear IHd'. rewrite last_snoc in Hd.
    assert (Hx : (x =? SEP) = false)
      by (apply N.eqb_neq; intros ->; now apply Hd).
    destruct (d' ++ [x]) as [|y l] eqn:Hd'; [destruct d'; discriminate|].
    rewrite <- Hd'. unfold path_join. cbn [app u].
    change (46 =? SEP) with false. cbv iota.
    now rewrite last_snoc, Hx.
  - unfold dotted, path_split.
    assert (Hhead : lstrip (fun c => negb (c =? SEP)) (rev fn) = []).
    { rewrite <- (app_nil_r (rev fn)).
      rewrite lstrip_prefix by (now rewrite forallb_rev). reflexivity. }
    rewrite Hhead. reflexivity.
Qed.

Lemma dotted_keeps_the_directory_witness :
  dotted sample_name = u "/data/appsinstalled/.sample.tsv.gz"
  /\ dotted (u "sample.tsv.gz") = u ".sample.tsv.gz".
Proof.
  destruct (dotted_keeps_the_directory (u "/data/appsinstalled")
              (u "sample.tsv.gz")) as [H1 H2].
  - vm_compute. reflexivity.
  - vm_compute. discriminate.
  - split; [exact H1 | exact H2].
Defined.

Section Files.
Variable E : env.
Variable MC : memcache.
Variable o : options.

Lemma renames_of_process_file filename f w r w' :
  process_file E MC o filename f w r w' ->
  renames w'
  = renames w ++ match r with
                 | Ok _ => [(filename, dotted filename)]
                 | Raise _ => []
                 end.
Proof.
  intros H. destruct H as [Hz | p r0 w0 Hn Hs Hfin Hend];
    [now rewrite app_nil_r|].
  assert (Hr : renames (outside p) = renames w).
  { apply (steps_respect E MC o (fun x y => renames y = renames x))
      with (filename := filename) (p := start o f w); try exact Hs.
    - reflexivity.
    - intros; congruence.
    - intros x y H. apply H.
    - intros addr a x r y H. now apply insert_kept in H. }
  destruct r0 as [b|e].
  - apply ending_returns in Hend as [_ Hv].
    apply verdict_returns in Hv as (_ & _ & _ & ->). now rewrite Hr.
  - apply ending_raises in Hend as [-> _]. now rewrite app_nil_r.
Qed.

(** X25.  main handles the files in the order of the listing and
    stops at the first one on which process_file raises: when main
    returns, every file has been renamed once, in that order; when it
    raises, exactly the files before the failing one have been
    renamed, and the failing one and those after it are left. *)
Theorem main_renames_in_order files w r w' :
  main E MC o files w r w' ->
  exists done rest,
    map fst files = done ++ rest
    /\ renames w' = renames w ++ map (fun fn => (fn, dotted fn)) done
    /\ match r with
       | Ok _ => rest = []
       | Raise _ => rest <> []
       end.
Proof.
  induction 1 as [w | fn f rest w ok w1 r w2 Hp Hm IH | fn f rest w e w1 Hp].
  - exists [], []. cbn. now rewrite app_nil_r.
  - destruct IH as (done & left & Hfiles & Hren & Hr).
    exists (fn :: done), left. cbn [map fst app].
    split; [now rewrite Hfiles|]. split; [|exact Hr].
    apply renames_of_process_file in Hp. rewrite Hren, Hp.
    now rewrite <- app_assoc.
  - exists [], (fn :: map fst rest). cbn [map fst app].
    split; [reflexivity|]. split; [|discriminate].
    apply renames_of_process_file in Hp. now rewrite Hp, !app_nil_r.
Qed.

End Files.

(** ** Sample runs *)

(** The first get of the worker times out; the producer then puts the
    line and the close signal. *)
Lemma late_producer_run :
  steps latin1 healthy one_worker sample_name
    (start one_worker one_line_file world0)
    {| todo := []; broken := None; closes := 0;
       queue := [Some good_line; None];
       tally := {| processed := 0; errors := 0 |};
       lock := false; threads := [TimedOut]; outside := world0 |}.
Proof.
  thread_step get_timeout.
  producer_step put_line.
  producer_step put_close.
  apply steps_refl.
Qed.

(** The worker stores the line and takes the close signal. *)
Lemma served_run :
  exists w',
    process_file latin1 healthy one_worker sample_name one_line_file
      world0 (Ok true) w'.
Proof.
  eexists. eapply process_file_run.
  - discriminate.
  - producer_step put_line.
    thread_step get_line.
    thread_step work.
    thread_step acquire.
    thread_step read_counter.
    thread_step write_counter.
    producer_step put_close.
    thread_step get_close.
    apply steps_refl.
  - repeat split.
  - vm_compute. reflexivity.
Qed.

(** The worker raises on the line of six fields. *)
Lemma failing_run w :
  process_file latin1 healthy one_worker sample_name long_line_file
    w (Raise ValueError) w.
Proof.
  eapply process_file_run.
  - discriminate.
  - producer_step put_line.
    thread_step get_line.
    thread_step work_raises.
    producer_step put_close.
    apply steps_refl.
  - repeat split.
  - reflexivity.
Qed.

Lemma blank_run w :
  process_file latin1 healthy one_worker sample_name blank_file
    w (Ok true) (add_rename w sample_name (dotted sample_name)).
Proof.
  eapply process_file_run.
  - discriminate.
  - producer_step put_close.
    thread_step get_close.
    apply steps_refl.
  - repeat split.
  - reflexivity.
Qed.

Lemma queue_never_overfull_witness :
  N.of_nat (length [Some good_line; @None bytes]) <= 10000.
Proof.
  apply (queue_never_overfull latin1 healthy one_worker sample_name
           one_line_file world0 _ late_producer_run).
Defined.

Lemma one_close_signal_per_worker_witness :
  queued_closes [Some good_line; None] = sum_over gave_up [TimedOut].
Proof.
  apply (one_close_signal_per_worker latin1 healthy one_worker sample_name
           one_line_file world0 _ late_producer_run).
  repeat split.
Defined.

Lemma process_file_renames_when_it_returns_witness :
  exists w',
    process_file latin1 healthy one_worker sample_name one_line_file
      world0 (Ok true) w'
    /\ renames w' = [(sample_name, dotted sample_name)].
Proof.
  destruct served_run as (w' & Hrun). exists w'. split; [exact Hrun|].
  apply (process_file_renames_when_it_returns latin1 healthy one_worker
           sample_name one_line_file world0 (Ok true) w' Hrun).
Defined.

Lemma process_file_raises_only_witness :
  exists e w',
    process_file latin1 healthy one_worker sample_name long_line_file
      world0 (Raise e) w'
    /\ (is_ValueError e = true \/ e = OverflowError).
Proof.
  exists ValueError, world0. split; [apply failing_run|].
  apply (process_file_raises_only latin1 healthy one_worker sample_name
           long_line_file world0 ValueError world0 (failing_run world0)).
Defined.

Lemma early_timeouts_skip_the_file_witness :
  process_file latin1 healthy one_worker sample_name one_line_file world0
    (Ok true) (add_rename world0 sample_name (dotted sample_name)).
Proof.
  apply (early_timeouts_skip_the_file latin1 healthy one_worker sample_name
           one_line_file world0).
  - discriminate.
  - vm_compute. discriminate.
Defined.

Lemma early_timeouts_block_the_producer_witness :
  exists p,
    steps latin1 healthy one_worker sample_name
      (start one_worker big_file world0) p
    /\ forallb returned (threads p) = true
    /\ forall q, steps latin1 healthy one_worker sample_name p q ->
                 ~ finished q.
Proof.
  apply (early_timeouts_block_the_producer latin1 healthy one_worker
           sample_name big_file world0).
  - discriminate.
  - vm_compute. reflexivity.
Defined.

Lemma file_without_lines_witness :
  process_file latin1 healthy one_worker sample_name blank_file world0
    (Ok true) (add_rename world0 sample_name (dotted sample_name)).
Proof.
  apply (file_without_lines latin1 healthy one_worker sample_name
           blank_file world0).
  - reflexivity.
  - discriminate.
  - vm_compute. discriminate.
Defined.

Lemma main_renames_in_order_witness :
  exists done rest,
    [sample_name; sample_name; sample_name] = done ++ rest
    /\ [(sample_name, dotted sample_name)]
       = map (fun fn => (fn, dotted fn)) done
    /\ rest <> [].
Proof.
  apply (main_renames_in_order latin1 healthy one_worker
           [(sample_name, blank_file); (sample_name, long_line_file);
            (sample_name, one_line_file)]
           world0 (Raise ValueError)
           (add_rename world0 sample_name (dotted sample_name))).
  eapply main_next; [apply blank_run|]. apply main_raises, failing_run.
Defined.

(** ** Malformed lines that are handled *)

(** X26.  A line that decodes and splits on tab into fewer than five
    fields, or into five fields of which the device type or the device
    id is empty, makes parse_appsinstalled return None without raising;
    the worker turn that handles it adds exactly one to the error
    counter, leaves the processed counter alone and goes on with the
    next item. *)
Theorem malformed_line_is_one_error E MC o line s st w :
  decode_utf8 line = Ok s ->
  ((length (split TAB (str_strip s)) < 5)%nat
   \/ exists dt di la lo raw,
       split TAB (str_strip s) = [dt; di; la; lo; raw]
       /\ (dt = [] \/ di = [])) ->
  parse_appsinstalled E line w = (Ok None, w)
  /\ line_worker_turn E MC o (Item (Some line)) st w
     = (Ok (Continue, {| processed := processed st;
                         errors := S (errors st) |}), w)
  /\ forall rest,
      line_worker E MC o (Item (Some line) :: rest) st w
      = line_worker E MC o rest
          {| processed := processed st; errors := S (errors st) |} w.
Proof.
  intros Hd Hs.
  assert (Hp : parse_appsinstalled E line w = (Ok None, w)).
  { destruct Hs as [Hlen | (dt & di & la & lo & raw & Hf & Hid)].
    - eapply parse_too_short; eauto.
    - eapply parse_empty_id; eauto. }
  pose proof (turn_no_record E MC o line st w w Hp) as Ht.
  split; [exact Hp|]. split; [exact Ht|].
  intros rest. now apply line_worker_continue.
Qed.

Lemma malformed_line_is_one_error_witness :
  parse_appsinstalled latin1 short_line world0 = (Ok None, world0)
  /\ line_worker_turn latin1 healthy default_options
       (Item (Some short_line)) fresh world0
     = (Ok (Continue, {| processed := 0; errors := 1 |}), world0).
Proof.
  destruct (malformed_line_is_one_error latin1 healthy default_options
              short_line
              (u "idfa" ++ [TAB] ++ u "X1" ++ [TAB] ++ u "55.55"
               ++ [TAB] ++ u "42.42")
              fresh world0) as (Hp & Ht & _).
  - vm_compute. reflexivity.
  - left. vm_compute. lia.
  - split; [exact Hp | exact Ht].
Defined.
